(** * stock-ai-ultra: the streamed chat proxy and the quote generator

    A shallow embedding of
      - server/routes.ts    (registerRoutes: the handler of POST /api/chat)
      - server/stockData.ts (STOCKS, getStockPrice, getStockQuote,
                             getMarketIndices, getAllSymbols)
      - lib/api.ts          (streamChat)
    and of the platform functions these call: [JSON.stringify] and
    [JSON.parse], the UTF-8 encoding of [res.write] and the streaming
    [TextDecoder], and the [String.prototype] methods.

    Conventions.  A string is the list of its UTF-16 code units and a byte
    stream a list of chunks of bytes, both over [Z].  Doubles, [Math] and the
    case mapping of [toUpperCase] are interfaces ([Numbers], [Casing]); the
    clock is an argument.  Effects are explicit: the handler maps a request
    and the behaviour of the provider to the state of the response object,
    and [streamChat] maps what [fetch] delivers to the list of callback
    calls it makes.  Callbacks, [res.write] and [res.end] return normally.

    The definitions come first, one module for each source file; the
    properties of the chat-streaming contract follow. *)

From Stdlib Require Import ZArith List Bool Lia String Ascii.
Import ListNotations.
Local Open Scope Z_scope.
Set Warnings "-register-all".

(* ================================================================== *)
(** * JavaScript strings *)
(* ================================================================== *)

(** A JavaScript string is a sequence of UTF-16 code units; a code unit is
    an integer in [0, 65536). *)
Module JsString.

Definition jstr := list Z.

Definition code_unit (c : Z) : Prop := 0 <= c < 65536.
Definition well_formed (s : jstr) : Prop := Forall code_unit s.

(** An ASCII literal of the source as a JavaScript string. *)
Fixpoint lit (s : string) : jstr :=
  match s with
  | EmptyString => []
  | String a r => Z.of_N (N_of_ascii a) :: lit r
  end.

Definition dquote : Z := 34.
Definition backslash : Z := 92.
Definition newline : Z := 10.

Fixpoint eqb (a b : jstr) : bool :=
  match a, b with
  | [], [] => true
  | x :: a', y :: b' => (x =? y) && eqb a' b'
  | _, _ => false
  end.

(** [s.startsWith(p)] *)
Fixpoint startsWith (s p : jstr) {struct p} : bool :=
  match p, s with
  | [], _ => true
  | x :: p', y :: s' => (x =? y) && startsWith s' p'
  | _ :: _, [] => false
  end.

(** [s.slice(n)] for a non-negative [n] *)
Definition slice (n : nat) (s : jstr) : jstr := skipn n s.

(** [s.includes(needle)]: some suffix of [s] starts with [needle]. *)
Fixpoint includes (s needle : jstr) : bool :=
  startsWith s needle ||
  match s with
  | [] => false
  | _ :: s' => includes s' needle
  end.

(** [s.split(sep)] for a one-code-unit separator: never the empty array. *)
Fixpoint split (sep : Z) (s : jstr) : list jstr :=
  match s with
  | [] => [[]]
  | c :: r =>
      if c =? sep then [] :: split sep r
      else match split sep r with
           | [] => [[c]]
           | l :: ls => (c :: l) :: ls
           end
  end.

(** [parts.join(sep)] *)
Fixpoint join (sep : jstr) (parts : list jstr) : jstr :=
  match parts with
  | [] => []
  | [p] => p
  | p :: ps => p ++ sep ++ join sep ps
  end.

(** A string of white space only, as [trim] would empty it; the ASCII
    white space is enough here. *)
Definition blank (s : jstr) : Prop :=
  Forall (fun c => c = 32 \/ 9 <= c <= 13) s.

(** Truthiness of a string: [Boolean(s)] *)
Definition nonempty (s : jstr) : bool :=
  match s with [] => false | _ :: _ => true end.

Definition is_lead (c : Z) : bool := (55296 <=? c) && (c <=? 56319).   (* D800..DBFF *)
Definition is_trail (c : Z) : bool := (56320 <=? c) && (c <=? 57343).  (* DC00..DFFF *)

(** No lone surrogate: each lead is followed by a trail, and each trail
    follows a lead. *)
Fixpoint paired (s : jstr) : bool :=
  match s with
  | [] => true
  | c :: r =>
      if is_lead c then
        match r with
        | d :: r' => is_trail d && paired r'
        | [] => false
        end
      else negb (is_trail c) && paired r
  end.

(** Text that is printable and has no lone surrogate: units from the space
    on that are not surrogates, and surrogate pairs. *)
Inductive safe : jstr -> Prop :=
| safe_nil : safe []
| safe_unit (c : Z) (r : jstr) :
    32 <= c < 65536 -> is_lead c = false -> is_trail c = false ->
    safe r -> safe (c :: r)
| safe_pair (c d : Z) (r : jstr) :
    is_lead c = true -> is_trail d = true -> safe r -> safe (c :: d :: r).

End JsString.

(* ================================================================== *)
(** * UTF-8: what [res.write] puts on the wire, what [TextDecoder] reads *)
(* ================================================================== *)

Module Utf8.
Import JsString.

Definition bytes := list Z.

(** The UTF-8 bytes of one code point below 0x110000. *)
Definition encode_cp (cp : Z) : bytes :=
  if cp <? 128 then [cp]
  else if cp <? 2048 then [192 + cp / 64; 128 + cp mod 64]
  else if cp <? 65536 then
    [224 + cp / 4096; 128 + (cp / 64) mod 64; 128 + cp mod 64]
  else
    [240 + cp / 262144; 128 + (cp / 4096) mod 64;
     128 + (cp / 64) mod 64; 128 + cp mod 64].

Definition replacement : bytes := [239; 191; 189].   (* U+FFFD *)

(** [res.write(str)] with the default encoding: a surrogate pair becomes one
    four-byte sequence, a lone surrogate becomes U+FFFD. *)
Fixpoint encode (s : jstr) : bytes :=
  match s with
  | [] => []
  | c :: r =>
      if is_lead c then
        match r with
        | d :: r' =>
            if is_trail d
            then encode_cp (65536 + (c - 55296) * 1024 + (d - 56320)) ++ encode r'
            else replacement ++ encode r
        | [] => replacement
        end
      else if is_trail c then replacement ++ encode r
      else encode_cp c ++ encode r
  end.

(** The state a [TextDecoder] keeps between [decode(value, {stream: true})]
    calls: the partial code point, how many continuation bytes are seen and
    needed, the bounds of the next continuation byte, and whether the first
    code point (a byte order mark is dropped) has gone by. *)
Record decoder := {
  code_point : Z;
  bytes_seen : Z;
  bytes_needed : Z;
  lower_boundary : Z;
  upper_boundary : Z;
  bom_seen : bool
}.

Definition new_decoder : decoder :=
  {| code_point := 0; bytes_seen := 0; bytes_needed := 0;
     lower_boundary := 128; upper_boundary := 191; bom_seen := false |}.

Definition reset (d : decoder) : decoder :=
  {| code_point := 0; bytes_seen := 0; bytes_needed := 0;
     lower_boundary := 128; upper_boundary := 191; bom_seen := bom_seen d |}.

Definition expect (d : decoder) (cp needed lo hi : Z) : decoder :=
  {| code_point := cp; bytes_seen := 0; bytes_needed := needed;
     lower_boundary := lo; upper_boundary := hi; bom_seen := bom_seen d |}.

(** A byte read when no sequence is open: the code points it completes and
    the next state. *)
Definition lead_byte (d : decoder) (b : Z) : decoder * list Z :=
  if (0 <=? b) && (b <=? 127) then (reset d, [b])
  else if (194 <=? b) && (b <=? 223) then (expect d (b mod 32) 1 128 191, [])
  else if (224 <=? b) && (b <=? 239) then
    (expect d (b mod 16) 2 (if b =? 224 then 160 else 128)
                           (if b =? 237 then 159 else 191), [])
  else if (240 <=? b) && (b <=? 244) then
    (expect d (b mod 8) 3 (if b =? 240 then 144 else 128)
                          (if b =? 244 then 143 else 191), [])
  else (reset d, [65533]).

(** One byte through the decoder.  A byte that cannot continue the open
    sequence closes it with U+FFFD and is then read again as a lead byte. *)
Definition decode_byte (d : decoder) (b : Z) : decoder * list Z :=
  if bytes_needed d =? 0 then lead_byte d b
  else if (lower_boundary d <=? b) && (b <=? upper_boundary d) then
    let cp := code_point d * 64 + b mod 64 in
    if bytes_seen d + 1 =? bytes_needed d then (reset d, [cp])
    else ({| code_point := cp; bytes_seen := bytes_seen d + 1;
             bytes_needed := bytes_needed d;
             lower_boundary := 128; upper_boundary := 191;
             bom_seen := bom_seen d |}, [])
  else
    let (d', out) := lead_byte (reset d) b in (d', 65533 :: out).

(** A decoded code point as UTF-16 code units. *)
Definition utf16 (cp : Z) : jstr :=
  if cp <? 65536 then [cp]
  else [55296 + (cp - 65536) / 1024; 56320 + (cp - 65536) mod 1024].

(** Output of code points: the first one of the stream is dropped when it is
    the byte order mark U+FEFF. *)
Fixpoint serialize (seen : bool) (cps : list Z) : bool * jstr :=
  match cps with
  | [] => (seen, [])
  | cp :: r =>
      if seen then let (s', out) := serialize true r in (s', utf16 cp ++ out)
      else if cp =? 65279 then serialize true r
      else let (s', out) := serialize true r in (s', utf16 cp ++ out)
  end.

Definition mark_bom (d : decoder) (seen : bool) : decoder :=
  {| code_point := code_point d; bytes_seen := bytes_seen d;
     bytes_needed := bytes_needed d;
     lower_boundary := lower_boundary d; upper_boundary := upper_boundary d;
     bom_seen := seen |}.

Fixpoint decode_points (d : decoder) (value : bytes) : decoder * list Z :=
  match value with
  | [] => (d, [])
  | b :: r =>
      let (d1, out1) := decode_byte d b in
      let (d2, out2) := decode_points d1 r in
      (d2, out1 ++ out2)
  end.

(** [decoder.decode(value, { stream: true })]: bytes of an unfinished
    sequence stay in the decoder for the next call. *)
Definition decode (d : decoder) (value : bytes) : decoder * jstr :=
  let (d1, cps) := decode_points d value in
  let (seen, text) := serialize (bom_seen d1) cps in
  (mark_bom d1 seen, text).

(** A scalar value: a code point that is not a surrogate. *)
Definition scalar (cp : Z) : Prop :=
  0 <= cp < 1114112 /\ ~ (55296 <= cp <= 57343).

(** The decoder between two sequences, once the first code point is out. *)
Definition ready : decoder := mark_bom new_decoder true.

(** The text of a whole stream: what the successive calls of [decode]
    return, one after the other. *)
Fixpoint decode_all (d : decoder) (chunks : list bytes) : jstr :=
  match chunks with
  | [] => []
  | value :: rest =>
      let (d', text) := decode d value in text ++ decode_all d' rest
  end.

End Utf8.

(* ================================================================== *)
(** * JSON: [JSON.stringify] on the server, [JSON.parse] on the client *)
(* ================================================================== *)

Module Json.
Import JsString.

(** A number literal [-d.ddd e+x] denotes the double nearest to
    [mantissa * 10 ^ exponent], with its sign. *)
Record jnumber := {
  negative : bool;
  mantissa : Z;
  exponent : Z
}.

Inductive json :=
| JNull
| JBool (b : bool)
| JNum (n : jnumber)
| JStr (s : jstr)
| JArr (items : list json)
| JObj (props : list (jstr * json)).

(** ** QuoteJSONString *)

Definition hex_digit (n : Z) : Z := if n <? 10 then 48 + n else 87 + n.

(** [\uXXXX] with four lowercase hexadecimal digits *)
Definition unicode_escape (c : Z) : jstr :=
  [backslash; 117; hex_digit (c / 4096); hex_digit ((c / 256) mod 16);
   hex_digit ((c / 16) mod 16); hex_digit (c mod 16)].

(** One code point that is not half of a surrogate pair. *)
Definition quote_unit (c : Z) : jstr :=
  if c =? 8 then [backslash; 98]            (* \b *)
  else if c =? 9 then [backslash; 116]      (* \t *)
  else if c =? 10 then [backslash; 110]     (* \n *)
  else if c =? 12 then [backslash; 102]     (* \f *)
  else if c =? 13 then [backslash; 114]     (* \r *)
  else if c =? 34 then [backslash; dquote]
  else if c =? 92 then [backslash; backslash]
  else if c <? 32 then unicode_escape c
  else if is_lead c || is_trail c then unicode_escape c
  else [c].

(** The characters between the quotes: the string is read by code points, a
    well-formed surrogate pair is copied, a lone surrogate is escaped. *)
Fixpoint quote_chars (s : jstr) : jstr :=
  match s with
  | [] => []
  | c :: r =>
      if is_lead c then
        match r with
        | d :: r' =>
            if is_trail d then c :: d :: quote_chars r'
            else unicode_escape c ++ quote_chars r
        | [] => unicode_escape c
        end
      else quote_unit c ++ quote_chars r
  end.

Definition QuoteJSONString (s : jstr) : jstr :=
  dquote :: quote_chars s ++ [dquote].

(** [JSON.stringify({ key: value })] for a string [value], and
    [JSON.stringify({ key: true })]: the two object shapes the chat handler
    serialises. *)
Definition stringify_string_property (key value : jstr) : jstr :=
  lit "{" ++ QuoteJSONString key ++ lit ":" ++ QuoteJSONString value ++ lit "}".

Definition stringify_true_property (key : jstr) : jstr :=
  lit "{" ++ QuoteJSONString key ++ lit ":true}".

(** ** JSON.parse *)

Inductive result (A : Type) :=
| Ok (a : A)
| SyntaxError
| OutOfFuel.
Arguments Ok {A} a.
Arguments SyntaxError {A}.
Arguments OutOfFuel {A}.

Definition is_ws (c : Z) : bool :=
  (c =? 32) || (c =? 9) || (c =? 10) || (c =? 13).

Fixpoint skip_ws (s : jstr) : jstr :=
  match s with
  | c :: r => if is_ws c then skip_ws r else s
  | [] => []
  end.

Definition unhex (c : Z) : option Z :=
  if (48 <=? c) && (c <=? 57) then Some (c - 48)
  else if (97 <=? c) && (c <=? 102) then Some (c - 87)
  else if (65 <=? c) && (c <=? 70) then Some (c - 55)
  else None.

Definition hex4 (a b c d : Z) : option Z :=
  match unhex a, unhex b, unhex c, unhex d with
  | Some x, Some y, Some z, Some w => Some (x * 4096 + y * 256 + z * 16 + w)
  | _, _, _, _ => None
  end.

(** The character after a backslash, other than [u]. *)
Definition unescape (e : Z) : option Z :=
  if e =? 34 then Some 34
  else if e =? 92 then Some 92
  else if e =? 47 then Some 47
  else if e =? 98 then Some 8
  else if e =? 102 then Some 12
  else if e =? 110 then Some 10
  else if e =? 114 then Some 13
  else if e =? 116 then Some 9
  else None.

Definition push (c : Z) (r : option (jstr * jstr)) : option (jstr * jstr) :=
  match r with
  | Some (str, rest) => Some (c :: str, rest)
  | None => None
  end.

(** A string body after its opening quote: the string and what follows the
    closing quote.  Control characters must be escaped. *)
Fixpoint parse_chars (s : jstr) : option (jstr * jstr) :=
  match s with
  | [] => None
  | c :: r =>
      if c =? dquote then Some ([], r)
      else if c =? backslash then
        match r with
        | [] => None
        | e :: r1 =>
            if e =? 117 then
              match r1 with
              | h1 :: h2 :: h3 :: h4 :: r2 =>
                  match hex4 h1 h2 h3 h4 with
                  | Some u => push u (parse_chars r2)
                  | None => None
                  end
              | _ => None
              end
            else
              match unescape e with
              | Some u => push u (parse_chars r1)
              | None => None
              end
        end
      else if c <? 32 then None
      else push c (parse_chars r)
  end.

Definition is_digit (c : Z) : bool := (48 <=? c) && (c <=? 57).

(** A run of digits: its value appended to [acc], its length, the rest. *)
Fixpoint digits (s : jstr) (acc : Z) (n : Z) : Z * Z * jstr :=
  match s with
  | c :: r => if is_digit c then digits r (acc * 10 + (c - 48)) (n + 1)
              else (acc, n, s)
  | [] => (acc, n, [])
  end.

Definition parse_exponent (s : jstr) : option (Z * jstr) :=
  match s with
  | c :: r =>
      if (c =? 101) || (c =? 69) then
        let '(sign, r1) :=
          match r with
          | x :: r' => if x =? 43 then (1, r')
                       else if x =? 45 then (-1, r') else (1, r)
          | [] => (1, r)
          end in
        let '(e, n, r2) := digits r1 0 0 in
        if n =? 0 then None else Some (sign * e, r2)
      else Some (0, s)
  | [] => Some (0, [])
  end.

Definition parse_fraction (m : Z) (s : jstr) : option (Z * Z * jstr) :=
  match s with
  | c :: r =>
      if c =? 46 then
        let '(m', n, r1) := digits r m 0 in
        if n =? 0 then None else Some (m', n, r1)
      else Some (m, 0, s)
  | [] => Some (m, 0, [])
  end.

(** A zero, or a non-zero digit and more digits. *)
Definition parse_integer (s : jstr) : option (Z * jstr) :=
  match s with
  | c :: r =>
      if c =? 48 then Some (0, r)
      else if is_digit c then
        let '(m, _, r1) := digits s 0 0 in Some (m, r1)
      else None
  | [] => None
  end.

(** The digits of a number: the integer part, an optional point and
    digits, an optional exponent. *)
Definition parse_unsigned (neg : bool) (s : jstr) : option (jnumber * jstr) :=
  match parse_integer s with
  | None => None
  | Some (m, s2) =>
      match parse_fraction m s2 with
      | None => None
      | Some (m', nfrac, s3) =>
          match parse_exponent s3 with
          | None => None
          | Some (e, s4) =>
              Some ({| negative := neg; mantissa := m'; exponent := e - nfrac |}, s4)
          end
      end
  end.

(** An optional minus sign, then the digits. *)
Definition parse_number (s : jstr) : option (jnumber * jstr) :=
  match s with
  | c :: r => if c =? 45 then parse_unsigned true r else parse_unsigned false s
  | [] => None
  end.

Definition parse_scalar (s : jstr) : result (json * jstr) :=
  match s with
  | [] => SyntaxError
  | c :: r =>
      if c =? dquote then
        match parse_chars r with
        | Some (str, r') => Ok (JStr str, r')
        | None => SyntaxError
        end
      else if (c =? 45) || is_digit c then
        match parse_number s with
        | Some (n, r') => Ok (JNum n, r')
        | None => SyntaxError
        end
      else if startsWith s (lit "true") then Ok (JBool true, skipn 4 s)
      else if startsWith s (lit "false") then Ok (JBool false, skipn 5 s)
      else if startsWith s (lit "null") then Ok (JNull, skipn 4 s)
      else SyntaxError
  end.

(** Recursive descent.  [fuel] bounds the depth of calls; [JSON_parse] below
    gives it enough for the whole text. *)
Fixpoint parse_value (fuel : nat) (s : jstr) {struct fuel} : result (json * jstr) :=
  match fuel with
  | O => OutOfFuel
  | S fuel' =>
      match skip_ws s with
      | [] => SyntaxError
      | c :: r =>
          if c =? 123 then
            match skip_ws r with
            | [] => SyntaxError
            | c2 :: r2 =>
                if c2 =? 125 then Ok (JObj [], r2)
                else parse_members fuel' (c2 :: r2) []
            end
          else if c =? 91 then
            match skip_ws r with
            | [] => SyntaxError
            | c2 :: r2 =>
                if c2 =? 93 then Ok (JArr [], r2)
                else parse_elements fuel' (c2 :: r2) []
            end
          else parse_scalar (c :: r)
      end
  end
with parse_elements (fuel : nat) (s : jstr) (acc : list json) {struct fuel}
  : result (json * jstr) :=
  match fuel with
  | O => OutOfFuel
  | S fuel' =>
      match parse_value fuel' s with
      | Ok (v, r) =>
          match skip_ws r with
          | [] => SyntaxError
          | c :: r' =>
              if c =? 44 then parse_elements fuel' r' (v :: acc)
              else if c =? 93 then Ok (JArr (rev (v :: acc)), r')
              else SyntaxError
          end
      | SyntaxError => SyntaxError
      | OutOfFuel => OutOfFuel
      end
  end
with parse_members (fuel : nat) (s : jstr) (acc : list (jstr * json)) {struct fuel}
  : result (json * jstr) :=
  match fuel with
  | O => OutOfFuel
  | S fuel' =>
      match skip_ws s with
      | [] => SyntaxError
      | c :: r =>
          if c =? dquote then
            match parse_chars r with
            | None => SyntaxError
            | Some (key, r1) =>
                match skip_ws r1 with
                | [] => SyntaxError
                | c1 :: r2 =>
                    if c1 =? 58 then
                      match parse_value fuel' r2 with
                      | Ok (v, r3) =>
                          match skip_ws r3 with
                          | [] => SyntaxError
                          | c3 :: r4 =>
                              if c3 =? 44 then parse_members fuel' r4 ((key, v) :: acc)
                              else if c3 =? 125 then Ok (JObj (rev ((key, v) :: acc)), r4)
                              else SyntaxError
                          end
                      | SyntaxError => SyntaxError
                      | OutOfFuel => OutOfFuel
                      end
                    else SyntaxError
                end
            end
          else SyntaxError
      end
  end.

Definition parse_fuel (s : jstr) : nat := S (2 * List.length s).

(** [JSON.parse(text)]: one value, then only white space. *)
Definition JSON_parse (text : jstr) : result json :=
  match parse_value (parse_fuel text) text with
  | Ok (v, r) =>
      match skip_ws r with
      | [] => Ok v
      | _ :: _ => SyntaxError
      end
  | SyntaxError => SyntaxError
  | OutOfFuel => OutOfFuel
  end.

(** What is left after a value is shorter than the text; a call that does
    not run out of fuel. *)
Definition shorter (s : jstr) (x : result (json * jstr)) : Prop :=
  forall v r, x = Ok (v, r) -> (List.length r < List.length s)%nat.

Definition fuelled (x : result (json * jstr)) : Prop := x <> OutOfFuel.

(** ** Values at run time *)

(** The value of a number literal is zero when its mantissa is, or when it
    is so small that the nearest double is zero: at most [2 ^ -1075], half of
    the least subnormal. *)
Definition number_is_zero (n : jnumber) : bool :=
  (mantissa n =? 0) ||
  ((exponent n <? 0) && (mantissa n * 2 ^ 1075 <=? 10 ^ (- exponent n))).

(** [Boolean(v)] *)
Definition truthy (v : json) : bool :=
  match v with
  | JNull => false
  | JBool b => b
  | JNum n => negb (number_is_zero n)
  | JStr s => nonempty s
  | JArr _ => true
  | JObj _ => true
  end.

(** The last binding of [key]: a repeated member overrides the earlier one. *)
Fixpoint lookup (key : jstr) (props : list (jstr * json)) : option json :=
  match props with
  | [] => None
  | (k, v) :: rest =>
      match lookup key rest with
      | Some v' => Some v'
      | None => if eqb k key then Some v else None
      end
  end.

(** [data.key] on a parsed value, for a [key] that no built-in prototype
    defines ([done], [error] and [content] are such): [None] is the TypeError
    of reading a property of [null], [Some None] is [undefined]. *)
Definition get (data : json) (key : jstr) : option (option json) :=
  match data with
  | JNull => None
  | JObj props => Some (lookup key props)
  | _ => Some None
  end.

Definition truthy_opt (v : option json) : bool :=
  match v with
  | Some x => truthy x
  | None => false
  end.

End Json.

(* ================================================================== *)
(** * The platform the server code runs on *)
(* ================================================================== *)

(** IEEE doubles and [Math]: the quote generator only combines them, so
    they are an interface.  [num z] is an integer literal, [dec m k] the
    decimal literal [m / 10 ^ k] (198.50 is [dec 19850 2]). *)
Class Numbers := {
  number : Type;
  num : Z -> number;
  dec : Z -> nat -> number;
  NaN : number;
  nadd : number -> number -> number;
  nsub : number -> number -> number;
  nmul : number -> number -> number;
  ndiv : number -> number -> number;
  nge : number -> number -> bool;
  Math_sin : number -> number;
  Math_floor : number -> number;
  Math_round : number -> number;
  Math_max : number -> number -> number;
  Math_min : number -> number -> number;
  Number_toString : number -> JsString.jstr;
  toFixed : number -> nat -> JsString.jstr
}.

(** [String.prototype.toUpperCase] with what the code relies on: upper-casing
    twice changes nothing more, no ASCII lower-case letter survives, and a
    string of ASCII capitals is left as it is. *)
Class Casing := {
  toUpperCase : JsString.jstr -> JsString.jstr;
  toUpperCase_idempotent :
    forall s, toUpperCase (toUpperCase s) = toUpperCase s;
  toUpperCase_no_lower :
    forall s, Forall (fun c => ~ (97 <= c <= 122)) (toUpperCase s);
  toUpperCase_capitals :
    forall s, Forall (fun c => 65 <= c <= 90) s -> toUpperCase s = s
}.

(* ================================================================== *)
(** * server/stockData.ts *)
(* ================================================================== *)

Module StockData.
Import JsString.

Section WithPlatform.
Context {N : Numbers} {C : Casing}.

Record stock := {
  name : jstr;
  sector : jstr;
  basePrice : number
}.

Definition STOCKS : list (jstr * stock) := [
  (lit "AAPL", {| name := lit "Apple Inc."; sector := lit "Technology"; basePrice := dec 19850 2 |});
  (lit "MSFT", {| name := lit "Microsoft Corp."; sector := lit "Technology"; basePrice := dec 42880 2 |});
  (lit "GOOGL", {| name := lit "Alphabet Inc."; sector := lit "Technology"; basePrice := dec 17520 2 |});
  (lit "AMZN", {| name := lit "Amazon.com Inc."; sector := lit "Consumer Cyclical"; basePrice := dec 19730 2 |});
  (lit "NVDA", {| name := lit "NVIDIA Corp."; sector := lit "Technology"; basePrice := dec 13540 2 |});
  (lit "TSLA", {| name := lit "Tesla Inc."; sector := lit "Consumer Cyclical"; basePrice := dec 24890 2 |});
  (lit "META", {| name := lit "Meta Platforms Inc."; sector := lit "Technology"; basePrice := dec 52010 2 |});
  (lit "JPM", {| name := lit "JPMorgan Chase & Co."; sector := lit "Financial Services"; basePrice := dec 20560 2 |});
  (lit "V", {| name := lit "Visa Inc."; sector := lit "Financial Services"; basePrice := dec 28540 2 |});
  (lit "JNJ", {| name := lit "Johnson & Johnson"; sector := lit "Healthcare"; basePrice := dec 15680 2 |});
  (lit "WMT", {| name := lit "Walmart Inc."; sector := lit "Consumer Defensive"; basePrice := dec 17230 2 |});
  (lit "PG", {| name := lit "Procter & Gamble Co."; sector := lit "Consumer Defensive"; basePrice := dec 16890 2 |});
  (lit "UNH", {| name := lit "UnitedHealth Group Inc."; sector := lit "Healthcare"; basePrice := dec 53240 2 |});
  (lit "HD", {| name := lit "Home Depot Inc."; sector := lit "Consumer Cyclical"; basePrice := dec 37020 2 |});
  (lit "BAC", {| name := lit "Bank of America Corp."; sector := lit "Financial Services"; basePrice := dec 3980 2 |});
  (lit "DIS", {| name := lit "Walt Disney Co."; sector := lit "Communication Services"; basePrice := dec 11250 2 |});
  (lit "NFLX", {| name := lit "Netflix Inc."; sector := lit "Communication Services"; basePrice := dec 68530 2 |});
  (lit "AMD", {| name := lit "Advanced Micro Devices"; sector := lit "Technology"; basePrice := dec 16270 2 |});
  (lit "CRM", {| name := lit "Salesforce Inc."; sector := lit "Technology"; basePrice := dec 26840 2 |});
  (lit "INTC", {| name := lit "Intel Corp."; sector := lit "Technology"; basePrice := dec 3120 2 |});
  (lit "PYPL", {| name := lit "PayPal Holdings Inc."; sector := lit "Financial Services"; basePrice := dec 7280 2 |});
  (lit "UBER", {| name := lit "Uber Technologies Inc."; sector := lit "Technology"; basePrice := dec 7850 2 |});
  (lit "SQ", {| name := lit "Block Inc."; sector := lit "Technology"; basePrice := dec 8560 2 |});
  (lit "SNAP", {| name := lit "Snap Inc."; sector := lit "Communication Services"; basePrice := dec 1640 2 |});
  (lit "COIN", {| name := lit "Coinbase Global Inc."; sector := lit "Financial Services"; basePrice := dec 25890 2 |})
].

(** The names [Object.prototype] gives to every object literal. *)
Definition Object_prototype_keys : list jstr :=
  [lit "constructor"; lit "__defineGetter__"; lit "__defineSetter__";
   lit "hasOwnProperty"; lit "__lookupGetter__"; lit "__lookupSetter__";
   lit "isPrototypeOf"; lit "propertyIsEnumerable"; lit "toString";
   lit "valueOf"; lit "__proto__"; lit "toLocaleString"].

(** What [STOCKS[key]] can be: an entry, a member of [Object.prototype]
    (a function with its own [name], or the prototype object for
    [__proto__], which has none), or [undefined]. *)
Inductive property :=
| Own (s : stock)
| Inherited (fname : option jstr)
| Undefined.

Fixpoint own_property (key : jstr) (table : list (jstr * stock)) : option stock :=
  match table with
  | [] => None
  | (k, s) :: rest => if eqb k key then Some s else own_property key rest
  end.

Definition inherited_name (key : jstr) : option jstr :=
  if eqb key (lit "constructor") then Some (lit "Object")
  else if eqb key (lit "__proto__") then None
  else Some key.

(** [STOCKS[key]] *)
Definition STOCKS_get (key : jstr) : property :=
  match own_property key STOCKS with
  | Some s => Own s
  | None =>
      if existsb (eqb key) Object_prototype_keys
      then Inherited (inherited_name key) else Undefined
  end.

(** [p.name], [p.sector], [p.basePrice] of a property that is not
    [undefined]; [None] is [undefined]. *)
Definition name_of (p : property) : option jstr :=
  match p with
  | Own s => Some (name s)
  | Inherited f => f
  | Undefined => None
  end.

Definition sector_of (p : property) : option jstr :=
  match p with
  | Own s => Some (sector s)
  | _ => None
  end.

Definition basePrice_of (p : property) : option number :=
  match p with
  | Own s => Some (basePrice s)
  | _ => None
  end.

(** [undefined] in arithmetic is [NaN]. *)
Definition ToNumber (v : option number) : number :=
  match v with
  | Some x => x
  | None => NaN
  end.

(** [s.charCodeAt(0)] *)
Definition charCodeAt0 (s : jstr) : number :=
  match s with
  | c :: _ => num c
  | [] => NaN
  end.

Definition getVariation (seed : number) : number :=
  let x := nmul (Math_sin seed) (num 10000) in
  nsub x (Math_floor x).

(** [Math.round(x * 100) / 100] *)
Definition round2 (x : number) : number :=
  ndiv (Math_round (nmul x (num 100))) (num 100).

(** [now] is what [Date.now()] returns. *)
Definition getStockPrice (now : number) (symbol : jstr) : number :=
  match STOCKS_get symbol with
  | Undefined => num 0
  | stock =>
      let variation := getVariation (nadd (ndiv now (num 60000)) (charCodeAt0 symbol)) in
      let pctChange := nmul (nsub variation (dec 5 1)) (dec 6 2) in
      round2 (nmul (ToNumber (basePrice_of stock)) (nadd (num 1) pctChange))
  end.

(** The object [getStockQuote] returns; [None] in a field is [undefined]. *)
Record StockQuote := {
  q_symbol : jstr;
  q_name : option jstr;
  q_sector : option jstr;
  price : number;
  change : number;
  changePercent : number;
  previousClose : option number;
  open : number;
  dayHigh : number;
  dayLow : number;
  volume : number;
  marketCap : number;
  pe : number;
  eps : number;
  dividendYield : number;
  week52High : number;
  week52Low : number
}.

Inductive quote_result :=
| Null                        (* return null *)
| Quote (q : StockQuote)
| TypeError.                  (* a property read of undefined *)

Definition getStockQuote (now : number) (symbol : jstr) : quote_result :=
  match STOCKS_get (toUpperCase symbol) with
  | Undefined => Null
  | stock =>
      let sym := toUpperCase symbol in
      let price := getStockPrice now sym in
      match STOCKS_get sym with
      | Undefined => TypeError
      | entry =>
          let prevClose := basePrice_of entry in
          let change := round2 (nsub price (ToNumber prevClose)) in
          let changePercent :=
            ndiv (Math_round (nmul (ndiv change (ToNumber prevClose)) (num 10000)))
                 (num 100) in
          let dayVar := getVariation (nadd (ndiv now (num 3600000)) (charCodeAt0 sym)) in
          let volume := Math_round (nmul (nadd (num 5) (nmul dayVar (num 45))) (num 1000000)) in
          let marketCap :=
            Math_round (nmul price (nadd (nmul volume (num 100)) (num 1000000000))) in
          Quote {|
            q_symbol := sym;
            q_name := name_of stock;
            q_sector := sector_of stock;
            price := price;
            change := change;
            changePercent := changePercent;
            previousClose := prevClose;
            open := round2 (nadd (ToNumber prevClose)
                      (nmul (nsub price (ToNumber prevClose)) (dec 3 1)));
            dayHigh := round2 (nmul (Math_max price (ToNumber prevClose)) (dec 1012 3));
            dayLow := round2 (nmul (Math_min price (ToNumber prevClose)) (dec 988 3));
            volume := volume;
            marketCap := marketCap;
            pe := round2 (nadd (num 15) (nmul dayVar (num 30)));
            eps := round2 (ndiv price (nadd (num 15) (nmul dayVar (num 30))));
            dividendYield := round2 (nmul dayVar (num 3));
            week52High := round2 (nmul price (dec 125 2));
            week52Low := round2 (nmul price (dec 72 2))
          |}
      end
  end.

Record MarketIndex := {
  i_name : jstr;
  i_value : number;
  i_change : number;
  i_changePercent : number
}.

Definition getMarketIndices (now : number) : list MarketIndex :=
  let v (k : Z) := getVariation (nadd (ndiv now (num 60000)) (num k)) in
  let half (x : number) := nsub x (dec 5 1) in
  [ {| i_name := lit "S&P 500";
       i_value := round2 (nadd (num 5420)
                    (nmul (half (getVariation (ndiv now (num 60000)))) (num 80)));
       i_change := round2 (nmul (half (v 1)) (num 40));
       i_changePercent := round2 (nmul (half (v 1)) (dec 8 1)) |};
    {| i_name := lit "NASDAQ";
       i_value := round2 (nadd (num 17180) (nmul (half (v 2)) (num 200)));
       i_change := round2 (nmul (half (v 3)) (num 120));
       i_changePercent := round2 (nmul (half (v 3)) (dec 9 1)) |};
    {| i_name := lit "DOW";
       i_value := round2 (nadd (num 39850) (nmul (half (v 4)) (num 300)));
       i_change := round2 (nmul (half (v 5)) (num 200));
       i_changePercent := round2 (nmul (half (v 5)) (dec 6 1)) |} ].

(** [Object.keys(STOCKS)]: the keys in the order they are written. *)
Definition getAllSymbols : list jstr := map fst STOCKS.

(** Strings of ASCII capitals, and strings with an ASCII lower-case letter. *)
Definition capitals (s : jstr) : Prop := Forall (fun c => 65 <= c <= 90) s.

Definition has_lower (s : jstr) : bool :=
  existsb (fun c => (97 <=? c) && (c <=? 122)) s.

End WithPlatform.
End StockData.

(* ================================================================== *)
(** * server/routes.ts: POST /api/chat *)
(* ================================================================== *)

Module Routes.
Import JsString Json StockData.

(** ** The Express response object *)

Record Res := {
  statusCode : Z;
  headers : list (jstr * jstr);
  headersSent : bool;
  written : list jstr;          (* the chunks of [res.write], in order *)
  json_body : option jstr;      (* the body of [res.json] *)
  ended : bool
}.

Definition fresh : Res :=
  {| statusCode := 200; headers := []; headersSent := false;
     written := []; json_body := None; ended := false |}.

Fixpoint set_header (name value : jstr) (hs : list (jstr * jstr)) : list (jstr * jstr) :=
  match hs with
  | [] => [(name, value)]
  | (k, v) :: rest =>
      if eqb k name then (k, value) :: rest else (k, v) :: set_header name value rest
  end.

Definition setHeader (name value : jstr) (res : Res) : Res :=
  {| statusCode := statusCode res; headers := set_header name value (headers res);
     headersSent := headersSent res; written := written res;
     json_body := json_body res; ended := ended res |}.

(** [res.write(chunk)]: the first write sends the headers. *)
Definition write (chunk : jstr) (res : Res) : Res :=
  {| statusCode := statusCode res; headers := headers res;
     headersSent := true; written := written res ++ [chunk];
     json_body := json_body res; ended := ended res |}.

Definition end_ (res : Res) : Res :=
  {| statusCode := statusCode res; headers := headers res;
     headersSent := true; written := written res;
     json_body := json_body res; ended := true |}.

(** [res.get(name)] *)
Fixpoint get_header (name : jstr) (hs : list (jstr * jstr)) : option jstr :=
  match hs with
  | [] => None
  | (k, v) :: rest => if eqb k name then Some v else get_header name rest
  end.

(** [setCharset(type, 'utf-8')] of [res.send], on a media type without
    parameters: the handler sets no other. *)
Definition setCharset (type : jstr) : jstr := type ++ lit "; charset=utf-8".

(** The content type after [res.json]: a type that was set is kept, and
    [application/json] is taken when none was; [res.send] then adds the
    character set of the body it writes. *)
Definition json_content_type (hs : list (jstr * jstr)) : jstr :=
  match get_header (lit "Content-Type") hs with
  | Some type => if nonempty type then setCharset type
                 else setCharset (lit "application/json")
  | None => setCharset (lit "application/json")
  end.

(** [res.status(code).json({ error: message })]: the content type is
    settled as above and the response ends.  Of the headers only those the
    handler sets and the content type are followed; [Content-Length] and
    [ETag], which [res.send] adds, are not. *)
Definition status_json (code : Z) (message : jstr) (res : Res) : Res :=
  {| statusCode := code;
     headers := set_header (lit "Content-Type") (json_content_type (headers res))
                  (headers res);
     headersSent := true; written := written res;
     json_body := Some (stringify_string_property (lit "error") message);
     ended := true |}.

(** ** Frames *)

Inductive StreamEvent :=
| Content (text : jstr)
| Done
| Error (message : jstr).

(** [JSON.stringify] of the object each event is written from. *)
Definition payload (e : StreamEvent) : jstr :=
  match e with
  | Content text => stringify_string_property (lit "content") text
  | Done => stringify_true_property (lit "done")
  | Error message => stringify_string_property (lit "error") message
  end.

(** [`data: ${JSON.stringify(...)}\n\n`] *)
Definition frame (e : StreamEvent) : jstr :=
  lit "data: " ++ payload e ++ [newline; newline].

(** ** The upstream provider *)

Inductive ending :=
| Completes        (* the iterator finishes *)
| Fails.           (* the iterator throws *)

(** What [openai.chat.completions.create] does for one request: the call is
    rejected, or it yields chunks, each with its
    [choices[0]?.delta?.content] ([None] when that is missing or null), and
    then finishes or throws. *)
Inductive provider :=
| Rejects
| Streams (fragments : list (option jstr)) (e : ending).

(** [chunk.choices[0]?.delta?.content || ""] *)
Definition fragment_text (f : option jstr) : jstr :=
  match f with
  | Some s => s
  | None => []
  end.

Record ChatMessage := {
  role : jstr;
  content : jstr
}.

Section WithPlatform.
Context {N : Numbers} {C : Casing}.

(** ** Enrichment *)

Definition mentionedStocks (message : jstr) : list jstr :=
  filter (fun s => includes (toUpperCase message) s) getAllSymbols.

Definition sign_prefix (x : number) : jstr :=
  if nge x (num 0) then lit "+" else [].

Definition quote_line (q : StockQuote) : jstr :=
  q_symbol q ++ lit ": $" ++ Number_toString (price q)
  ++ lit " (" ++ sign_prefix (change q) ++ Number_toString (changePercent q)
  ++ lit "%), Volume: " ++ toFixed (ndiv (volume q) (num 1000000)) 1
  ++ lit "M, P/E: " ++ Number_toString (pe q)
  ++ lit ", Market Cap: $" ++ toFixed (ndiv (marketCap q) (num 1000000000)) 1
  ++ lit "B".

(** [mentionedStocks.map(s => { const q = getStockQuote(s); return q ? ... : '' })]:
    [None] when a call throws. *)
Fixpoint quote_lines (now : number) (symbols : list jstr) : option (list jstr) :=
  match symbols with
  | [] => Some []
  | s :: rest =>
      match getStockQuote now s with
      | TypeError => None
      | r =>
          match quote_lines now rest with
          | None => None
          | Some ls =>
              Some (match r with Quote q => quote_line q | _ => [] end :: ls)
          end
      end
  end.

Definition stockContext (now : number) (message : jstr) : option jstr :=
  match mentionedStocks message with
  | [] => Some []
  | mentioned =>
      match quote_lines now mentioned with
      | None => None
      | Some ls =>
          Some ([newline; newline] ++ lit "Current market data:" ++ [newline]
                ++ join [newline] (filter nonempty ls))
      end
  end.

Definition index_line (i : MarketIndex) : jstr :=
  i_name i ++ lit ": " ++ Number_toString (i_value i)
  ++ lit " (" ++ sign_prefix (i_change i) ++ Number_toString (i_changePercent i)
  ++ lit "%)".

Definition indexContext (now : number) : jstr :=
  join (lit ", ") (map index_line (getMarketIndices now)).

(** The enrichment context: what the template puts between the persona and
    the instructions. *)
Definition context_block (index_ctx stock_ctx : jstr) : jstr :=
  lit "Current market indices: " ++ index_ctx ++ stock_ctx.

Definition persona : jstr :=
  lit "You are StockAI, an expert financial analyst and stock market advisor. You provide insightful analysis of stocks, market trends, and investment strategies.".

Definition instructions : jstr :=
  lit "When analyzing stocks, provide:" ++ [newline]
  ++ lit "1. A brief summary of the stock's current position" ++ [newline]
  ++ lit "2. A clear BUY, HOLD, or SELL recommendation" ++ [newline]
  ++ lit "3. A confidence percentage (e.g., 75%)" ++ [newline]
  ++ lit "4. Risk level (Low, Medium, High)" ++ [newline]
  ++ lit "5. Simple explanation of your reasoning" ++ [newline]
  ++ lit "6. Always include a disclaimer that this is AI-generated analysis, not financial advice"
  ++ [newline; newline]
  ++ lit "Keep responses concise and well-structured. Use bullet points for clarity. Be specific with data points.".

Definition system_content (index_ctx stock_ctx : jstr) : jstr :=
  persona ++ [newline; newline] ++ context_block index_ctx stock_ctx
  ++ [newline; newline] ++ instructions.

Definition build_messages (index_ctx stock_ctx message : jstr)
    (history : list ChatMessage) : list ChatMessage :=
  {| role := lit "system"; content := system_content index_ctx stock_ctx |}
  :: map (fun h => {| role := role h; content := content h |}) history
  ++ [{| role := lit "user"; content := message |}].

(** ** Streaming *)

(** [for await (const chunk of stream) { ... }] over the chunks that arrive. *)
Fixpoint write_fragments (fragments : list (option jstr)) (res : Res) : Res :=
  match fragments with
  | [] => res
  | f :: rest =>
      let content := fragment_text f in
      if nonempty content
      then write_fragments rest (write (frame (Content content)) res)
      else write_fragments rest res
  end.

(** The [catch] branch. *)
Definition on_failure (res : Res) : Res :=
  if headersSent res
  then end_ (write (frame (Error (lit "AI service error"))) res)
  else status_json 500 (lit "Failed to process chat") res.

(** What one request leaves behind: the response, and the message list given
    to the provider if the handler got that far. *)
Record outcome := {
  response : Res;
  upstream : option (list ChatMessage)
}.

(** The response to a request that has passed the checks, before the
    provider is called. *)
Definition prepared : Res :=
  setHeader (lit "Connection") (lit "keep-alive")
    (setHeader (lit "Cache-Control") (lit "no-cache")
       (setHeader (lit "Content-Type") (lit "text/event-stream") fresh)).

(** The handler of [POST /api/chat].  [message] is [None] when the body has
    no such field; [now] is the clock. *)
Definition post_chat (now : number) (message : option jstr)
    (history : list ChatMessage) (p : provider) : outcome :=
  let m := match message with Some s => s | None => [] end in
  if negb (nonempty m)
  then {| response := status_json 400 (lit "Message required") fresh;
          upstream := None |}
  else
    match stockContext now m with
    | None => {| response := on_failure fresh; upstream := None |}
    | Some stock_ctx =>
        let res := prepared in
        let messages := build_messages (indexContext now) stock_ctx m history in
        {| response :=
             match p with
             | Rejects => on_failure res
             | Streams fragments Completes =>
                 end_ (write (frame Done) (write_fragments fragments res))
             | Streams fragments Fails =>
                 on_failure (write_fragments fragments res)
             end;
           upstream := Some messages |}
    end.

(** ** Vocabulary of the properties *)

(** The line of a frame, the text of a sequence of frames, and the events
    whose strings are made of code units. *)
Definition frame_line (e : StreamEvent) : jstr := lit "data: " ++ payload e.

Definition wire (events : list StreamEvent) : jstr :=
  List.concat (map frame events).

Definition event_wf (e : StreamEvent) : Prop :=
  match e with
  | Content text => well_formed text
  | Done => True
  | Error message => well_formed message
  end.

(** A terminal event ends a stream. *)
Definition terminal (e : StreamEvent) : bool :=
  match e with
  | Content _ => false
  | Done | Error _ => true
  end.

Definition is_content (e : StreamEvent) : bool := negb (terminal e).

(** The fragments that are written: the non-empty ones, in order. *)
Definition written_texts (fragments : list (option jstr)) : list jstr :=
  filter nonempty (map fragment_text fragments).

(** The line of one symbol, and the block the lines are put in. *)
Definition summary (now : number) (s : jstr) : jstr :=
  match getStockQuote now s with
  | Quote q => quote_line q
  | _ => []
  end.

Definition stock_block (lines : list jstr) : jstr :=
  match lines with
  | [] => []
  | _ :: _ =>
      [newline; newline] ++ lit "Current market data:" ++ [newline]
      ++ join [newline] lines
  end.

(** The stock lines of a message: one for each symbol it mentions. *)
Definition stock_lines (now : number) (message : jstr) : list jstr :=
  map (summary now) (mentionedStocks message).

(** The events a provider makes the handler write, once the request has
    passed the checks. *)
Definition events_of (p : provider) : list StreamEvent :=
  match p with
  | Rejects => []
  | Streams fragments Completes => map Content (written_texts fragments) ++ [Done]
  | Streams fragments Fails =>
      match written_texts fragments with
      | [] => []
      | texts => map Content texts ++ [Error (lit "AI service error")]
      end
  end.

(** A synchronous rejection: a JSON body with this status, and no frame. *)
Definition rejected (code : Z) (res : Res) : Prop :=
  statusCode res = code /\ written res = [] /\ json_body res <> None.

End WithPlatform.
End Routes.

(* ================================================================== *)
(** * lib/api.ts: streamChat *)
(* ================================================================== *)

Module Api.
Import JsString Json Utf8.

(** The calls [streamChat] makes to its three callbacks, with the argument
    of each.  The callbacks return normally. *)
Inductive callback :=
| OnChunk (text : json)
| OnDone
| OnError (err : json).

Inductive completion :=
| Normal
| Return
| Throw.

(** [if (v) ...]: the value when it is there and truthy. *)
Definition when_truthy (v : option json) : option json :=
  match v with
  | Some x => if truthy x then Some x else None
  | None => None
  end.

(** The three tests on the parsed frame: [done], [error], [content] in that
    order, each by truthiness.  Reading a property of [null] throws. *)
Definition dispatch (data : json) : list callback * completion :=
  match get data (lit "done"), get data (lit "error"), get data (lit "content") with
  | Some d, Some e, Some c =>
      match when_truthy d with
      | Some _ => ([OnDone], Return)
      | None =>
          match when_truthy e with
          | Some err => ([OnError err], Return)
          | None =>
              match when_truthy c with
              | Some text => ([OnChunk text], Normal)
              | None => ([], Normal)
              end
          end
      end
  | _, _, _ => ([], Throw)
  end.

(** The body of the [try]: [JSON.parse] throws on text that is not JSON. *)
Definition try_body (line : jstr) : list callback * completion :=
  match JSON_parse (slice 6 line) with
  | Ok data => dispatch data
  | _ => ([], Throw)
  end.

(** [try { ... } catch {}] *)
Definition try_catch (line : jstr) : list callback * completion :=
  match try_body line with
  | (calls, Throw) => (calls, Normal)
  | r => r
  end.

(** One turn of [for (const line of lines)]. *)
Definition process_line (line : jstr) : list callback * completion :=
  if negb (startsWith line (lit "data: ")) then ([], Normal)
  else try_catch line.

Fixpoint for_lines (lines : list jstr) : list callback * completion :=
  match lines with
  | [] => ([], Normal)
  | line :: rest =>
      match process_line line with
      | (calls, Normal) =>
          let (calls', c) := for_lines rest in (calls ++ calls', c)
      | r => r
      end
  end.

(** [lines.pop()]: the array without its last element, and that element. *)
Definition pop (lines : list jstr) : list jstr * option jstr :=
  match rev lines with
  | [] => ([], None)
  | l :: front => (rev front, Some l)
  end.

(** [x || ''] *)
Definition or_empty (x : option jstr) : jstr :=
  match x with
  | Some s => s
  | None => []
  end.

(** How the body stream stops: [read()] reports [done], or rejects with an
    error that has this [message]. *)
Inductive stream_end :=
| Closed
| Broken (message : jstr).

(** [err.message || 'Network error'] *)
Definition error_text (message : jstr) : json :=
  JStr (if nonempty message then message else lit "Network error").

(** [while (true) { ... }] and the [onDone()] after it: one turn for each
    chunk the reader delivers. *)
Fixpoint read_loop (d : decoder) (buffer : jstr) (chunks : list bytes)
    (fin : stream_end) : list callback :=
  match chunks with
  | [] =>
      match fin with
      | Closed => [OnDone]
      | Broken message => [OnError (error_text message)]
      end
  | value :: rest =>
      let (d', text) := decode d value in
      let (lines, last) := pop (split newline (buffer ++ text)) in
      match for_lines lines with
      | (calls, Normal) => calls ++ read_loop d' (or_empty last) rest fin
      | (calls, _) => calls
      end
  end.

(** What [fetch] gives back. *)
Inductive fetched :=
| Rejected (message : jstr)                              (* fetch throws *)
| Responded (ok : bool) (body : option (list bytes * stream_end)).

Definition streamChat (r : fetched) : list callback :=
  match r with
  | Rejected message => [OnError (error_text message)]
  | Responded false _ => [OnError (JStr (lit "Failed to connect to AI"))]
  | Responded true None => [OnError (JStr (lit "No response body"))]
  | Responded true (Some (chunks, fin)) => read_loop new_decoder [] chunks fin
  end.

(** ** Vocabulary of the properties *)

(** The lines a text has completed: all but the piece after its last
    newline. *)
Definition complete_lines (text : jstr) : list jstr :=
  removelast (split newline text).

(** The call that closes a stream no frame has closed. *)
Definition final (fin : stream_end) : callback :=
  match fin with
  | Closed => OnDone
  | Broken message => OnError (error_text message)
  end.

(** The calls for a list of lines: those of the loop, then [final] unless a
    frame has returned. *)
Definition run_lines (lines : list jstr) (fin : stream_end) : list callback :=
  match for_lines lines with
  | (calls, Normal) => calls ++ [final fin]
  | (calls, _) => calls
  end.

(** What a frame written by the handler is for the caller: the call it
    causes, and whether reading goes on.  An event with an empty string
    causes no call. *)
Definition delivery (e : Routes.StreamEvent) : list callback * completion :=
  match e with
  | Routes.Content text =>
      (if nonempty text then [OnChunk (JStr text)] else [], Normal)
  | Routes.Done => ([OnDone], Return)
  | Routes.Error message =>
      if nonempty message then ([OnError (JStr message)], Return) else ([], Normal)
  end.

Fixpoint deliver (events : list Routes.StreamEvent) : list callback * completion :=
  match events with
  | [] => ([], Normal)
  | e :: rest =>
      match delivery e with
      | (calls, Normal) =>
          let (calls', c) := deliver rest in (calls ++ calls', c)
      | r => r
      end
  end.

(** A line that is a frame with a truthy [done] or [error]. *)
Definition terminal_frame (line : jstr) : bool :=
  startsWith line (lit "data: ") &&
  match JSON_parse (slice 6 line) with
  | Ok (JObj props) =>
      truthy_opt (lookup (lit "done") props) || truthy_opt (lookup (lit "error") props)
  | _ => false
  end.

Definition is_chunk (c : callback) : bool :=
  match c with
  | OnChunk _ => true
  | _ => false
  end.

End Api.

(* ================================================================== *)
(** * The response on its way to the client *)
(* ================================================================== *)

Module Pipeline.
Import JsString Utf8 Routes Api.

(** [res.ok]: a status from 200 to 299. *)
Definition ok (res : Res) : bool :=
  (200 <=? statusCode res) && (statusCode res <=? 299).

(** The text of the body: the JSON document of [res.json], else all that
    was written. *)
Definition body_text (res : Res) : jstr :=
  match json_body res with
  | Some b => b
  | None => List.concat (written res)
  end.

(** The reader delivers the bytes of the body in chunks cut anywhere. *)
Definition carries (res : Res) (chunks : list bytes) : Prop :=
  List.concat chunks = encode (body_text res).

(** What [fetch] gives [streamChat] for a response that was ended. *)
Definition fetch (res : Res) (chunks : list bytes) : fetched :=
  Responded (ok res) (Some (chunks, Closed)).

End Pipeline.

(* ================================================================== *)
(** * A platform to run the definitions on *)
(* ================================================================== *)

Module Platform.
Import JsString.

(** Upper-casing of the ASCII letters, other code units kept: what
    [toUpperCase] does on ASCII text. *)
Definition upper_unit (c : Z) : Z :=
  if (97 <=? c) && (c <=? 122) then c - 32 else c.

Definition ascii_upper (s : jstr) : jstr := map upper_unit s.

(** Numbers as the expressions that compute them; every comparison holds
    and every number prints as [0], so only the shape of a computation is
    kept. *)
Inductive term :=
| TNum (z : Z)
| TDec (m : Z) (k : nat)
| TNaN
| TAdd (a b : term)
| TSub (a b : term)
| TMul (a b : term)
| TDiv (a b : term)
| TSin (a : term)
| TFloor (a : term)
| TRound (a : term)
| TMax (a b : term)
| TMin (a b : term).

#[export] Instance terms : Numbers := {|
  number := term;
  num := TNum;
  dec := TDec;
  NaN := TNaN;
  nadd := TAdd;
  nsub := TSub;
  nmul := TMul;
  ndiv := TDiv;
  nge := fun _ _ => true;
  Math_sin := TSin;
  Math_floor := TFloor;
  Math_round := TRound;
  Math_max := TMax;
  Math_min := TMin;
  Number_toString := fun _ => lit "0";
  toFixed := fun _ _ => lit "0.0"
|}.

#[export, refine] Instance ascii : Casing := {| toUpperCase := ascii_upper |}.
Proof.
  - intros s. unfold ascii_upper. rewrite map_map. apply map_ext. intros c.
    unfold upper_unit.
    destruct ((97 <=? c) && (c <=? 122)) eqn:E; [|now rewrite E].
    apply andb_true_iff in E as [E1 E2]. apply Z.leb_le in E1, E2.
    destruct ((97 <=? c - 32) && (c - 32 <=? 122)) eqn:E'; [|reflexivity].
    apply andb_true_iff in E' as [E3 E4]. apply Z.leb_le in E3, E4. lia.
  - intros s. unfold ascii_upper. apply Forall_map, Forall_forall. intros c _.
    unfold upper_unit.
    destruct ((97 <=? c) && (c <=? 122)) eqn:E.
    + apply andb_true_iff in E as [E1 E2]. apply Z.leb_le in E1, E2. lia.
    + apply andb_false_iff in E as [E|E]; apply Z.leb_gt in E; lia.
  - intros s H. unfold ascii_upper. rewrite <- (map_id s) at 2.
    apply map_ext_Forall. revert H. apply Forall_impl. intros c Hc.
    unfold upper_unit.
    destruct ((97 <=? c) && (c <=? 122)) eqn:E; [|reflexivity].
    apply andb_true_iff in E as [E1 E2]. apply Z.leb_le in E1, E2. lia.
Defined.

End Platform.

(* ================================================================== *)
(** * The scenarios of the specification *)
(* ================================================================== *)

Module Scenario.
Import JsString Utf8 Routes Api Pipeline Platform.

Definition clock : term := TNum 1700000000000.

Definition analyze : jstr := lit "Analyze AAPL".

(** The provider stub: three fragments of text, between them a chunk with
    no content and one with an empty one. *)
Definition fragments : list (option jstr) :=
  [Some (lit "Apple"); None; Some (lit " is"); Some []; Some (lit " strong.")].

Definition completed : Res :=
  response (post_chat clock (Some analyze) [] (Streams fragments Completes)).

Definition failed : Res :=
  response (post_chat clock (Some analyze) [] (Streams [Some (lit "Apple")] Fails)).

(** A reader that cuts a body after 3 and after 40 bytes, and delivers an
    empty chunk in between. *)
Definition cut (res : Res) : list bytes :=
  let b := encode (body_text res) in
  [firstn 3 b; []; firstn 37 (skipn 3 b); skipn 40 b].

(** A body of lines that are not frames, a line that is not JSON, a frame
    without a closing newline. *)
Definition noise : list bytes :=
  [encode (lit ": ping" ++ [newline] ++ lit "data: {oops" ++ [newline]);
   encode (lit "data: " ++ payload (Content (lit "hi")) ++ [newline]);
   encode (frame_line Done)].

End Scenario.

(* ================================================================== *)
(** * More of the platform: white space, AsyncStorage, arrays of strings *)
(* ================================================================== *)

Module Text.
Import JsString.

(** The code units [trim] removes: WhiteSpace and LineTerminator. *)
Definition is_space (c : Z) : bool :=
  ((9 <=? c) && (c <=? 13)) || (c =? 32) || (c =? 160) || (c =? 5760)
  || ((8192 <=? c) && (c <=? 8202)) || (c =? 8232) || (c =? 8233)
  || (c =? 8239) || (c =? 8287) || (c =? 12288) || (c =? 65279).

Fixpoint trimStart (s : jstr) : jstr :=
  match s with
  | c :: r => if is_space c then trimStart r else s
  | [] => []
  end.

Definition trimEnd (s : jstr) : jstr := rev (trimStart (rev s)).

(** [s.trim()] *)
Definition trim (s : jstr) : jstr := trimEnd (trimStart s).

End Text.

(** [AsyncStorage]: the value last set for each key. *)
Module AsyncStorage.
Import JsString.

Definition storage := list (jstr * jstr).

(** [getItem(key)]: [None] is [null]. *)
Fixpoint getItem (key : jstr) (st : storage) : option jstr :=
  match st with
  | [] => None
  | (k, v) :: rest => if eqb k key then Some v else getItem key rest
  end.

Fixpoint removeItem (key : jstr) (st : storage) : storage :=
  match st with
  | [] => []
  | (k, v) :: rest =>
      if eqb k key then removeItem key rest else (k, v) :: removeItem key rest
  end.

Definition setItem (key value : jstr) (st : storage) : storage :=
  (key, value) :: removeItem key st.

End AsyncStorage.

(** [JSON.stringify] of an array. *)
Module JsonArray.
Import JsString Json.

(** [JSON.stringify(items)] when [texts] are the texts of the items. *)
Definition stringify_items (texts : list jstr) : jstr :=
  lit "[" ++ join (lit ",") texts ++ lit "]".

(** [JSON.stringify(strings)] for an array of strings. *)
Definition stringify_strings (strings : list jstr) : jstr :=
  stringify_items (map QuoteJSONString strings).

End JsonArray.

(** [JSON.stringify] of a number: the digits of a finite number, [null]
    for the others. *)
Class NumberJson {N : Numbers} := {
  JSON_number : number -> JsString.jstr
}.

(* ================================================================== *)
(** * contexts/PortfolioContext.tsx *)
(* ================================================================== *)

Module Portfolio.
Import JsString Json AsyncStorage JsonArray.

Section WithPlatform.
Context {N : Numbers} {J : NumberJson}.

Record PortfolioItem := {
  symbol : jstr;
  name : jstr;
  quantity : number;
  buyPrice : number;
  addedAt : jstr
}.

(** The two pieces of state of the provider, and the storage they are
    written to. *)
Record state := {
  holdings : list PortfolioItem;
  watchlist : list jstr;
  store : storage
}.

Definition holdings_key : jstr := lit "portfolio_holdings".
Definition watchlist_key : jstr := lit "portfolio_watchlist".

Definition member (key value : jstr) : jstr :=
  QuoteJSONString key ++ lit ":" ++ value.

(** [JSON.stringify(item)] *)
Definition stringify_item (h : PortfolioItem) : jstr :=
  lit "{"
  ++ join (lit ",")
       [member (lit "symbol") (QuoteJSONString (symbol h));
        member (lit "name") (QuoteJSONString (name h));
        member (lit "quantity") (JSON_number (quantity h));
        member (lit "buyPrice") (JSON_number (buyPrice h));
        member (lit "addedAt") (QuoteJSONString (addedAt h))]
  ++ lit "}".

Definition stringify_holdings (hs : list PortfolioItem) : jstr :=
  stringify_items (map stringify_item hs).

Definition set_holdings (next : list PortfolioItem) (st : state) : state :=
  {| holdings := next; watchlist := watchlist st;
     store := setItem holdings_key (stringify_holdings next) (store st) |}.

Definition set_watchlist (next : list jstr) (st : state) : state :=
  {| holdings := holdings st; watchlist := next;
     store := setItem watchlist_key (stringify_strings next) (store st) |}.

(** [h.symbol !== symbol] *)
Definition other_symbol (sym : jstr) (h : PortfolioItem) : bool :=
  negb (eqb (symbol h) sym).

Definition addHolding (item : PortfolioItem) (st : state) : state :=
  set_holdings (filter (other_symbol (symbol item)) (holdings st) ++ [item]) st.

Definition removeHolding (sym : jstr) (st : state) : state :=
  set_holdings (filter (other_symbol sym) (holdings st)) st.

(** [list.includes(symbol)] *)
Definition isInWatchlist (sym : jstr) (st : state) : bool :=
  existsb (eqb sym) (watchlist st).

(** When the symbol is there already the updater returns [prev] and
    nothing is written. *)
Definition addToWatchlist (sym : jstr) (st : state) : state :=
  if existsb (eqb sym) (watchlist st) then st
  else set_watchlist (watchlist st ++ [sym]) st.

Definition removeFromWatchlist (sym : jstr) (st : state) : state :=
  set_watchlist (filter (fun s => negb (eqb s sym)) (watchlist st)) st.

(** The effect that runs once when the provider mounts: both items are
    read, then each one that is not empty is parsed and set, the holdings
    first.  A text that is not JSON makes [JSON.parse] throw, and the rest
    of the effect does not run. *)
Record restored := {
  restored_holdings : option json;     (* the argument of [setHoldings] *)
  restored_watchlist : option json     (* the argument of [setWatchlist] *)
}.

Definition truthy_item (x : option jstr) : option jstr :=
  match x with
  | Some s => if nonempty s then Some s else None
  | None => None
  end.

Definition restore (st : storage) : restored :=
  let h := getItem holdings_key st in
  let w := getItem watchlist_key st in
  let parse_watchlist :=
    match truthy_item w with
    | Some text =>
        match JSON_parse text with
        | Ok v => Some v
        | _ => None
        end
    | None => None
    end in
  match truthy_item h with
  | Some text =>
      match JSON_parse text with
      | Ok v => {| restored_holdings := Some v; restored_watchlist := parse_watchlist |}
      | _ => {| restored_holdings := None; restored_watchlist := None |}
      end
  | None => {| restored_holdings := None; restored_watchlist := parse_watchlist |}
  end.

(** The array of strings as the value [JSON.parse] builds. *)
Definition strings_value (l : list jstr) : json := JArr (map JStr l).

(** The holding of a symbol: the first one in the list. *)
Definition find_holding (sym : jstr) (hs : list PortfolioItem) : option PortfolioItem :=
  find (fun h => eqb (symbol h) sym) hs.

(** The stored watchlist is the text of the watchlist in the state; before
    the first write there is none and the watchlist is empty. *)
Definition watchlist_synced (st : state) : Prop :=
  match getItem watchlist_key (store st) with
  | Some text => text = stringify_strings (watchlist st)
  | None => watchlist st = []
  end.

(** The symbols of the holdings are distinct: the list screen uses the
    symbol as the key of a row. *)
Definition distinct_symbols (hs : list PortfolioItem) : Prop :=
  NoDup (map symbol hs).

End WithPlatform.
End Portfolio.

(* ================================================================== *)
(** * contexts/ThemeContext.tsx *)
(* ================================================================== *)

Module Theme.
Import JsString AsyncStorage.

Inductive ThemeMode :=
| dark
| light.

Definition mode_text (m : ThemeMode) : jstr :=
  match m with
  | dark => lit "dark"
  | light => lit "light"
  end.

Record state := {
  mode : ThemeMode;
  store : storage
}.

Definition theme_key : jstr := lit "theme_mode".

(** [useState('dark')] *)
Definition initial (st : storage) : state := {| mode := dark; store := st |}.

(** The effect that runs once when the provider mounts: only the two
    names of a mode are taken from the storage. *)
Definition restore (s : state) : state :=
  match getItem theme_key (store s) with
  | Some saved =>
      if eqb saved (lit "light") then {| mode := light; store := store s |}
      else if eqb saved (lit "dark") then {| mode := dark; store := store s |}
      else s
  | None => s
  end.

Definition toggleTheme (s : state) : state :=
  let next := match mode s with dark => light | light => dark end in
  {| mode := next; store := setItem theme_key (mode_text next) (store s) |}.

Definition setTheme (m : ThemeMode) (s : state) : state :=
  {| mode := m; store := setItem theme_key (mode_text m) (store s) |}.

(** [isDark: mode === 'dark'] *)
Definition isDark (s : state) : bool :=
  match mode s with
  | dark => true
  | light => false
  end.

End Theme.

From Stdlib Require Import Permutation Sorted.

(* ================================================================== *)
(** * app/stock/[symbol].tsx: the watchlist button *)
(* ================================================================== *)

Module StockScreen.
Import JsString Portfolio.

Section WithPlatform.
Context {N : Numbers} {J : NumberJson}.

(** [if (inWatch) removeFromWatchlist(symbol) else addToWatchlist(symbol)] *)
Definition toggleWatchlist (sym : jstr) (st : state) : state :=
  if isInWatchlist sym st then removeFromWatchlist sym st
  else addToWatchlist sym st.

End WithPlatform.
End StockScreen.

(* ================================================================== *)
(** * The portfolio screen: handleAdd *)
(* ================================================================== *)

(** [parseInt], [parseFloat] and [isNaN]. *)
Class Parsing {N : Numbers} := {
  parseInt : JsString.jstr -> number;
  parseFloat : JsString.jstr -> number;
  isNaN : number -> bool
}.

Module PortfolioScreen.
Import JsString Text Portfolio.

Section WithPlatform.
Context {N : Numbers} {J : NumberJson} {C : Casing} {R : Parsing}.

(** The fields of the dialog. *)
Record form := {
  showAdd : bool;
  addSymbol : jstr;
  addQty : jstr;
  addPrice : jstr
}.

(** [addSymbol.toUpperCase().trim()] *)
Definition entered_symbol (f : form) : jstr := trim (toUpperCase (addSymbol f)).

(** The test before the alert. *)
Definition invalid (f : form) : bool :=
  negb (nonempty (entered_symbol f))
  || isNaN (parseInt (addQty f)) || nge (num 0) (parseInt (addQty f))
  || isNaN (parseFloat (addPrice f)) || nge (num 0) (parseFloat (addPrice f)).

(** [handleAdd]: [quote_name] is the name of the quote when the request
    for it succeeds, [today] what [toISOString] returns.  The result says
    whether the alert was shown. *)
Definition handleAdd (quote_name : option jstr) (today : jstr) (f : form)
    (st : state) : form * state * bool :=
  if invalid f then (f, st, true)
  else
    let sym := entered_symbol f in
    let name := match quote_name with Some n => n | None => sym end in
    ({| showAdd := false; addSymbol := []; addQty := []; addPrice := [] |},
     addHolding {| symbol := sym; name := name;
                   quantity := parseInt (addQty f);
                   buyPrice := parseFloat (addPrice f);
                   addedAt := today |} st,
     false).

(** ** Vocabulary of the properties *)

(** A symbol as the dialog stores it: not empty, no small letter, no white
    space at either end. *)
Definition tidy (s : jstr) : Prop :=
  nonempty s = true /\
  Forall (fun c => ~ (97 <= c <= 122)) s /\
  (forall c r, s = c :: r -> is_space c = false) /\
  (forall c r, s = r ++ [c] -> is_space c = false).

End WithPlatform.
End PortfolioScreen.

(* ================================================================== *)
(** * app/login.tsx and app/signup.tsx: the two forms *)
(* ================================================================== *)

Module AuthScreens.
Import JsString Text.

(** What [login] and [signup] of the auth context resolve to; [None] is a
    missing [error]. *)
Record answer := {
  success : bool;
  error : option jstr
}.

(** What a handler leaves behind: the error shown, the arguments of the
    call to the auth context if it was made, and whether the router went
    to the tabs. *)
Record outcome := {
  shown : jstr;
  called : option (list jstr);
  entered : bool
}.

(** [result.error || fallback] *)
Definition error_or (fallback : jstr) (e : option jstr) : jstr :=
  match e with
  | Some s => if nonempty s then s else fallback
  | None => fallback
  end.

Definition settle (fallback : jstr) (args : list jstr) (result : answer) : outcome :=
  if success result
  then {| shown := []; called := Some args; entered := true |}
  else {| shown := error_or fallback (error result); called := Some args;
          entered := false |}.

Definition refuse (message : jstr) : outcome :=
  {| shown := message; called := None; entered := false |}.

Definition handleLogin (email password : jstr) (login : jstr -> jstr -> answer)
    : outcome :=
  if negb (nonempty (trim email)) || negb (nonempty (trim password))
  then refuse (lit "Please fill in all fields")
  else settle (lit "Login failed") [trim email; password]
         (login (trim email) password).

Definition handleSignup (name email password confirm : jstr)
    (signup : jstr -> jstr -> jstr -> answer) : outcome :=
  if negb (nonempty (trim name)) || negb (nonempty (trim email))
     || negb (nonempty password) || negb (nonempty confirm)
  then refuse (lit "Please fill in all fields")
  else if (List.length password <? 6)%nat
  then refuse (lit "Password must be at least 6 characters")
  else if negb (eqb password confirm)
  then refuse (lit "Passwords do not match")
  else settle (lit "Signup failed") [trim name; trim email; password]
         (signup (trim name) (trim email) password).

(** ** Vocabulary of the properties *)

(** A text of white space only. *)
Definition blank_text (s : jstr) : bool := forallb is_space s.

End AuthScreens.

(* ================================================================== *)
(** * server/stockData.ts: the lists of quotes *)
(* ================================================================== *)

(** [String.prototype.toLowerCase] *)
Class Lowering := {
  toLowerCase : JsString.jstr -> JsString.jstr
}.

(** [Math.abs], and [x > y] on numbers. *)
Class Ordering {N : Numbers} := {
  Math_abs : number -> number;
  ngt : number -> number -> bool
}.

Module StockLists.
Import JsString StockData.

Section WithPlatform.
Context {N : Numbers} {C : Casing} {L : Lowering} {O : Ordering}.

(** [symbols.map(s => getStockQuote(s)!)]: the assertion is erased when
    the code is compiled, so a [null] stays in the array ([None] in the
    list); the whole is [None] when a call throws. *)
Fixpoint map_quotes (now : number) (symbols : list jstr)
    : option (list (option StockQuote)) :=
  match symbols with
  | [] => Some []
  | s :: rest =>
      match getStockQuote now s with
      | TypeError => None
      | r =>
          match map_quotes now rest with
          | None => None
          | Some qs =>
              Some (match r with Quote q => Some q | _ => None end :: qs)
          end
      end
  end.

(** The test of the filter of [searchStocks] on one entry of the table. *)
Definition matches (q : jstr) (entry : jstr * stock) : bool :=
  includes (toLowerCase (fst entry)) q
  || includes (toLowerCase (name (snd entry))) q.

Definition searchStocks (now : number) (query : jstr)
    : option (list (option StockQuote)) :=
  let q := toLowerCase query in
  match map_quotes now (map fst (filter (matches q) STOCKS)) with
  | Some qs => Some (firstn 10 qs)
  | None => None
  end.

Definition trending : list jstr :=
  [lit "AAPL"; lit "NVDA"; lit "TSLA"; lit "MSFT"; lit "AMZN"; lit "META";
   lit "GOOGL"; lit "NFLX"].

Definition getTrendingStocks (now : number) : option (list (option StockQuote)) :=
  map_quotes now trending.

(** [Math.abs(b.changePercent) - Math.abs(a.changePercent)] *)
Definition compare (a b : StockQuote) : number :=
  nsub (Math_abs (changePercent b)) (Math_abs (changePercent a)).

(** [Array.prototype.sort] is stable: an element goes behind those the
    comparison puts strictly before it, and stays in front of the others.
    For a comparison that is consistent this is the order every engine
    gives. *)
Fixpoint insert (x : StockQuote) (l : list StockQuote) : list StockQuote :=
  match l with
  | [] => [x]
  | y :: r =>
      if ngt (compare x y) (num 0) then y :: insert x r else x :: y :: r
  end.

Definition sort (l : list StockQuote) : list StockQuote :=
  fold_right insert [] l.

(** The comparison reads [changePercent] of each element of an array of
    two or more: a [null] among them makes it throw. *)
Fixpoint all_quotes (qs : list (option StockQuote)) : option (list StockQuote) :=
  match qs with
  | [] => Some []
  | Some q :: rest =>
      match all_quotes rest with
      | Some l => Some (q :: l)
      | None => None
      end
  | None :: _ => None
  end.

Definition getTopMovers (now : number) : option (list StockQuote) :=
  match map_quotes now getAllSymbols with
  | None => None
  | Some qs =>
      match all_quotes qs with
      | None => None
      | Some l => Some (firstn 6 (sort l))
      end
  end.

(** ** Vocabulary of the properties *)

(** The quote of a symbol of the table. *)
Definition quote_of (now : number) (s : jstr) : option StockQuote :=
  match getStockQuote now s with
  | Quote q => Some q
  | _ => None
  end.

(** The quotes of all the symbols of the table, in its order. *)
Definition table_quotes (now : number) : list StockQuote :=
  flat_map (fun s => match quote_of now s with
                     | Some q => [q]
                     | None => []
                     end) getAllSymbols.

(** [b] does not come strictly before [a]. *)
Definition not_after (a b : StockQuote) : Prop :=
  ngt (compare a b) (num 0) = false.

End WithPlatform.
End StockLists.

(* ================================================================== *)
(** * app/(tabs)/chat.tsx: sendMessage *)
(* ================================================================== *)

(** [s + v] for a string [s]: the concatenation when [v] is a string. *)
Class Plus := {
  string_plus : JsString.jstr -> Json.json -> JsString.jstr;
  string_plus_text : forall s t, string_plus s (Json.JStr t) = s ++ t
}.

Module ChatScreen.
Import JsString Json Text Api.

Section WithPlatform.
Context {P : Plus}.

Inductive Role :=
| user
| assistant.

Definition role_text (r : Role) : jstr :=
  match r with
  | user => lit "user"
  | assistant => lit "assistant"
  end.

Record DisplayMessage := {
  id : jstr;
  role : Role;
  content : jstr
}.

Record state := {
  messages : list DisplayMessage;
  input : jstr;
  isStreaming : bool
}.

Definition apology : jstr :=
  lit "Sorry, I encountered an error. Please try again.".

(** [prev.map(m => m.id === assistantId ? { ...m, content: f(m.content) } : m)] *)
Definition update (assistantId : jstr) (f : jstr -> jstr)
    (prev : list DisplayMessage) : list DisplayMessage :=
  map (fun m =>
         if eqb (id m) assistantId
         then {| id := id m; role := role m; content := f (content m) |}
         else m) prev.

(** What each of the three callbacks given to [streamChat] does to the
    state. *)
Definition call (assistantId : jstr) (s : state) (c : callback) : state :=
  match c with
  | OnChunk chunk =>
      {| messages := update assistantId (fun text => string_plus text chunk) (messages s);
         input := input s; isStreaming := isStreaming s |}
  | OnDone =>
      {| messages := messages s; input := input s; isStreaming := false |}
  | OnError _ =>
      {| messages := update assistantId (fun _ => apology) (messages s);
         input := input s; isStreaming := false |}
  end.

(** The arguments [message] and [history] of [streamChat]. *)
Record request := {
  message : jstr;
  history : list Routes.ChatMessage
}.

(** [sendMessage(text)]: [userId] and [assistantId] are what the two calls
    of [randomUUID] return, [reply] is what [fetch] gives [streamChat].
    The result is the state when [streamChat] has returned, and the
    request if one was made. *)
Definition sendMessage (text userId assistantId : jstr) (reply : fetched)
    (s : state) : state * option request :=
  if negb (nonempty (trim text)) || isStreaming s then (s, None)
  else
    let userMsg := {| id := userId; role := user; content := trim text |} in
    let assistantMsg := {| id := assistantId; role := assistant; content := [] |} in
    let started :=
      {| messages := messages s ++ [userMsg; assistantMsg];
         input := []; isStreaming := true |} in
    let history :=
      map (fun m => {| Routes.role := role_text (role m);
                       Routes.content := content m |}) (messages s)
      ++ [{| Routes.role := lit "user"; Routes.content := trim text |}] in
    (fold_left (call assistantId) (streamChat reply) started,
     Some {| message := trim text; history := removelast history |}).

(** ** Vocabulary of the properties *)

(** No message has this id yet. *)
Definition fresh_id (i : jstr) (s : state) : Prop :=
  ~ In i (map id (messages s)).

(** The messages of the screen as the messages of a request. *)
Definition transcript (s : state) : list Routes.ChatMessage :=
  map (fun m => {| Routes.role := role_text (role m);
                   Routes.content := content m |}) (messages s).

(** The text the chunks add to the answer. *)
Fixpoint appended (answer : jstr) (calls : list callback) : jstr :=
  match calls with
  | OnChunk chunk :: rest => appended (string_plus answer chunk) rest
  | _ :: rest => appended answer rest
  | [] => answer
  end.

(** What the terminal call leaves of the answer. *)
Definition settled (answer : jstr) (t : callback) : jstr :=
  match t with
  | OnError _ => apology
  | _ => answer
  end.

End WithPlatform.
End ChatScreen.

(* ================================================================== *)
(** * More of the platform to run the definitions on *)
(* ================================================================== *)

Module Platform2.
Import JsString Json Platform.

(** Every number is written [0], as [Number_toString] of [terms] has it. *)
#[export] Instance terms_json : NumberJson (N := terms) := {|
  JSON_number := fun _ => lit "0"
|}.

Definition lower_unit (c : Z) : Z :=
  if (65 <=? c) && (c <=? 90) then c + 32 else c.

#[export] Instance ascii_lower : Lowering := {|
  toLowerCase := map lower_unit
|}.

(** The integer a term stands for when [sin] is taken as 0, a decimal as
    its digits, and rounding as the identity. *)
Fixpoint eval (t : term) : Z :=
  match t with
  | TNum z => z
  | TDec m _ => m
  | TNaN => 0
  | TAdd a b => eval a + eval b
  | TSub a b => eval a - eval b
  | TMul a b => eval a * eval b
  | TDiv a b => eval a / eval b
  | TSin _ => 0
  | TFloor a => eval a
  | TRound a => eval a
  | TMax a b => Z.max (eval a) (eval b)
  | TMin a b => Z.min (eval a) (eval b)
  end.

#[export] Instance terms_order : Ordering (N := terms) := {|
  Math_abs := fun a => TMax a (TSub (TNum 0) a);
  ngt := fun a b => eval b <? eval a
|}.

(** The terms again, now compared by the integers they stand for. *)
Definition compared : Numbers := {|
  number := term;
  num := TNum;
  dec := TDec;
  NaN := TNaN;
  nadd := TAdd;
  nsub := TSub;
  nmul := TMul;
  ndiv := TDiv;
  nge := fun a b => eval b <=? eval a;
  Math_sin := TSin;
  Math_floor := TFloor;
  Math_round := TRound;
  Math_max := TMax;
  Math_min := TMin;
  Number_toString := fun _ => lit "0";
  toFixed := fun _ _ => lit "0.0"
|}.

Definition compared_json : NumberJson (N := compared) :=
  Build_NumberJson compared (fun _ => lit "0").

(** A field is read as its leading digits, and is not a number when it
    has none. *)
Definition leading_digits (s : jstr) : term :=
  match Json.digits s 0 0 with
  | (_, 0, _) => TNaN
  | (v, _, _) => TNum v
  end.

Definition digits_parsing : Parsing (N := compared) :=
  Build_Parsing compared leading_digits leading_digits
    (fun t => match t with TNaN => true | _ => false end).

(** Only strings are appended; another value adds nothing. *)
#[export, refine] Instance strings_only : Plus := {|
  string_plus := fun s v => match v with JStr t => s ++ t | _ => s end
|}.
Proof. reflexivity. Defined.

End Platform2.

(* ================================================================== *)
(** * More scenarios *)
(* ================================================================== *)

Module Scenario2.
Import JsString Platform Platform2.

(** The chat screen when it opens, and what the user types. *)
Definition opened : ChatScreen.state :=
  {| ChatScreen.messages := []; ChatScreen.input := [];
     ChatScreen.isStreaming := false |}.

Definition typed : jstr := lit "  Analyze AAPL ".

(** A provider of the portfolio that has just mounted on an empty
    storage, and a holding to add. *)
Definition mounted {N : Numbers} : Portfolio.state :=
  {| Portfolio.holdings := []; Portfolio.watchlist := []; Portfolio.store := [] |}.

Definition apple : Portfolio.PortfolioItem :=
  {| Portfolio.symbol := lit "AAPL"; Portfolio.name := lit "Apple Inc.";
     Portfolio.quantity := TNum 2; Portfolio.buyPrice := TDec 19850 2;
     Portfolio.addedAt := lit "2024-01-01T00:00:00.000Z" |}.

(** The dialog of the portfolio screen, filled in. *)
Definition filled : PortfolioScreen.form :=
  {| PortfolioScreen.showAdd := true; PortfolioScreen.addSymbol := lit " aapl ";
     PortfolioScreen.addQty := lit "2"; PortfolioScreen.addPrice := lit "198.5" |}.

(** A password of six spaces, and an auth context that accepts every
    call. *)
Definition spaces : jstr := lit "      ".

Definition accepting : AuthScreens.answer :=
  {| AuthScreens.success := true; AuthScreens.error := None |}.

(** A storage with a theme no version of the application has written. *)
Definition sepia : Theme.state :=
  {| Theme.mode := Theme.light;
     Theme.store := [(Theme.theme_key, lit "sepia")] |}.

End Scenario2.

(* ================================================================== *)
(** * More of the platform: objects and [JSON.stringify] *)
(* ================================================================== *)

(** [JSON.stringify] of a number. *)
Class JsonNumbers := {
  jnumber_text : Json.jnumber -> JsString.jstr
}.

(** The SHA-256 digest of a string, in hexadecimal. *)
Class Hashing := {
  sha256 : JsString.jstr -> JsString.jstr
}.

Module JsObject.
Import JsString Json.

Definition digits_value (k : jstr) : Z :=
  fold_left (fun a c => a * 10 + (c - 48)) k 0.

(** The array index a key is: a canonical numeric string below
    [2 ^ 32 - 1]. *)
Definition index_value (k : jstr) : option Z :=
  match k with
  | [] => None
  | c :: r =>
      if negb (forallb is_digit k) then None
      else if (c =? 48) && nonempty r then None
      else if 4294967294 <? digits_value k then None
      else Some (digits_value k)
  end.

Definition is_index (e : jstr * json) : bool :=
  match index_value (fst e) with
  | Some _ => true
  | None => false
  end.

(** [o[k] = v] on the own properties, in the order of their creation: a
    property that exists keeps its place. *)
Fixpoint put (k : jstr) (v : json) (o : list (jstr * json)) : list (jstr * json) :=
  match o with
  | [] => [(k, v)]
  | (k', v') :: r => if eqb k' k then (k', v) :: r else (k', v') :: put k v r
  end.

(** The object [JSON.parse] creates from the members of a text. *)
Definition created (props : list (jstr * json)) : list (jstr * json) :=
  fold_left (fun o e => put (fst e) (snd e) o) props [].

Fixpoint insert_index (i : Z) (e : jstr * json) (l : list (Z * (jstr * json)))
    : list (Z * (jstr * json)) :=
  match l with
  | [] => [(i, e)]
  | (j, e') :: r =>
      if j <? i then (j, e') :: insert_index i e r else (i, e) :: l
  end.

Definition indexed (o : list (jstr * json)) : list (Z * (jstr * json)) :=
  fold_right (fun e acc =>
                match index_value (fst e) with
                | Some i => insert_index i e acc
                | None => acc
                end) [] o.

(** The own properties as they are enumerated: the array indices in
    ascending order, then the other keys in the order of their creation. *)
Definition own_entries (o : list (jstr * json)) : list (jstr * json) :=
  map snd (indexed o) ++ filter (fun e => negb (is_index e)) o.

(** A parsed value with every object in the order of enumeration. *)
Fixpoint normalize (v : json) : json :=
  match v with
  | JArr items => JArr (map normalize items)
  | JObj props =>
      JObj (own_entries (created (map (fun '(k, x) => (k, normalize x)) props)))
  | _ => v
  end.

(** The object whose members are strings. *)
Definition strings_object (fields : list (jstr * jstr)) : json :=
  JObj (map (fun '(k, s) => (k, JStr s)) fields).

Section WithPlatform.
Context {T : JsonNumbers}.

Fixpoint print (v : json) : jstr :=
  match v with
  | JNull => lit "null"
  | JBool true => lit "true"
  | JBool false => lit "false"
  | JNum n => jnumber_text n
  | JStr s => QuoteJSONString s
  | JArr items => lit "[" ++ join (lit ",") (map print items) ++ lit "]"
  | JObj props =>
      lit "{"
      ++ join (lit ",")
           (map (fun '(k, x) => QuoteJSONString k ++ lit ":" ++ print x) props)
      ++ lit "}"
  end.

(** [JSON.stringify(v)] for a value made of what [JSON.parse] returns and
    of object literals. *)
Definition JSON_stringify (v : json) : jstr := print (normalize v).

End WithPlatform.
End JsObject.

(* ================================================================== *)
(** * contexts/AuthContext.tsx *)
(* ================================================================== *)

Module Auth.
Import JsString Json AsyncStorage JsObject AuthScreens.

Section WithPlatform.
Context {T : JsonNumbers} {L : Lowering} {H : Hashing}.

Definition users_key : jstr := lit "registered_users".
Definition user_key : jstr := lit "auth_user".

(** [hashPassword] *)
Definition hashPassword (password : jstr) : jstr :=
  sha256 (password ++ lit "stockai_salt_v1").

(** The state of the provider and the storage.  [user] is [JNull] for
    [null]; a user object is the object of its defined properties, which
    every read of a property, [!!user] and [JSON.stringify] take it for. *)
Record state := {
  user : json;
  isLoading : bool;
  store : storage
}.

Definition initial (st : storage) : state :=
  {| user := JNull; isLoading := true; store := st |}.

(** [isAuthenticated: !!user] *)
Definition isAuthenticated (s : state) : bool := truthy (user s).

(** [if (stored)]: an item that is there and not empty. *)
Definition present (x : option jstr) : option jstr :=
  match x with
  | Some s => if nonempty s then Some s else None
  | None => None
  end.

(** The effect that runs once when the provider mounts. *)
Definition restore (s : state) : state :=
  match present (getItem user_key (store s)) with
  | Some text =>
      match JSON_parse text with
      | Ok v => {| user := v; isLoading := false; store := store s |}
      | _ => {| user := user s; isLoading := false; store := store s |}
      end
  | None => {| user := user s; isLoading := false; store := store s |}
  end.

(** [usersStr ? JSON.parse(usersStr) : {}] *)
Definition registered (st : storage) : result json :=
  match present (getItem users_key st) with
  | Some text => JSON_parse text
  | None => Ok (JObj [])
  end.

(** [users[key]] on an object: an own property, a member of
    [Object.prototype], or [undefined]. *)
Inductive property :=
| Own (v : json)
| Inherited
| Undefined.

Definition users_get (props : list (jstr * json)) (key : jstr) : property :=
  match lookup key props with
  | Some v => Own v
  | None =>
      if existsb (eqb key) StockData.Object_prototype_keys then Inherited
      else Undefined
  end.

(** [if (users[key])] *)
Definition taken (p : property) : bool :=
  match p with
  | Own v => truthy v
  | Inherited => true
  | Undefined => false
  end.

Definition failure (message : jstr) : answer :=
  {| success := false; error := Some message |}.

Definition succeeded : answer := {| success := true; error := None |}.

(** [{ a: x, b: y, ... }] for values that may be [undefined]. *)
Fixpoint literal (members : list (jstr * option json)) : list (jstr * json) :=
  match members with
  | [] => []
  | (k, Some v) :: r => (k, v) :: literal r
  | (_, None) :: r => literal r
  end.

(** [userRecord.key] on a value that is not [null]: only an object has
    the properties read here. *)
Definition field (record : json) (key : jstr) : option json :=
  match record with
  | JObj fields => lookup key fields
  | _ => None
  end.

(** [AsyncStorage.setItem('auth_user', JSON.stringify(u)); setUser(u)] *)
Definition enter (u : json) (s : state) : state :=
  {| user := u; isLoading := isLoading s;
     store := setItem user_key (JSON_stringify u) (store s) |}.

(** [login(email, password)].  The result is [None] when the stored users
    are an array, a string, a number or a boolean: the properties of those
    are not modelled. *)
Definition login (email password : jstr) (s : state) : option (state * answer) :=
  match registered (store s) with
  | Ok (JObj props) =>
      match users_get props (toLowerCase email) with
      | Undefined => Some (s, failure (lit "Account not found"))
      | Inherited => Some (s, failure (lit "Invalid password"))
      | Own record =>
          if negb (truthy record)
          then Some (s, failure (lit "Account not found"))
          else
            match field record (lit "passwordHash") with
            | Some (JStr h) =>
                if eqb (hashPassword password) h
                then
                  let u := JObj (literal [(lit "id", field record (lit "id"));
                                          (lit "email", field record (lit "email"));
                                          (lit "name", field record (lit "name"))]) in
                  Some (enter u s, succeeded)
                else Some (s, failure (lit "Invalid password"))
            | _ => Some (s, failure (lit "Invalid password"))
            end
      end
  | Ok JNull => Some (s, failure (lit "Login failed"))
  | Ok _ => None
  | _ => Some (s, failure (lit "Login failed"))
  end.

(** [signup(name, email, password)]; [id] is what [randomUUID] returns. *)
Definition signup (id name email password : jstr) (s : state)
    : option (state * answer) :=
  match registered (store s) with
  | Ok (JObj props) =>
      let key := toLowerCase email in
      if taken (users_get props key)
      then Some (s, failure (lit "Email already registered"))
      else
        let record :=
          JObj [(lit "id", JStr id); (lit "name", JStr name);
                (lit "email", JStr key);
                (lit "passwordHash", JStr (hashPassword password))] in
        let users := JObj (props ++ [(key, record)]) in
        let saved :=
          {| user := user s; isLoading := isLoading s;
             store := setItem users_key (JSON_stringify users) (store s) |} in
        let u := JObj [(lit "id", JStr id); (lit "email", JStr key);
                       (lit "name", JStr name)] in
        Some (enter u saved, succeeded)
  | Ok JNull => Some (s, failure (lit "Signup failed"))
  | Ok _ => None
  | _ => Some (s, failure (lit "Signup failed"))
  end.

Definition logout (s : state) : state :=
  {| user := JNull; isLoading := isLoading s;
     store := removeItem user_key (store s) |}.

(** ** Vocabulary of the properties *)

(** A record as [signup] writes it, and a table of such records. *)
Definition record_of (id name email hash : jstr) : json :=
  JObj [(lit "id", JStr id); (lit "name", JStr name); (lit "email", JStr email);
        (lit "passwordHash", JStr hash)].

Definition is_record (v : json) : Prop :=
  exists id name email hash,
    v = record_of id name email hash /\
    well_formed id /\ well_formed name /\ well_formed email /\ well_formed hash.

Definition is_table (props : list (jstr * json)) : Prop :=
  Forall (fun e => well_formed (fst e) /\ is_record (snd e)) props.

(** The stored users are what [signup] leaves: nothing, or the text of a
    table. *)
Definition kept (st : storage) : Prop :=
  match getItem users_key st with
  | Some text => exists props, text = print (JObj props) /\ is_table props
  | None => True
  end.

(** The user object of an account. *)
Definition user_of (id name email : jstr) : json :=
  JObj [(lit "id", JStr id); (lit "email", JStr email); (lit "name", JStr name)].

End WithPlatform.
End Auth.

Module Platform3.
Import JsString.

#[export] Instance zeros : JsonNumbers := {|
  jnumber_text := fun _ => lit "0"
|}.

(** A digest that is the text itself: two passwords have the same digest
    only when they are the same. *)
#[export] Instance verbatim : Hashing := {|
  sha256 := fun s => s
|}.

End Platform3.

Module Scenario3.
Import JsString Platform2 Platform3.

(** A fresh installation, and the state after Ann has signed up on it. *)
Definition installed : Auth.state := Auth.initial [].

Definition joined : Auth.state :=
  match Auth.signup (lit "u-1") (lit "Ann") (lit "Ann@Example.com")
          (lit "secret1") installed with
  | Some (s, _) => s
  | None => installed
  end.

End Scenario3.

(* ================================================================== *)
(** * Facts about strings *)
(* ================================================================== *)

Section StringFacts.
Import JsString.

Lemma eqb_eq (a b : jstr) : eqb a b = true <-> a = b.
Proof.
  revert b; induction a as [|x a IH]; intros [|y b]; simpl; split; intro H;
    try reflexivity; try discriminate.
  - apply andb_true_iff in H as [Hx Hr]. apply Z.eqb_eq in Hx.
    apply IH in Hr. congruence.
  - inversion H; subst. rewrite Z.eqb_refl. simpl. now apply IH.
Qed.

Lemma eqb_refl (a : jstr) : eqb a a = true.
Proof. now apply eqb_eq. Qed.

Lemma eqb_neq (a b : jstr) : eqb a b = false <-> a <> b.
Proof.
  split.
  - intros H E. apply eqb_eq in E. congruence.
  - intros H. destruct (eqb a b) eqn:E; [apply eqb_eq in E; contradiction | reflexivity].
Qed.

Lemma startsWith_app (p s : jstr) : startsWith (p ++ s) p = true.
Proof. induction p as [|x p IH]; simpl; [reflexivity|]. now rewrite Z.eqb_refl. Qed.

Lemma startsWith_prefix (s p : jstr) :
  startsWith s p = true <-> exists r, s = p ++ r.
Proof.
  revert s; induction p as [|x p IH]; intros s; simpl.
  - split; [intros _; now exists s | reflexivity].
  - destruct s as [|y s]; simpl.
    + split; [discriminate | intros [r Hr]; discriminate].
    + rewrite andb_true_iff, Z.eqb_eq, IH. split.
      * intros [-> [r ->]]. now exists r.
      * intros [r Hr]. inversion Hr; subst. split; [reflexivity | now exists r].
Qed.

Lemma split_not_nil (sep : Z) (s : jstr) : split sep s <> [].
Proof.
  induction s as [|c r IH]; simpl; [discriminate|].
  destruct (c =? sep); [discriminate|].
  destruct (split sep r); [contradiction | discriminate].
Qed.

(** A line without the separator, then the separator. *)
Lemma split_line (sep : Z) (l r : jstr) :
  ~ In sep l -> split sep (l ++ sep :: r) = l :: split sep r.
Proof.
  induction l as [|c l IH]; simpl; intros Hn.
  - now rewrite Z.eqb_refl.
  - destruct (c =? sep) eqn:E; [apply Z.eqb_eq in E; tauto|].
    rewrite IH by tauto. reflexivity.
Qed.

Lemma split_no_sep (sep : Z) (l : jstr) : ~ In sep l -> split sep l = [l].
Proof.
  induction l as [|c l IH]; simpl; intros Hn; [reflexivity|].
  destruct (c =? sep) eqn:E; [apply Z.eqb_eq in E; tauto|].
  rewrite IH by tauto. reflexivity.
Qed.

(** The lines a text has completed, and the piece after its last
    separator. *)
Lemma split_app (sep : Z) (a b : jstr) :
  split sep (a ++ b) =
  removelast (split sep a) ++ split sep (last (split sep a) [] ++ b).
Proof.
  induction a as [|c a IH]; simpl; [reflexivity|].
  destruct (c =? sep) eqn:E.
  - rewrite IH. pose proof (split_not_nil sep a) as Hn.
    destruct (split sep a) as [|l ls] eqn:Es; [contradiction|]. reflexivity.
  - rewrite IH. pose proof (split_not_nil sep a) as Hn.
    destruct (split sep a) as [|l ls] eqn:Es; [contradiction|].
    destruct ls as [|l' ls'].
    + simpl. rewrite E. reflexivity.
    + reflexivity.
Qed.

Lemma last_split_no_sep (sep : Z) (s : jstr) : ~ In sep (last (split sep s) []).
Proof.
  induction s as [|c r IH]; simpl; [tauto|].
  pose proof (split_not_nil sep r) as Hn.
  destruct (c =? sep) eqn:E.
  - destruct (split sep r); [contradiction | exact IH].
  - destruct (split sep r) as [|l ls]; [contradiction|].
    destruct ls as [|l' ls'].
    + simpl in *. intros [H|H]; [apply Z.eqb_neq in E; congruence | tauto].
    + exact IH.
Qed.

End StringFacts.

(* ================================================================== *)
(** * Facts about the UTF-8 layer *)
(* ================================================================== *)

Section Utf8Facts.
Import JsString Utf8.

(** Comparisons in hypotheses as propositions. *)
Ltac props :=
  repeat match goal with
  | H : _ && _ = true |- _ => apply andb_true_iff in H; destruct H
  | H : _ && _ = false |- _ => apply andb_false_iff in H
  | H : _ || _ = true |- _ => apply orb_true_iff in H
  | H : _ || _ = false |- _ => apply orb_false_iff in H; destruct H
  | H : negb _ = true |- _ => apply negb_true_iff in H
  | H : negb _ = false |- _ => apply negb_false_iff in H
  | H : (_ <=? _) = true |- _ => apply Z.leb_le in H
  | H : (_ <=? _) = false |- _ => apply Z.leb_gt in H
  | H : (_ <? _) = true |- _ => apply Z.ltb_lt in H
  | H : (_ <? _) = false |- _ => apply Z.ltb_ge in H
  | H : (_ =? _) = true |- _ => apply Z.eqb_eq in H
  | H : (_ =? _) = false |- _ => apply Z.eqb_neq in H
  end.

Ltac arith := props; Z.div_mod_to_equations; lia.

Ltac arith' :=
  match goal with
  | |- ?b = false => destruct b eqn:?; [exfalso; arith | reflexivity]
  | |- ?b = true => destruct b eqn:?; [reflexivity | exfalso; arith]
  end.

(** Settle the test of the first conditional of the goal. *)
Ltac branch :=
  match goal with
  | |- context [if ?c then _ else _] =>
      let E := fresh "E" in
      destruct c eqn:E; try (exfalso; clear - E; arith);
      try (exfalso; arith)
  end.

Lemma decode_points_app (d : decoder) (a b : bytes) :
  decode_points d (a ++ b) =
  let (d1, o1) := decode_points d a in
  let (d2, o2) := decode_points d1 b in (d2, o1 ++ o2).
Proof.
  revert d; induction a as [|x a IH]; intros d; simpl.
  - destruct (decode_points d b); reflexivity.
  - destruct (decode_byte d x) as [d1 o1]. rewrite IH.
    destruct (decode_points d1 a) as [d2 o2].
    destruct (decode_points d2 b) as [d3 o3]. now rewrite app_assoc.
Qed.

Lemma serialize_true (cps : list Z) :
  serialize true cps = (true, flat_map utf16 cps).
Proof.
  induction cps as [|cp r IH]; simpl; [reflexivity|]. now rewrite IH.
Qed.

Lemma serialize_app (seen : bool) (a b : list Z) :
  serialize seen (a ++ b) =
  let (s1, t1) := serialize seen a in
  let (s2, t2) := serialize s1 b in (s2, t1 ++ t2).
Proof.
  revert seen; induction a as [|cp a IH]; intros seen; simpl.
  - destruct (serialize seen b); reflexivity.
  - destruct seen.
    + rewrite IH. destruct (serialize true a) as [s1 t1].
      destruct (serialize s1 b) as [s2 t2]. now rewrite app_assoc.
    + destruct (cp =? 65279).
      * apply IH.
      * rewrite IH. destruct (serialize true a) as [s1 t1].
        destruct (serialize s1 b) as [s2 t2]. now rewrite app_assoc.
Qed.

Lemma bom_seen_decode_byte (d : decoder) (b : Z) :
  bom_seen (fst (decode_byte d b)) = bom_seen d.
Proof.
  unfold decode_byte, lead_byte.
  repeat match goal with
  | |- context [if ?c then _ else _] => destruct c
  end; reflexivity.
Qed.

Lemma bom_seen_decode_points (d : decoder) (v : bytes) :
  bom_seen (fst (decode_points d v)) = bom_seen d.
Proof.
  revert d; induction v as [|b r IH]; intros d; simpl; [reflexivity|].
  pose proof (bom_seen_decode_byte d b) as Hb.
  destruct (decode_byte d b) as [d1 o1]. specialize (IH d1).
  destruct (decode_points d1 r) as [d2 o2]. simpl in *. congruence.
Qed.

Lemma decode_points_mark (d : decoder) (seen : bool) (v : bytes) :
  decode_points (mark_bom d seen) v =
  (mark_bom (fst (decode_points d v)) seen, snd (decode_points d v)).
Proof.
  revert d; induction v as [|b r IH]; intros d; simpl; [reflexivity|].
  assert (Hb : decode_byte (mark_bom d seen) b =
               (mark_bom (fst (decode_byte d b)) seen, snd (decode_byte d b))).
  { unfold decode_byte, lead_byte, mark_bom, reset, expect; simpl.
    repeat match goal with
    | |- context [if ?c then _ else _] => destruct c
    end; reflexivity. }
  rewrite Hb. destruct (decode_byte d b) as [d1 o1]. simpl.
  rewrite IH. destruct (decode_points d1 r) as [d2 o2]. reflexivity.
Qed.

(** Decoding in two calls gives the text of one call on the whole. *)
Lemma decode_app (d : decoder) (a b : bytes) :
  decode d (a ++ b) =
  let (d1, t1) := decode d a in
  let (d2, t2) := decode d1 b in (d2, t1 ++ t2).
Proof.
  unfold decode. rewrite decode_points_app.
  pose proof (bom_seen_decode_points d a) as Ha.
  destruct (decode_points d a) as [d1 o1]. simpl in Ha.
  destruct (serialize (bom_seen d1) o1) as [s1 t1] eqn:E1.
  rewrite decode_points_mark.
  pose proof (bom_seen_decode_points d1 b) as Hb.
  destruct (decode_points d1 b) as [d2 o2]. simpl in *.
  rewrite Hb. rewrite serialize_app, E1.
  destruct (serialize s1 o2) as [s2 t2]. reflexivity.
Qed.

Lemma decode_all_concat (d : decoder) (chunks : list bytes) :
  decode_all d chunks = snd (decode d (List.concat chunks)).
Proof.
  revert d; induction chunks as [|v r IH]; intros d; simpl.
  - unfold decode. simpl. reflexivity.
  - rewrite decode_app. destruct (decode d v) as [d1 t1].
    rewrite IH. destruct (decode d1 (List.concat r)). reflexivity.
Qed.

Ltac run_decoder :=
  unfold decode_points, decode_byte, lead_byte, ready, mark_bom, new_decoder,
         reset, expect;
  repeat (cbn [fst snd app code_point bytes_seen bytes_needed lower_boundary
               upper_boundary bom_seen]; branch);
  cbn [fst snd app code_point bytes_seen bytes_needed lower_boundary
       upper_boundary bom_seen].

Lemma decode_points_1 (b : Z) :
  0 <= b <= 127 -> decode_points ready [b] = (ready, [b]).
Proof. intros H. run_decoder. reflexivity. Qed.

Lemma decode_points_2 (b1 b2 : Z) :
  194 <= b1 <= 223 -> 128 <= b2 <= 191 ->
  decode_points ready [b1; b2] = (ready, [b1 mod 32 * 64 + b2 mod 64]).
Proof. intros H1 H2. run_decoder. reflexivity. Qed.

Lemma decode_points_3 (b1 b2 b3 : Z) :
  224 <= b1 <= 239 ->
  (if b1 =? 224 then 160 else 128) <= b2 <= (if b1 =? 237 then 159 else 191) ->
  128 <= b3 <= 191 ->
  decode_points ready [b1; b2; b3] =
  (ready, [(b1 mod 16 * 64 + b2 mod 64) * 64 + b3 mod 64]).
Proof. intros H1 H2 H3. run_decoder; reflexivity. Qed.

Lemma decode_points_4 (b1 b2 b3 b4 : Z) :
  240 <= b1 <= 244 ->
  (if b1 =? 240 then 144 else 128) <= b2 <= (if b1 =? 244 then 143 else 191) ->
  128 <= b3 <= 191 -> 128 <= b4 <= 191 ->
  decode_points ready [b1; b2; b3; b4] =
  (ready, [((b1 mod 8 * 64 + b2 mod 64) * 64 + b3 mod 64) * 64 + b4 mod 64]).
Proof. intros H1 H2 H3 H4. run_decoder; reflexivity. Qed.

Lemma decode_points_encode_cp (cp : Z) :
  scalar cp -> decode_points ready (encode_cp cp) = (ready, [cp]).
Proof.
  intros [Hr Hs]. unfold encode_cp.
  destruct (cp <? 128) eqn:E1; [|destruct (cp <? 2048) eqn:E2;
    [|destruct (cp <? 65536) eqn:E3]]; props.
  - apply decode_points_1. lia.
  - rewrite decode_points_2 by arith. do 3 f_equal. arith.
  - rewrite decode_points_3; [do 3 f_equal; arith | arith | | arith].
    destruct (_ =? 224) eqn:Ea; destruct (_ =? 237) eqn:Eb; arith.
  - rewrite decode_points_4; [do 3 f_equal; arith | arith | | arith | arith].
    destruct (_ =? 240) eqn:Ea; destruct (_ =? 244) eqn:Eb; arith.
Qed.

Lemma decode_encode_cp (cp : Z) :
  scalar cp -> decode ready (encode_cp cp) = (ready, utf16 cp).
Proof.
  intros H. unfold decode. rewrite (decode_points_encode_cp cp H).
  cbn [bom_seen ready mark_bom new_decoder serialize]. now rewrite app_nil_r.
Qed.

Lemma lead_range (c : Z) : is_lead c = true <-> 55296 <= c <= 56319.
Proof. unfold is_lead. rewrite andb_true_iff, !Z.leb_le. tauto. Qed.

Lemma trail_range (c : Z) : is_trail c = true <-> 56320 <= c <= 57343.
Proof. unfold is_trail. rewrite andb_true_iff, !Z.leb_le. tauto. Qed.

Lemma pair_scalar (c d : Z) :
  55296 <= c <= 56319 -> 56320 <= d <= 57343 ->
  scalar (65536 + (c - 55296) * 1024 + (d - 56320)).
Proof. unfold scalar. lia. Qed.

Lemma utf16_pair (c d : Z) :
  55296 <= c <= 56319 -> 56320 <= d <= 57343 ->
  utf16 (65536 + (c - 55296) * 1024 + (d - 56320)) = [c; d].
Proof.
  intros Hc Hd. unfold utf16.
  destruct (_ <? 65536) eqn:E; [apply Z.ltb_lt in E; lia|].
  replace (65536 + (c - 55296) * 1024 + (d - 56320) - 65536)
    with ((d - 56320) + (c - 55296) * 1024) by lia.
  rewrite Z.div_add, Z.mod_add by lia.
  rewrite Z.div_small, Z.mod_small by lia.
  f_equal; [lia | f_equal; lia].
Qed.

Lemma unit_scalar (c : Z) :
  code_unit c -> is_lead c = false -> is_trail c = false -> scalar c.
Proof.
  unfold code_unit, scalar. intros Hc El Et. split; [lia|].
  intros H. destruct (Z_le_gt_dec c 56319).
  - assert (is_lead c = true) by (apply lead_range; lia). congruence.
  - assert (is_trail c = true) by (apply trail_range; lia). congruence.
Qed.

Lemma utf16_unit (c : Z) : code_unit c -> utf16 c = [c].
Proof.
  unfold code_unit, utf16. intros Hc.
  destruct (c <? 65536) eqn:E; [reflexivity | apply Z.ltb_ge in E; lia].
Qed.

Lemma decode_replacement_free (s : jstr) :
  well_formed s -> paired s = true -> decode ready (encode s) = (ready, s).
Proof.
  remember (List.length s) as n eqn:Hn. revert s Hn.
  induction n as [n IH] using (well_founded_induction Wf_nat.lt_wf).
  intros [|c r] Hn Hw Hp; [reflexivity|]. simpl in Hn.
  inversion Hw as [|? ? Hc Hwr]; subst. cbn [encode paired] in *.
  destruct (is_lead c) eqn:El.
  - destruct r as [|d r']; [discriminate|].
    apply andb_true_iff in Hp as [Et Hp]. rewrite Et.
    inversion Hwr as [|? ? Hd Hwr']; subst.
    apply lead_range in El. apply trail_range in Et.
    rewrite decode_app, decode_encode_cp by now apply pair_scalar.
    rewrite (IH (List.length r')); [|simpl; lia|reflexivity|assumption|assumption].
    now rewrite utf16_pair.
  - apply andb_true_iff in Hp as [Et Hp]. apply negb_true_iff in Et. rewrite Et.
    rewrite decode_app, decode_encode_cp by now apply unit_scalar.
    rewrite (IH (List.length r)); [|lia|reflexivity|assumption|assumption].
    now rewrite utf16_unit.
Qed.

(** A stream that opens with an ASCII character is decoded to itself,
    however the reader cuts it. *)
Theorem decode_all_encode (c : Z) (s : jstr) (chunks : list bytes) :
  0 <= c <= 127 -> well_formed s -> paired s = true ->
  List.concat chunks = encode (c :: s) ->
  decode_all new_decoder chunks = c :: s.
Proof.
  intros Hc Hw Hp Hcat. rewrite decode_all_concat, Hcat.
  assert (El : is_lead c = false).
  { destruct (is_lead c) eqn:E; [apply lead_range in E; lia | reflexivity]. }
  assert (Et : is_trail c = false).
  { destruct (is_trail c) eqn:E; [apply trail_range in E; lia | reflexivity]. }
  cbn [encode]. rewrite El, Et.
  assert (Hfirst : decode new_decoder (encode_cp c) = (ready, [c])).
  { unfold encode_cp. destruct (c <? 128) eqn:E; [|apply Z.ltb_ge in E; lia].
    unfold decode, decode_points, decode_byte, lead_byte.
    cbn [bytes_needed new_decoder Z.eqb].
    destruct ((0 <=? c) && (c <=? 127)) eqn:E1;
      [|apply andb_false_iff in E1 as [E1|E1]; apply Z.leb_gt in E1; lia].
    cbn [bom_seen reset new_decoder serialize app].
    destruct (c =? 65279) eqn:E2; [apply Z.eqb_eq in E2; lia|].
    unfold utf16. destruct (c <? 65536) eqn:E3; [|apply Z.ltb_ge in E3; lia].
    reflexivity. }
  rewrite decode_app, Hfirst, decode_replacement_free by assumption. reflexivity.
Qed.

End Utf8Facts.

(* ================================================================== *)
(** * Facts about JSON text *)
(* ================================================================== *)

Section JsonFacts.
Import JsString Json.

Lemma unhex_hex_digit (n : Z) : 0 <= n < 16 -> unhex (hex_digit n) = Some n.
Proof.
  intros H. unfold hex_digit, unhex.
  destruct (n <? 10) eqn:E; [apply Z.ltb_lt in E | apply Z.ltb_ge in E].
  - destruct ((48 <=? 48 + n) && (48 + n <=? 57)) eqn:E1.
    + f_equal; lia.
    + apply andb_false_iff in E1 as [E1|E1]; apply Z.leb_gt in E1; lia.
  - destruct ((48 <=? 87 + n) && (87 + n <=? 57)) eqn:E1.
    + apply andb_true_iff in E1 as [_ E1]. apply Z.leb_le in E1. lia.
    + destruct ((97 <=? 87 + n) && (87 + n <=? 102)) eqn:E2.
      * f_equal; lia.
      * apply andb_false_iff in E2 as [E2|E2]; apply Z.leb_gt in E2; lia.
Qed.

Lemma hex4_unicode_escape (c : Z) :
  code_unit c ->
  hex4 (hex_digit (c / 4096)) (hex_digit ((c / 256) mod 16))
       (hex_digit ((c / 16) mod 16)) (hex_digit (c mod 16)) = Some c.
Proof.
  unfold code_unit. intros H. unfold hex4.
  rewrite !unhex_hex_digit by (Z.div_mod_to_equations; lia).
  f_equal. Z.div_mod_to_equations; lia.
Qed.

Lemma parse_chars_unicode_escape (c : Z) (rest : jstr) :
  code_unit c ->
  parse_chars (unicode_escape c ++ rest) = push c (parse_chars rest).
Proof.
  intros H. unfold unicode_escape. cbn [app parse_chars].
  change (backslash =? dquote) with false.
  change (backslash =? backslash) with true.
  change (117 =? 117) with true. cbn iota.
  now rewrite hex4_unicode_escape.
Qed.

Lemma parse_chars_plain (c : Z) (rest : jstr) :
  c <> dquote -> c <> backslash -> 32 <= c ->
  parse_chars (c :: rest) = push c (parse_chars rest).
Proof.
  intros Hq Hb Hc. cbn [parse_chars].
  destruct (c =? dquote) eqn:E1; [apply Z.eqb_eq in E1; contradiction|].
  destruct (c =? backslash) eqn:E2; [apply Z.eqb_eq in E2; contradiction|].
  destruct (c <? 32) eqn:E3; [apply Z.ltb_lt in E3; lia|]. reflexivity.
Qed.

Lemma parse_chars_quote_unit (c : Z) (rest : jstr) :
  code_unit c ->
  parse_chars (quote_unit c ++ rest) = push c (parse_chars rest).
Proof.
  intros H. unfold quote_unit.
  repeat match goal with
  | |- context [if ?x =? ?k then _ else _] =>
      destruct (x =? k) eqn:?;
      [ match goal with E : (_ =? _) = true |- _ => apply Z.eqb_eq in E; subst end;
        reflexivity |]
  end.
  destruct (c <? 32) eqn:E; [now apply parse_chars_unicode_escape|].
  destruct (is_lead c || is_trail c) eqn:Es;
    [now apply parse_chars_unicode_escape|].
  cbn [app]. apply parse_chars_plain.
  - apply Z.eqb_neq. assumption.
  - apply Z.eqb_neq. assumption.
  - now apply Z.ltb_ge.
Qed.

(** A quoted string is read back as the string that was quoted. *)
Lemma parse_chars_quote_chars (s rest : jstr) :
  well_formed s ->
  parse_chars (quote_chars s ++ dquote :: rest) = Some (s, rest).
Proof.
  remember (List.length s) as n eqn:Hn. revert s Hn.
  induction n as [n IH] using (well_founded_induction Wf_nat.lt_wf).
  intros [|c r] Hn Hw; [reflexivity|]. simpl in Hn.
  inversion Hw as [|? ? Hc Hwr]; subst. cbn [quote_chars].
  destruct (is_lead c) eqn:El.
  - apply lead_range in El.
    destruct r as [|d r'].
    + rewrite parse_chars_unicode_escape by assumption. reflexivity.
    + destruct (is_trail d) eqn:Et.
      * apply trail_range in Et. inversion Hwr as [|? ? Hd Hwr']; subst.
        cbn [app]. unfold dquote, backslash.
        rewrite !parse_chars_plain by (unfold dquote, backslash; lia).
        fold dquote.
        rewrite (IH (List.length r')); [reflexivity|simpl; lia|reflexivity|assumption].
      * rewrite <- app_assoc, parse_chars_unicode_escape by assumption.
        rewrite (IH (List.length (d :: r'))); [reflexivity|simpl; lia|reflexivity|assumption].
  - rewrite <- app_assoc, parse_chars_quote_unit by assumption.
    rewrite (IH (List.length r)); [reflexivity|lia|reflexivity|assumption].
Qed.

(** ** Text that survives the wire *)

Lemma safe_app (a b : jstr) : safe a -> safe b -> safe (a ++ b).
Proof.
  intros Ha Hb. induction Ha; cbn [app]; [assumption | |].
  - now apply safe_unit.
  - now apply safe_pair.
Qed.

Lemma safe_well_formed (s : jstr) : safe s -> well_formed s.
Proof.
  intros H. induction H as [|c r Hc _ _ _ IH|c d r Hc Hd _ IH].
  - constructor.
  - constructor; [unfold code_unit; lia | exact IH].
  - apply lead_range in Hc. apply trail_range in Hd.
    constructor; [unfold code_unit; lia|].
    constructor; [unfold code_unit; lia | exact IH].
Qed.

Lemma safe_paired (s : jstr) : safe s -> paired s = true.
Proof.
  intros H. induction H as [|c r Hc El Et _ IH|c d r Hc Hd _ IH]; cbn [paired].
  - reflexivity.
  - now rewrite El, Et, IH.
  - now rewrite Hc, Hd, IH.
Qed.

Lemma safe_no_newline (s : jstr) : safe s -> ~ In newline s.
Proof.
  unfold newline.
  intros H. induction H as [|c r Hc El Et _ IH|c d r Hc Hd _ IH]; cbn [In].
  - tauto.
  - intros [E|E]; [lia | tauto].
  - apply lead_range in Hc. apply trail_range in Hd.
    intros [E|[E|E]]; [lia | lia | tauto].
Qed.

Lemma paired_app (a b : jstr) :
  paired a = true -> paired b = true -> paired (a ++ b) = true.
Proof.
  remember (List.length a) as n eqn:Hn. revert a Hn.
  induction n as [n IH] using (well_founded_induction Wf_nat.lt_wf).
  intros [|c r] Hn Ha Hb; [assumption|]. simpl in Hn. cbn [app paired] in *.
  destruct (is_lead c).
  - destruct r as [|d r']; [discriminate|]. cbn [app].
    apply andb_true_iff in Ha as [Hd Hr]. rewrite Hd. cbn [andb].
    apply (IH (List.length r')); [simpl in *; lia | reflexivity | assumption | assumption].
  - apply andb_true_iff in Ha as [Hc Hr]. rewrite Hc. cbn [andb].
    apply (IH (List.length r)); [lia | reflexivity | assumption | assumption].
Qed.

Lemma well_formed_app (a b : jstr) :
  well_formed a -> well_formed b -> well_formed (a ++ b).
Proof. unfold well_formed. intros Ha Hb. apply Forall_app. now split. Qed.

Lemma safe_ascii (c : Z) (r : jstr) : 32 <= c <= 127 -> safe r -> safe (c :: r).
Proof.
  intros Hc Hr. apply safe_unit; [lia | | | assumption].
  - destruct (is_lead c) eqn:E; [apply lead_range in E; lia | reflexivity].
  - destruct (is_trail c) eqn:E; [apply trail_range in E; lia | reflexivity].
Qed.

Lemma hex_digit_ascii (n : Z) : 0 <= n < 16 -> 32 <= hex_digit n <= 127.
Proof.
  intros H. unfold hex_digit. destruct (n <? 10) eqn:E;
    [apply Z.ltb_lt in E | apply Z.ltb_ge in E]; lia.
Qed.

Lemma safe_unicode_escape (c : Z) : code_unit c -> safe (unicode_escape c).
Proof.
  unfold code_unit. intros H. unfold unicode_escape, backslash.
  repeat (apply safe_ascii;
          [try lia; apply hex_digit_ascii; Z.div_mod_to_equations; lia|]).
  constructor.
Qed.

Lemma safe_quote_unit (c : Z) : code_unit c -> safe (quote_unit c).
Proof.
  intros H. unfold quote_unit, backslash, dquote.
  repeat match goal with
  | |- context [if ?x =? ?k then _ else _] =>
      destruct (x =? k) eqn:?;
      [ repeat (apply safe_ascii; [lia|]); constructor |]
  end.
  destruct (c <? 32) eqn:E; [now apply safe_unicode_escape|].
  destruct (is_lead c || is_trail c) eqn:Es; [now apply safe_unicode_escape|].
  apply orb_false_iff in Es as [El Et]. apply Z.ltb_ge in E.
  unfold code_unit in H. apply safe_unit; [lia | assumption | assumption | constructor].
Qed.

Lemma safe_quote_chars (s : jstr) : well_formed s -> safe (quote_chars s).
Proof.
  remember (List.length s) as n eqn:Hn. revert s Hn.
  induction n as [n IH] using (well_founded_induction Wf_nat.lt_wf).
  intros [|c r] Hn Hw; [constructor|]. simpl in Hn.
  inversion Hw as [|? ? Hc Hwr]; subst. cbn [quote_chars].
  destruct (is_lead c) eqn:El.
  - destruct r as [|d r']; [now apply safe_unicode_escape|].
    inversion Hwr as [|? ? Hd Hwr']; subst.
    destruct (is_trail d) eqn:Et.
    + apply safe_pair; [assumption | assumption |].
      apply (IH (List.length r')); [simpl; lia | reflexivity | assumption].
    + apply safe_app; [now apply safe_unicode_escape|].
      apply (IH (List.length (d :: r'))); [simpl; lia | reflexivity | assumption].
  - apply safe_app; [now apply safe_quote_unit|].
    apply (IH (List.length r)); [lia | reflexivity | assumption].
Qed.

Lemma safe_QuoteJSONString (s : jstr) : well_formed s -> safe (QuoteJSONString s).
Proof.
  intros H. unfold QuoteJSONString, dquote. apply safe_ascii; [lia|].
  apply safe_app; [now apply safe_quote_chars|].
  apply safe_ascii; [lia | constructor].
Qed.

(** ** Reading back what the handler writes *)

(** Evaluate the comparisons between literals. *)
Ltac literals :=
  unfold dquote, backslash, newline;
  repeat match goal with
  | |- context [Z.eqb ?a ?b] =>
      let v := eval cbv in (Z.eqb a b) in
      match v with
      | true => change (Z.eqb a b) with true
      | false => change (Z.eqb a b) with false
      end
  end;
  cbn iota.

Lemma skip_ws_start (c : Z) (r : jstr) :
  is_ws c = false -> skip_ws (c :: r) = c :: r.
Proof. intros H. cbn [skip_ws]. now rewrite H. Qed.

Lemma parse_string_property (k : nat) (key value rest : jstr) :
  well_formed key -> well_formed value ->
  parse_value (S (S (S k)))
    (lit "{" ++ QuoteJSONString key ++ lit ":" ++ QuoteJSONString value
     ++ lit "}" ++ rest)
  = Ok (JObj [(key, JStr value)], rest).
Proof.
  intros Hk Hv. unfold QuoteJSONString.
  cbn [lit app N_of_ascii N.add N.mul Z.of_N].
  rewrite <- !app_assoc. cbn [app].
  cbn [parse_value]. rewrite skip_ws_start by reflexivity. literals.
  rewrite skip_ws_start by reflexivity. literals.
  cbn [parse_members]. rewrite skip_ws_start by reflexivity. literals.
  fold dquote. rewrite parse_chars_quote_chars by assumption.
  rewrite skip_ws_start by reflexivity. literals.
  cbn [parse_value]. rewrite skip_ws_start by reflexivity. literals.
  cbn [parse_scalar]. literals.
  fold dquote. rewrite parse_chars_quote_chars by assumption.
  rewrite skip_ws_start by reflexivity. literals.
  reflexivity.
Qed.

Lemma JSON_parse_string_property (key value : jstr) :
  well_formed key -> well_formed value ->
  JSON_parse (stringify_string_property key value) = Ok (JObj [(key, JStr value)]).
Proof.
  intros Hk Hv. unfold JSON_parse, stringify_string_property.
  pose proof (parse_string_property) as P.
  assert (Hf : exists k, parse_fuel
     (lit "{" ++ QuoteJSONString key ++ lit ":" ++ QuoteJSONString value ++ lit "}")
     = S (S (S k))).
  { unfold parse_fuel.
    remember (QuoteJSONString key ++ lit ":" ++ QuoteJSONString value ++ lit "}") as tl.
    cbn [lit app List.length]. exists (2 * List.length tl)%nat. lia. }
  destruct Hf as [k Hf]. rewrite Hf.
  rewrite <- (app_nil_r (lit "}")) at 1. rewrite (P k key value [] Hk Hv).
  reflexivity.
Qed.

Lemma JSON_parse_done :
  JSON_parse (stringify_true_property (lit "done")) = Ok (JObj [(lit "done", JBool true)]).
Proof. reflexivity. Qed.

End JsonFacts.

(* ================================================================== *)
(** * [JSON_parse] is total: the fuel it takes is enough *)
(* ================================================================== *)

Section ParserFacts.
Import JsString Json.

Local Abbreviation len := (@List.length Z).

Lemma skip_ws_length (s : jstr) : (len (skip_ws s) <= len s)%nat.
Proof.
  induction s as [|c r IH]; cbn [skip_ws]; [lia|].
  destruct (is_ws c); cbn [List.length]; lia.
Qed.

Lemma skip_ws_cons (s r : jstr) (c : Z) :
  skip_ws s = c :: r -> (len r < len s)%nat.
Proof.
  intros H. pose proof (skip_ws_length s) as L. rewrite H in L.
  cbn [List.length] in L. lia.
Qed.

Lemma push_length (c : Z) (o : option (jstr * jstr)) (str r : jstr) (n : nat) :
  (forall str' r', o = Some (str', r') -> (len r' < n)%nat) ->
  push c o = Some (str, r) -> (len r < n)%nat.
Proof.
  intros H. destruct o as [[str' r']|]; cbn [push]; [|discriminate].
  intros E. inversion E; subst. now apply (H str' r).
Qed.

Lemma parse_chars_length (s str r : jstr) :
  parse_chars s = Some (str, r) -> (len r < len s)%nat.
Proof.
  remember (len s) as n eqn:Hn. revert s str r Hn.
  induction n as [n IH] using (well_founded_induction Wf_nat.lt_wf).
  intros [|c s] str r Hn; cbn [parse_chars]; [discriminate|].
  cbn [List.length] in Hn.
  destruct (c =? dquote).
  { intros E. inversion E; subst. lia. }
  destruct (c =? backslash).
  - destruct s as [|e r1]; [discriminate|].
    destruct (e =? 117).
    + destruct r1 as [|h1 [|h2 [|h3 [|h4 r2]]]]; try discriminate.
      destruct (hex4 h1 h2 h3 h4); [|discriminate].
      apply push_length. intros str' r' E.
      apply (IH (len r2)) in E; [|subst; cbn [List.length]; lia | reflexivity].
      subst. cbn [List.length]. lia.
    + destruct (unescape e); [|discriminate].
      apply push_length. intros str' r' E.
      apply (IH (len r1)) in E; [|subst; cbn [List.length]; lia | reflexivity].
      subst. cbn [List.length]. lia.
  - destruct (c <? 32); [discriminate|].
    apply push_length. intros str' r' E.
    apply (IH (len s)) in E; [|subst; lia | reflexivity].
    subst. lia.
Qed.

Lemma digits_length (s : jstr) :
  forall acc n v n' r, digits s acc n = (v, n', r) -> (len r <= len s)%nat.
Proof.
  induction s as [|c s IH]; intros acc n v n' r; cbn [digits].
  - intros E. inversion E; subst. lia.
  - destruct (is_digit c).
    + intros E. apply IH in E. cbn [List.length]. lia.
    + intros E. inversion E; subst. lia.
Qed.

Lemma parse_exponent_length (s r : jstr) (e : Z) :
  parse_exponent s = Some (e, r) -> (len r <= len s)%nat.
Proof.
  unfold parse_exponent. destruct s as [|c s].
  - intros E. inversion E; subst. lia.
  - destruct ((c =? 101) || (c =? 69)).
    + destruct s as [|x s'].
      * cbn [digits]. cbn. discriminate.
      * destruct (x =? 43).
        { destruct (digits s' 0 0) as [[v n] r2] eqn:D.
          apply digits_length in D. destruct (n =? 0); [discriminate|].
          intros E. inversion E; subst. cbn [List.length]. lia. }
        destruct (x =? 45).
        { destruct (digits s' 0 0) as [[v n] r2] eqn:D.
          apply digits_length in D. destruct (n =? 0); [discriminate|].
          intros E. inversion E; subst. cbn [List.length]. lia. }
        destruct (digits (x :: s') 0 0) as [[v n] r2] eqn:D.
        apply digits_length in D. destruct (n =? 0); [discriminate|].
        intros E. inversion E; subst. cbn [List.length] in *. lia.
    + intros E. inversion E; subst. lia.
Qed.

Lemma parse_fraction_length (m : Z) (s r : jstr) (m' n : Z) :
  parse_fraction m s = Some (m', n, r) -> (len r <= len s)%nat.
Proof.
  unfold parse_fraction. destruct s as [|c s].
  - intros E. inversion E; subst. lia.
  - destruct (c =? 46).
    + destruct (digits s m 0) as [[v k] r2] eqn:D.
      apply digits_length in D. destruct (k =? 0); [discriminate|].
      intros E. inversion E; subst. cbn [List.length]. lia.
    + intros E. inversion E; subst. lia.
Qed.

Lemma parse_integer_length (s r : jstr) (m : Z) :
  parse_integer s = Some (m, r) -> (len r < len s)%nat.
Proof.
  unfold parse_integer. destruct s as [|c r0]; [discriminate|].
  destruct (c =? 48).
  - intros E. inversion E; subst. cbn [List.length]. lia.
  - destruct (is_digit c) eqn:Ed; [|discriminate].
    cbn [digits]. rewrite Ed.
    destruct (digits r0 (0 * 10 + (c - 48)) (0 + 1)) as [[v k] r1] eqn:D.
    apply digits_length in D. intros E. inversion E; subst.
    cbn [List.length]. lia.
Qed.

Lemma parse_unsigned_length (neg : bool) (s r : jstr) (n : jnumber) :
  parse_unsigned neg s = Some (n, r) -> (len r < len s)%nat.
Proof.
  unfold parse_unsigned.
  destruct (parse_integer s) as [[m s2]|] eqn:Ei; [|discriminate].
  apply parse_integer_length in Ei.
  destruct (parse_fraction m s2) as [[[m' nf] s3]|] eqn:Ef; [|discriminate].
  apply parse_fraction_length in Ef.
  destruct (parse_exponent s3) as [[e s4]|] eqn:Ee; [|discriminate].
  apply parse_exponent_length in Ee.
  intros E. inversion E; subst. lia.
Qed.

Lemma parse_number_length (s r : jstr) (n : jnumber) :
  parse_number s = Some (n, r) -> (len r < len s)%nat.
Proof.
  unfold parse_number. destruct s as [|c s0]; [discriminate|].
  destruct (c =? 45).
  - intros E. apply parse_unsigned_length in E. cbn [List.length]. lia.
  - apply parse_unsigned_length.
Qed.

Lemma parse_scalar_fuel (s : jstr) : parse_scalar s <> OutOfFuel.
Proof.
  unfold parse_scalar. destruct s as [|c r]; [discriminate|].
  destruct (c =? dquote).
  { destruct (parse_chars r) as [[? ?]|]; discriminate. }
  destruct ((c =? 45) || is_digit c).
  { destruct (parse_number (c :: r)) as [[? ?]|]; discriminate. }
  repeat match goal with
  | |- context [if ?b then _ else _] => destruct b
  end; discriminate.
Qed.

Lemma parse_scalar_length (s r : jstr) (v : json) :
  parse_scalar s = Ok (v, r) -> (len r < len s)%nat.
Proof.
  unfold parse_scalar. destruct s as [|c s0]; [discriminate|].
  destruct (c =? dquote).
  { destruct (parse_chars s0) as [[str r']|] eqn:E; [|discriminate].
    apply parse_chars_length in E. intros H. inversion H; subst.
    cbn [List.length]. lia. }
  destruct ((c =? 45) || is_digit c).
  { destruct (parse_number (c :: s0)) as [[n r']|] eqn:E; [|discriminate].
    apply parse_number_length in E. intros H. inversion H; subst. exact E. }
  destruct (startsWith (c :: s0) (lit "true")) eqn:E1.
  { apply startsWith_prefix in E1 as [x ->]. intros H. inversion H; subst.
    cbn. lia. }
  destruct (startsWith (c :: s0) (lit "false")) eqn:E2.
  { apply startsWith_prefix in E2 as [x ->]. intros H. inversion H; subst.
    cbn. lia. }
  destruct (startsWith (c :: s0) (lit "null")) eqn:E3.
  { apply startsWith_prefix in E3 as [x ->]. intros H. inversion H; subst.
    cbn. lia. }
  discriminate.
Qed.

(** A call with twice the length of the text as fuel does not run out. *)
Lemma parser_fuel (fuel : nat) :
  (forall s, shorter s (parse_value fuel s) /\
             ((2 * len s + 1 <= fuel)%nat -> fuelled (parse_value fuel s))) /\
  (forall s acc, shorter s (parse_elements fuel s acc) /\
             ((2 * len s + 2 <= fuel)%nat -> fuelled (parse_elements fuel s acc))) /\
  (forall s acc, shorter s (parse_members fuel s acc) /\
             ((2 * len s + 2 <= fuel)%nat -> fuelled (parse_members fuel s acc))).
Proof.
  unfold shorter, fuelled.
  induction fuel as [|f [IHv [IHe IHm]]].
  { repeat split; intros; try discriminate; cbn [List.length] in *; lia. }
  split; [|split].
  - (* parse_value *)
    intros s. cbn [parse_value].
    destruct (skip_ws s) as [|c r0] eqn:Es.
    { split; intros; discriminate. }
    pose proof (skip_ws_cons _ _ _ Es) as L0.
    destruct (c =? 123).
    { destruct (skip_ws r0) as [|c2 r2] eqn:E2.
      { split; intros; discriminate. }
      pose proof (skip_ws_cons _ _ _ E2) as L2.
      destruct (c2 =? 125).
      { split; [|discriminate]. intros v r H. inversion H; subst. lia. }
      destruct (IHm (c2 :: r2) []) as [Hs Hf]. cbn [List.length] in *.
      split.
      - intros v r H. apply Hs in H. lia.
      - intros B. apply Hf. lia. }
    destruct (c =? 91).
    { destruct (skip_ws r0) as [|c2 r2] eqn:E2.
      { split; intros; discriminate. }
      pose proof (skip_ws_cons _ _ _ E2) as L2.
      destruct (c2 =? 93).
      { split; [|discriminate]. intros v r H. inversion H; subst. lia. }
      destruct (IHe (c2 :: r2) []) as [Hs Hf]. cbn [List.length] in *.
      split.
      - intros v r H. apply Hs in H. lia.
      - intros B. apply Hf. lia. }
    split.
    + intros v r H. apply parse_scalar_length in H. cbn [List.length] in *. lia.
    + intros _. apply parse_scalar_fuel.
  - (* parse_elements *)
    intros s acc. cbn [parse_elements].
    destruct (IHv s) as [Hs Hf].
    destruct (parse_value f s) as [[v r]| |] eqn:Ev.
    + specialize (Hs v r eq_refl).
      destruct (skip_ws r) as [|c r'] eqn:Er.
      { split; intros; discriminate. }
      pose proof (skip_ws_cons _ _ _ Er) as Lr.
      destruct (c =? 44).
      { destruct (IHe r' (v :: acc)) as [Hs' Hf']. split.
        - intros v' r'' H. apply Hs' in H. lia.
        - intros B. apply Hf'. lia. }
      destruct (c =? 93).
      { split; [|discriminate]. intros v' r'' H. inversion H; subst. lia. }
      split; intros; discriminate.
    + split; intros; discriminate.
    + split; [intros; discriminate|]. intros B. exfalso. apply Hf; [lia | reflexivity].
  - (* parse_members *)
    intros s acc. cbn [parse_members].
    destruct (skip_ws s) as [|c r0] eqn:Es.
    { split; intros; discriminate. }
    pose proof (skip_ws_cons _ _ _ Es) as L0.
    destruct (c =? dquote); [|split; intros; discriminate].
    destruct (parse_chars r0) as [[key r1]|] eqn:Ek; [|split; intros; discriminate].
    apply parse_chars_length in Ek.
    destruct (skip_ws r1) as [|c1 r2] eqn:E1.
    { split; intros; discriminate. }
    pose proof (skip_ws_cons _ _ _ E1) as L1.
    destruct (c1 =? 58); [|split; intros; discriminate].
    destruct (IHv r2) as [Hs Hf].
    destruct (parse_value f r2) as [[v r3]| |] eqn:Ev.
    + specialize (Hs v r3 eq_refl).
      destruct (skip_ws r3) as [|c3 r4] eqn:E3.
      { split; intros; discriminate. }
      pose proof (skip_ws_cons _ _ _ E3) as L3.
      destruct (c3 =? 44).
      { destruct (IHm r4 ((key, v) :: acc)) as [Hs' Hf']. split.
        - intros v' r'' H. apply Hs' in H. lia.
        - intros B. apply Hf'. lia. }
      destruct (c3 =? 125).
      { split; [|discriminate]. intros v' r'' H. inversion H; subst. lia. }
      split; intros; discriminate.
    + split; intros; discriminate.
    + split; [intros; discriminate|]. intros B. exfalso. apply Hf; [lia | reflexivity].
Qed.

(** [JSON.parse] gives a value or throws a SyntaxError. *)
Theorem JSON_parse_total (text : jstr) : JSON_parse text <> OutOfFuel.
Proof.
  unfold JSON_parse.
  destruct (parser_fuel (parse_fuel text)) as [Hv _].
  destruct (Hv text) as [_ Hf].
  destruct (parse_value (parse_fuel text) text) as [[v r]| |] eqn:E.
  - destruct (skip_ws r); discriminate.
  - discriminate.
  - exfalso. apply Hf; [unfold parse_fuel; lia | reflexivity].
Qed.

End ParserFacts.

(* ================================================================== *)
(** * Facts about the read loop *)
(* ================================================================== *)

Section ApiFacts.
Import JsString Json Utf8 Api.

Lemma pop_last (lines : list jstr) :
  lines <> [] -> pop lines = (removelast lines, Some (last lines [])).
Proof.
  intros H. destruct (exists_last H) as [front [l ->]].
  unfold pop. rewrite rev_app_distr. cbn [rev app].
  now rewrite rev_involutive, removelast_last, last_last.
Qed.

Lemma try_catch_no_throw (line : jstr) : snd (try_catch line) <> Throw.
Proof.
  unfold try_catch. destruct (try_body line) as [calls []]; discriminate.
Qed.

Lemma process_line_no_throw (line : jstr) : snd (process_line line) <> Throw.
Proof.
  unfold process_line. destruct (negb _); [discriminate | apply try_catch_no_throw].
Qed.

Lemma for_lines_no_throw (lines : list jstr) : snd (for_lines lines) <> Throw.
Proof.
  induction lines as [|l r IH]; cbn [for_lines]; [discriminate|].
  pose proof (process_line_no_throw l) as Hl.
  destruct (process_line l) as [calls []]; cbn [snd] in *;
    [|discriminate|contradiction].
  destruct (for_lines r) as [calls' c]. exact IH.
Qed.

Lemma for_lines_app (a b : list jstr) :
  for_lines (a ++ b) =
  match for_lines a with
  | (calls, Normal) => let (calls', c) := for_lines b in (calls ++ calls', c)
  | r => r
  end.
Proof.
  induction a as [|l a IH]; cbn [app for_lines].
  - destruct (for_lines b); reflexivity.
  - destruct (process_line l) as [calls []]; try reflexivity.
    rewrite IH. destruct (for_lines a) as [ca []]; try reflexivity.
    destruct (for_lines b) as [cb c]. now rewrite app_assoc.
Qed.

Lemma run_lines_app (a b : list jstr) (fin : stream_end) :
  run_lines (a ++ b) fin =
  match for_lines a with
  | (calls, Normal) => calls ++ run_lines b fin
  | (calls, _) => calls
  end.
Proof.
  unfold run_lines. rewrite for_lines_app.
  destruct (for_lines a) as [ca []]; try reflexivity.
  destruct (for_lines b) as [cb []]; try reflexivity. now rewrite app_assoc.
Qed.

Lemma complete_lines_app (a b : jstr) :
  complete_lines (a ++ b) =
  complete_lines a ++ complete_lines (last (split newline a) [] ++ b).
Proof.
  unfold complete_lines. rewrite split_app.
  apply removelast_app. apply split_not_nil.
Qed.

Lemma complete_lines_no_newline (s : jstr) :
  ~ In newline s -> complete_lines s = [].
Proof. intros H. unfold complete_lines. now rewrite split_no_sep. Qed.

(** The calls of the read loop are those for the completed lines of the
    decoded text: where the reader cuts the stream does not matter. *)
Lemma read_loop_lines (chunks : list bytes) :
  forall (d : decoder) (buffer : jstr) (fin : stream_end),
  ~ In newline buffer ->
  read_loop d buffer chunks fin =
  run_lines (complete_lines (buffer ++ decode_all d chunks)) fin.
Proof.
  induction chunks as [|value rest IH]; intros d buffer fin Hb;
    cbn [read_loop decode_all].
  - rewrite app_nil_r, complete_lines_no_newline by assumption.
    destruct fin; reflexivity.
  - destruct (decode d value) as [d' text].
    rewrite pop_last by apply split_not_nil.
    rewrite app_assoc, complete_lines_app, run_lines_app.
    fold (complete_lines (buffer ++ text)).
    destruct (for_lines (complete_lines (buffer ++ text))) as [calls []];
      try reflexivity.
    cbn [or_empty]. rewrite IH by apply last_split_no_sep. reflexivity.
Qed.

Theorem streamChat_lines (chunks : list bytes) (fin : stream_end) :
  streamChat (Responded true (Some (chunks, fin))) =
  run_lines (complete_lines (decode_all new_decoder chunks)) fin.
Proof.
  cbn [streamChat]. rewrite read_loop_lines by (cbn; tauto). reflexivity.
Qed.

End ApiFacts.

(* ================================================================== *)
(** * Facts about frames *)
(* ================================================================== *)

Section FrameFacts.
Import JsString Json Utf8 Api Routes.

Lemma safe_lit_ascii (s : jstr) :
  forallb (fun c => (32 <=? c) && (c <=? 127)) s = true -> safe s.
Proof.
  induction s as [|c r IH]; cbn [forallb]; intros H; [constructor|].
  apply andb_true_iff in H as [Hc Hr]. apply andb_true_iff in Hc as [H1 H2].
  apply Z.leb_le in H1, H2. apply safe_ascii; [lia | now apply IH].
Qed.

Lemma safe_string_property (key value : jstr) :
  well_formed key -> well_formed value ->
  safe (stringify_string_property key value).
Proof.
  intros Hk Hv. unfold stringify_string_property.
  apply safe_app; [apply safe_lit_ascii; reflexivity|].
  apply safe_app; [now apply safe_QuoteJSONString|].
  apply safe_app; [apply safe_lit_ascii; reflexivity|].
  apply safe_app; [now apply safe_QuoteJSONString|].
  apply safe_lit_ascii; reflexivity.
Qed.

Lemma safe_payload (e : StreamEvent) : event_wf e -> safe (payload e).
Proof.
  destruct e as [text| |message]; cbn [event_wf payload]; intros H.
  - apply safe_string_property; [|assumption].
    apply safe_well_formed, safe_lit_ascii; reflexivity.
  - apply safe_lit_ascii. reflexivity.
  - apply safe_string_property; [|assumption].
    apply safe_well_formed, safe_lit_ascii; reflexivity.
Qed.

Lemma safe_frame_line (e : StreamEvent) : event_wf e -> safe (frame_line e).
Proof.
  intros H. unfold frame_line. apply safe_app; [|now apply safe_payload].
  apply safe_lit_ascii. reflexivity.
Qed.

Lemma frame_split (e : StreamEvent) : frame e = frame_line e ++ [newline; newline].
Proof. unfold frame, frame_line. now rewrite <- app_assoc. Qed.

(** Each frame completes two lines: its [data: ] line and an empty one. *)
Lemma split_wire (events : list StreamEvent) :
  Forall event_wf events ->
  split newline (wire events) =
  flat_map (fun e => [frame_line e; []]) events ++ [[]].
Proof.
  unfold wire. induction 1 as [|e r He _ IH]; [reflexivity|].
  cbn [map List.concat flat_map app]. rewrite frame_split, <- app_assoc.
  cbn [app]. rewrite split_line by now apply safe_no_newline, safe_frame_line.
  change (newline :: List.concat (map frame r))
    with ([] ++ newline :: List.concat (map frame r)).
  rewrite (split_line newline []) by (cbn; tauto). now rewrite IH.
Qed.

Lemma complete_lines_wire (events : list StreamEvent) :
  Forall event_wf events ->
  complete_lines (wire events) = flat_map (fun e => [frame_line e; []]) events.
Proof.
  intros H. unfold complete_lines. rewrite split_wire by assumption.
  apply removelast_last.
Qed.

Lemma wire_well_formed (events : list StreamEvent) :
  Forall event_wf events -> well_formed (wire events).
Proof.
  unfold wire. induction 1 as [|e r He _ IH]; [constructor|].
  cbn [map List.concat]. apply well_formed_app; [|exact IH].
  rewrite frame_split. apply well_formed_app.
  - now apply safe_well_formed, safe_frame_line.
  - repeat constructor; unfold code_unit, newline; lia.
Qed.

Lemma wire_paired (events : list StreamEvent) :
  Forall event_wf events -> paired (wire events) = true.
Proof.
  unfold wire. induction 1 as [|e r He _ IH]; [reflexivity|].
  cbn [map List.concat]. apply paired_app; [|exact IH].
  rewrite frame_split. apply paired_app; [|reflexivity].
  now apply safe_paired, safe_frame_line.
Qed.

Lemma wire_head (e : StreamEvent) (r : list StreamEvent) :
  exists s, wire (e :: r) = 100 :: s.
Proof. eexists. unfold wire, frame. cbn [map List.concat lit app]. reflexivity. Qed.

(** The frames go through [res.write], any cutting into chunks, and the
    decoder unchanged. *)
Theorem decode_all_wire (events : list StreamEvent) (chunks : list bytes) :
  Forall event_wf events ->
  List.concat chunks = encode (wire events) ->
  decode_all new_decoder chunks = wire events.
Proof.
  intros Hwf Hcat.
  pose proof (wire_well_formed events Hwf) as Hw.
  pose proof (wire_paired events Hwf) as Hp.
  destruct events as [|e r].
  - rewrite decode_all_concat, Hcat. reflexivity.
  - destruct (wire_head e r) as [s Hs]. rewrite Hs in *.
    inversion Hw; subst.
    apply decode_all_encode; [lia | assumption | exact Hp | assumption].
Qed.

(** ** What the client makes of a frame *)

Lemma slice_data (s : jstr) : slice 6 (lit "data: " ++ s) = s.
Proof. reflexivity. Qed.

Lemma process_line_frame (e : StreamEvent) :
  event_wf e -> process_line (frame_line e) = delivery e.
Proof.
  intros H. unfold process_line, frame_line.
  rewrite startsWith_app. cbn [negb]. unfold try_catch, try_body.
  rewrite slice_data.
  destruct e as [text| |message]; cbn [event_wf payload delivery] in *.
  - rewrite JSON_parse_string_property;
      [|apply safe_well_formed, safe_lit_ascii; reflexivity | assumption].
    cbn. destruct (nonempty text); reflexivity.
  - rewrite JSON_parse_done. reflexivity.
  - rewrite JSON_parse_string_property;
      [|apply safe_well_formed, safe_lit_ascii; reflexivity | assumption].
    cbn. destruct (nonempty message); reflexivity.
Qed.

Lemma process_line_empty : process_line [] = ([], Normal).
Proof. reflexivity. Qed.

Lemma for_lines_frames (events : list StreamEvent) :
  Forall event_wf events ->
  for_lines (flat_map (fun e => [frame_line e; []]) events) = deliver events.
Proof.
  induction 1 as [|e r He _ IH]; [reflexivity|].
  cbn [flat_map app for_lines deliver].
  rewrite process_line_frame by assumption.
  destruct (delivery e) as [calls []]; try reflexivity.
  rewrite process_line_empty. cbn [app]. rewrite IH.
  destruct (deliver r) as [calls' c]. reflexivity.
Qed.

(** The calls [streamChat] makes for a sequence of frames, whatever the
    chunks the reader delivers them in. *)
Theorem streamChat_wire (events : list StreamEvent) (chunks : list bytes)
    (fin : stream_end) :
  Forall event_wf events ->
  List.concat chunks = encode (wire events) ->
  streamChat (Responded true (Some (chunks, fin))) =
  match deliver events with
  | (calls, Normal) => calls ++ [final fin]
  | (calls, _) => calls
  end.
Proof.
  intros Hwf Hcat.
  rewrite streamChat_lines, (decode_all_wire events chunks Hwf Hcat).
  rewrite complete_lines_wire by assumption.
  unfold run_lines. now rewrite for_lines_frames.
Qed.

End FrameFacts.

(* ================================================================== *)
(** * Facts about the quote generator *)
(* ================================================================== *)

Section StockFacts.
Import JsString StockData.
Context {N : Numbers} {C : Casing}.

Lemma own_property_None (key : jstr) (table : list (jstr * stock)) :
  own_property key table = None <-> ~ In key (map fst table).
Proof.
  induction table as [|[k s] rest IH]; cbn [own_property map fst In].
  - tauto.
  - destruct (eqb k key) eqn:E.
    + apply eqb_eq in E. split; [discriminate | tauto].
    + apply eqb_neq in E. rewrite IH. tauto.
Qed.

Lemma own_property_In (key : jstr) (table : list (jstr * stock)) (s : stock) :
  own_property key table = Some s -> In (key, s) table.
Proof.
  induction table as [|[k s'] rest IH]; cbn [own_property In]; [discriminate|].
  destruct (eqb k key) eqn:E.
  - apply eqb_eq in E. intros H. inversion H. subst. now left.
  - intros H. right. now apply IH.
Qed.

Lemma forallb_capitals (s : jstr) :
  forallb (fun c => (65 <=? c) && (c <=? 90)) s = true -> capitals s.
Proof.
  unfold capitals. rewrite forallb_forall, Forall_forall.
  intros H c Hc. specialize (H c Hc). apply andb_true_iff in H as [H1 H2].
  apply Z.leb_le in H1, H2. lia.
Qed.

Lemma symbols_capitals (s : jstr) : In s getAllSymbols -> capitals s.
Proof.
  intros H. apply forallb_capitals. revert s H. apply forallb_forall.
  reflexivity.
Qed.

Lemma symbols_count : List.length getAllSymbols = 25%nat.
Proof. reflexivity. Qed.

Lemma symbols_NoDup : NoDup getAllSymbols.
Proof.
  unfold getAllSymbols, STOCKS. cbn [map fst].
  repeat (constructor; [cbn [In lit]; intros H;
    repeat (destruct H as [H|H]; [discriminate H|]); exact H|]).
  constructor.
Qed.

Lemma prototype_keys_lower (key : jstr) :
  existsb (eqb key) Object_prototype_keys = true -> has_lower key = true.
Proof.
  intros H. apply existsb_exists in H as [k [Hin Hk]].
  apply eqb_eq in Hk. subst k.
  revert key Hin. apply forallb_forall. reflexivity.
Qed.

Lemma toUpperCase_not_inherited (s : jstr) :
  existsb (eqb (toUpperCase s)) Object_prototype_keys = false.
Proof.
  destruct (existsb _ _) eqn:E; [|reflexivity].
  apply prototype_keys_lower in E. unfold has_lower in E.
  apply existsb_exists in E as [c [Hin Hc]].
  pose proof (toUpperCase_no_lower s) as Hl.
  rewrite Forall_forall in Hl. specialize (Hl c Hin).
  apply andb_true_iff in Hc as [H1 H2]. apply Z.leb_le in H1, H2. lia.
Qed.

(** [STOCKS[s.toUpperCase()]] is an entry of the table or [undefined]. *)
Lemma STOCKS_get_upper (s : jstr) :
  STOCKS_get (toUpperCase s) =
  match own_property (toUpperCase s) STOCKS with
  | Some st => Own st
  | None => Undefined
  end.
Proof.
  unfold STOCKS_get. now rewrite toUpperCase_not_inherited.
Qed.

Lemma getStockQuote_upper (now : number) (s : jstr) :
  getStockQuote now (toUpperCase s) = getStockQuote now s.
Proof. unfold getStockQuote. now rewrite toUpperCase_idempotent. Qed.

Lemma getStockQuote_Null (now : number) (s : jstr) :
  getStockQuote now s = Null <-> ~ In (toUpperCase s) getAllSymbols.
Proof.
  unfold getStockQuote, getAllSymbols. rewrite STOCKS_get_upper.
  rewrite <- own_property_None.
  destruct (own_property (toUpperCase s) STOCKS); split; intro H;
    try discriminate; reflexivity.
Qed.

Lemma getStockQuote_no_throw (now : number) (s : jstr) :
  getStockQuote now s <> TypeError.
Proof.
  unfold getStockQuote. rewrite STOCKS_get_upper.
  destruct (own_property (toUpperCase s) STOCKS); discriminate.
Qed.

Lemma getStockQuote_known (now : number) (s : jstr) :
  In (toUpperCase s) getAllSymbols ->
  exists q st,
    getStockQuote now s = Quote q /\
    In (toUpperCase s, st) STOCKS /\
    q_symbol q = toUpperCase s /\
    q_name q = Some (name st) /\
    q_sector q = Some (sector st) /\
    previousClose q = Some (basePrice st) /\
    price q = getStockPrice now (toUpperCase s).
Proof.
  intros Hin. unfold getStockQuote. rewrite STOCKS_get_upper.
  destruct (own_property (toUpperCase s) STOCKS) as [st|] eqn:E.
  - eexists. exists st. split; [reflexivity|].
    split; [now apply own_property_In|]. cbn. repeat split.
  - apply own_property_None in E. contradiction.
Qed.

Lemma getStockQuote_symbol (now : number) (s : jstr) :
  In s getAllSymbols ->
  exists q, getStockQuote now s = Quote q /\ q_symbol q = s.
Proof.
  intros Hin.
  pose proof (toUpperCase_capitals s (symbols_capitals s Hin)) as Hu.
  destruct (getStockQuote_known now s) as [q [st [Hq [_ [Hs _]]]]].
  - now rewrite Hu.
  - exists q. rewrite Hu in Hs. now split.
Qed.

End StockFacts.

(* ================================================================== *)
(** * Facts about the chat handler *)
(* ================================================================== *)

Section RouteFacts.
Import JsString Json StockData Routes.
Context {N : Numbers} {C : Casing}.

Lemma quote_lines_summary (now : number) (symbols : list jstr) :
  quote_lines now symbols = Some (map (summary now) symbols).
Proof.
  induction symbols as [|s r IH]; cbn [quote_lines map]; [reflexivity|].
  rewrite IH. unfold summary.
  pose proof (getStockQuote_no_throw now s) as Hs.
  destruct (getStockQuote now s); [reflexivity | reflexivity | contradiction].
Qed.

Lemma summary_symbol (now : number) (s : jstr) :
  In s getAllSymbols -> exists rest, summary now s = s ++ 58 :: rest.
Proof.
  intros Hin. destruct (getStockQuote_symbol now s Hin) as [q [Hq Hs]].
  unfold summary, quote_line. rewrite Hq, Hs. eexists. reflexivity.
Qed.

Lemma symbol_nonempty (s : jstr) : In s getAllSymbols -> nonempty s = true.
Proof.
  intros H. revert s H. apply forallb_forall. reflexivity.
Qed.

Lemma summary_nonempty (now : number) (s : jstr) :
  In s getAllSymbols -> nonempty (summary now s) = true.
Proof.
  intros Hin. destruct (summary_symbol now s Hin) as [rest ->].
  pose proof (symbol_nonempty s Hin) as Hn.
  destruct s; [discriminate | reflexivity].
Qed.

Lemma mentioned_symbols (message s : jstr) :
  In s (mentionedStocks message) <->
  In s getAllSymbols /\ includes (toUpperCase message) s = true.
Proof. unfold mentionedStocks. apply filter_In. Qed.

Lemma filter_summaries (now : number) (symbols : list jstr) :
  (forall s, In s symbols -> In s getAllSymbols) ->
  filter nonempty (map (summary now) symbols) = map (summary now) symbols.
Proof.
  induction symbols as [|s r IH]; intros H; cbn [map filter]; [reflexivity|].
  rewrite summary_nonempty by (apply H; now left).
  rewrite IH; [reflexivity|]. intros s' Hs'. apply H. now right.
Qed.

(** The stock context is the block of the lines of the mentioned symbols. *)
Lemma stockContext_block (now : number) (message : jstr) :
  stockContext now message =
  Some (stock_block (map (summary now) (mentionedStocks message))).
Proof.
  unfold stockContext.
  destruct (mentionedStocks message) as [|s r] eqn:E; [reflexivity|].
  rewrite quote_lines_summary, filter_summaries; [reflexivity|].
  intros s' Hs'. rewrite <- E in Hs'. now apply mentioned_symbols in Hs'.
Qed.

(** Two lines that open with a symbol and a colon are lines of one symbol. *)
Lemma capitals_colon (a b x y : jstr) :
  capitals a -> capitals b -> a ++ 58 :: x = b ++ 58 :: y -> a = b.
Proof.
  unfold capitals. revert b. induction a as [|c a IH]; intros [|d b] Ha Hb H;
    cbn [app] in H.
  - reflexivity.
  - inversion H; subst. inversion Hb; subst. lia.
  - inversion H; subst. inversion Ha; subst. lia.
  - inversion H; subst. inversion Ha; inversion Hb; subst.
    f_equal. now apply IH.
Qed.

Lemma summary_injective (now : number) (s s' : jstr) :
  In s getAllSymbols -> In s' getAllSymbols ->
  summary now s = summary now s' -> s = s'.
Proof.
  intros H H' E.
  destruct (summary_symbol now s H) as [x Hx].
  destruct (summary_symbol now s' H') as [y Hy].
  rewrite Hx, Hy in E.
  apply (capitals_colon s s' x y); [now apply symbols_capitals .. | exact E].
Qed.

(** ** Writing *)

Lemma write_fragments_written (fragments : list (option jstr)) (res : Res) :
  written (write_fragments fragments res) =
  written res ++ map frame (map Content (written_texts fragments)).
Proof.
  revert res. unfold written_texts.
  induction fragments as [|f r IH]; intros res; cbn [write_fragments map filter].
  - now rewrite app_nil_r.
  - destruct (nonempty (fragment_text f)).
    + rewrite IH. cbn [write written map]. now rewrite <- app_assoc.
    + apply IH.
Qed.

Lemma write_fragments_headersSent (fragments : list (option jstr)) (res : Res) :
  headersSent (write_fragments fragments res) =
  headersSent res ||
  match written_texts fragments with [] => false | _ :: _ => true end.
Proof.
  revert res. unfold written_texts.
  induction fragments as [|f r IH]; intros res; cbn [write_fragments map filter].
  - now rewrite orb_false_r.
  - destruct (nonempty (fragment_text f)).
    + rewrite IH. cbn [write headersSent]. now rewrite orb_true_r.
    + apply IH.
Qed.

Lemma write_fragments_status (fragments : list (option jstr)) (res : Res) :
  statusCode (write_fragments fragments res) = statusCode res /\
  json_body (write_fragments fragments res) = json_body res /\
  ended (write_fragments fragments res) = ended res /\
  headers (write_fragments fragments res) = headers res.
Proof.
  revert res. induction fragments as [|f r IH]; intros res; cbn [write_fragments].
  - repeat split.
  - destruct (nonempty (fragment_text f)); [|apply IH].
    destruct (IH (write (frame (Content (fragment_text f))) res)) as [H1 [H2 [H3 H4]]].
    rewrite H1, H2, H3, H4. repeat split.
Qed.

Lemma post_chat_response (now : number) (m : jstr) (history : list ChatMessage)
    (p : provider) :
  nonempty m = true ->
  response (post_chat now (Some m) history p) =
  match p with
  | Rejects => on_failure prepared
  | Streams fragments Completes =>
      end_ (write (frame Done) (write_fragments fragments prepared))
  | Streams fragments Fails => on_failure (write_fragments fragments prepared)
  end.
Proof.
  intros Hm. unfold post_chat. rewrite Hm. cbn [negb].
  rewrite stockContext_block. reflexivity.
Qed.

(** What the handler writes is the frames of [events_of]. *)
Lemma post_chat_written (now : number) (m : jstr) (history : list ChatMessage)
    (p : provider) :
  nonempty m = true ->
  written (response (post_chat now (Some m) history p)) = map frame (events_of p).
Proof.
  intros Hm. rewrite post_chat_response by assumption.
  destruct p as [|fragments []]; cbn [events_of].
  - reflexivity.
  - cbn [end_ write written]. rewrite write_fragments_written.
    cbn [prepared setHeader fresh written app]. now rewrite map_app.
  - unfold on_failure. rewrite write_fragments_headersSent.
    cbn [prepared setHeader fresh headersSent orb].
    destruct (written_texts fragments) as [|t ts] eqn:E.
    + cbn [status_json written]. rewrite write_fragments_written, E. reflexivity.
    + cbn [end_ write written]. rewrite write_fragments_written, E.
      cbn [prepared setHeader fresh written app]. now rewrite map_app.
Qed.

End RouteFacts.

(* ================================================================== *)
(** * The chat-streaming contract *)
(* ================================================================== *)

Section Contract.
Import JsString Json Utf8 StockData Routes Api Pipeline.

Lemma written_texts_nonempty (fragments : list (option jstr)) :
  Forall (fun t => nonempty t = true) (written_texts fragments).
Proof.
  unfold written_texts. apply Forall_forall. intros t H.
  now apply filter_In in H.
Qed.

Lemma written_texts_wf (fragments : list (option jstr)) :
  Forall (fun f => well_formed (fragment_text f)) fragments ->
  Forall event_wf (map Content (written_texts fragments)).
Proof.
  intros H. apply Forall_map. unfold written_texts.
  apply Forall_forall. intros t Ht. apply filter_In in Ht as [Ht _].
  apply in_map_iff in Ht as [f [<- Hf]].
  rewrite Forall_forall in H. cbn [event_wf]. now apply H.
Qed.

Lemma deliver_contents (texts : list jstr) (later : list StreamEvent) :
  deliver (map Content texts ++ later) =
  let (calls, c) := deliver later in
  (map (fun t => OnChunk (JStr t)) (filter nonempty texts) ++ calls, c).
Proof.
  induction texts as [|t r IH]; cbn [map app deliver delivery filter].
  - destruct (deliver later); reflexivity.
  - rewrite IH. destruct (deliver later) as [calls c].
    destruct (nonempty t); reflexivity.
Qed.

Lemma filter_all (texts : list jstr) :
  Forall (fun t => nonempty t = true) texts -> filter nonempty texts = texts.
Proof.
  induction 1 as [|t r Ht _ IH]; cbn [filter]; [reflexivity|].
  now rewrite Ht, IH.
Qed.

Lemma event_wf_app (a b : list StreamEvent) :
  Forall event_wf a -> Forall event_wf b -> Forall event_wf (a ++ b).
Proof. intros Ha Hb. apply Forall_app. now split. Qed.

Lemma streaming_status {N : Numbers} {C : Casing} (now : number) (m : jstr)
    (history : list ChatMessage) (fragments : list (option jstr)) :
  nonempty m = true ->
  let res := response (post_chat now (Some m) history (Streams fragments Completes)) in
  statusCode res = 200 /\ json_body res = None /\ ended res = true.
Proof.
  intros Hm. cbv zeta. rewrite post_chat_response by assumption.
  cbn [end_ write statusCode json_body ended].
  destruct (write_fragments_status fragments prepared) as [H1 [H2 _]].
  rewrite H1, H2. repeat split.
Qed.

(** C1 (full pipeline round trip): for every sequence of provider fragments
    that ends normally and every cutting of the bytes of the response into
    reader chunks, the handler writes one content frame for each non-empty
    fragment and then one done frame, and [streamChat] calls [onChunk] once
    for each non-empty fragment, with its text, in order, then [onDone]
    once, and never [onError]. *)
Theorem C1_pipeline_round_trip {N : Numbers} {C : Casing} (now : number)
    (message : jstr) (history : list ChatMessage)
    (fragments : list (option jstr)) (chunks : list bytes) (res : Res) :
  nonempty message = true ->
  Forall (fun f => well_formed (fragment_text f)) fragments ->
  res = response (post_chat now (Some message) history
                    (Streams fragments Completes)) ->
  carries res chunks ->
  written res = map frame (map Content (written_texts fragments)) ++ [frame Done]
  /\ ended res = true
  /\ streamChat (fetch res chunks) =
     map (fun t => OnChunk (JStr t)) (written_texts fragments) ++ [OnDone].
Proof.
  intros Hm Hwf Hres Hc.
  pose proof (streaming_status now message history fragments Hm) as [Hs [Hj He]].
  pose proof (post_chat_written now message history
                (Streams fragments Completes) Hm) as Hw.
  rewrite <- Hres in Hs, Hj, He, Hw. clear Hres.
  cbn [events_of] in Hw.
  split; [rewrite Hw, map_app; reflexivity|]. split; [exact He|].
  unfold fetch, ok. rewrite Hs.
  change ((200 <=? 200) && (200 <=? 299)) with true.
  unfold carries, body_text in Hc. rewrite Hj, Hw in Hc.
  rewrite (streamChat_wire (map Content (written_texts fragments) ++ [Done])
             chunks Closed);
    [| apply event_wf_app; [now apply written_texts_wf | repeat constructor]
     | exact Hc].
  rewrite deliver_contents. cbn [deliver delivery].
  now rewrite filter_all by apply written_texts_nonempty.
Qed.

Lemma well_formed_check (s : jstr) :
  forallb (fun c => (0 <=? c) && (c <? 65536)) s = true -> well_formed s.
Proof.
  unfold well_formed, code_unit. rewrite forallb_forall, Forall_forall.
  intros H c Hc. specialize (H c Hc). apply andb_true_iff in H as [H1 H2].
  apply Z.leb_le in H1. apply Z.ltb_lt in H2. lia.
Qed.

Lemma fragments_check (fragments : list (option jstr)) :
  forallb (fun f => forallb (fun c => (0 <=? c) && (c <? 65536)) (fragment_text f))
          fragments = true ->
  Forall (fun f => well_formed (fragment_text f)) fragments.
Proof.
  rewrite forallb_forall, Forall_forall. intros H f Hf.
  apply well_formed_check. now apply H.
Qed.

(** The scenario of the specification: the fragments "Apple", " is",
    " strong." reach the caller as three chunks and a completion. *)
Lemma C1_scenario :
  streamChat (fetch Scenario.completed (Scenario.cut Scenario.completed)) =
  [OnChunk (JStr (lit "Apple")); OnChunk (JStr (lit " is"));
   OnChunk (JStr (lit " strong.")); OnDone].
Proof.
  refine (proj2 (proj2 (C1_pipeline_round_trip (N:=Platform.terms) (C:=Platform.ascii) Scenario.clock Scenario.analyze []
            Scenario.fragments (Scenario.cut Scenario.completed)
            Scenario.completed _ _ _ _))).
  - reflexivity.
  - apply fragments_check. reflexivity.
  - reflexivity.
  - vm_compute. reflexivity.
Defined.

(** ** The handler *)

Lemma post_chat_empty {N : Numbers} {C : Casing} (now : number)
    (message : option jstr) (history : list ChatMessage) (p : provider) :
  nonempty (fragment_text message) = false ->
  post_chat now message history p =
  {| response := status_json 400 (lit "Message required") fresh;
     upstream := None |}.
Proof.
  intros H. unfold post_chat.
  change (match message with Some s => s | None => [] end)
    with (fragment_text message).
  now rewrite H.
Qed.

Lemma post_chat_upstream {N : Numbers} {C : Casing} (now : number) (m : jstr)
    (history : list ChatMessage) (p : provider) :
  nonempty m = true ->
  upstream (post_chat now (Some m) history p) =
  Some (build_messages (indexContext now)
          (stock_block (map (summary now) (mentionedStocks m))) m history).
Proof.
  intros Hm. unfold post_chat. rewrite Hm. cbn [negb].
  rewrite stockContext_block. reflexivity.
Qed.

(** C2, as the code has it: a request whose message is missing or the empty
    string is answered with status 400 and a JSON body, no frame is written
    and the provider is not called; every other message, one of white space
    too, is sent upstream and answered with the frames the provider
    causes. *)
Theorem C2_empty_message_rejected {N : Numbers} {C : Casing} (now : number)
    (history : list ChatMessage) (p : provider) :
  (forall message, message = None \/ message = Some [] ->
     post_chat now message history p =
       {| response := status_json 400 (lit "Message required") fresh;
          upstream := None |}
     /\ rejected 400 (response (post_chat now message history p))) /\
  (forall m, nonempty m = true ->
     upstream (post_chat now (Some m) history p) <> None /\
     written (response (post_chat now (Some m) history p)) =
       map frame (events_of p)).
Proof.
  split.
  - intros message Hm.
    assert (E : post_chat now message history p =
       {| response := status_json 400 (lit "Message required") fresh;
          upstream := None |}).
    { apply post_chat_empty. destruct Hm as [-> | ->]; reflexivity. }
    split; [exact E|]. rewrite E. cbn [response].
    unfold rejected. cbn [status_json statusCode written json_body fresh].
    repeat split. discriminate.
  - intros m Hm. split.
    + rewrite post_chat_upstream by assumption. discriminate.
    + now apply post_chat_written.
Qed.

(** A message of one space is streamed: with a provider that yields nothing
    the handler answers 200 with a done frame. *)
Lemma C2_blank_message_streams :
  blank (lit " ") /\
  ~ rejected 400 (response (post_chat (N:=Platform.terms) (C:=Platform.ascii) Scenario.clock (Some (lit " ")) []
                              (Streams [] Completes))).
Proof.
  split.
  - repeat constructor.
  - intros [H _]. vm_compute in H. discriminate H.
Qed.

Lemma C2_instance :
  rejected 400 (response (post_chat (N:=Platform.terms) (C:=Platform.ascii) Scenario.clock (Some []) []
                            (Streams [Some (lit "Apple")] Completes))) /\
  written (response (post_chat (N:=Platform.terms) (C:=Platform.ascii) Scenario.clock (Some (lit " ")) []
                       (Streams [] Completes))) = [frame Done].
Proof.
  split.
  - exact (proj2 (proj1 (C2_empty_message_rejected (N:=Platform.terms) (C:=Platform.ascii) Scenario.clock []
                           (Streams [Some (lit "Apple")] Completes))
                    (Some []) (or_intror eq_refl))).
  - exact (proj2 (proj2 (C2_empty_message_rejected (N:=Platform.terms) (C:=Platform.ascii) Scenario.clock []
                           (Streams [] Completes)) (lit " ") eq_refl)).
Defined.

Lemma events_shape (p : provider) :
  exists texts tail,
    events_of p = map Content texts ++ tail /\
    (tail = [] \/ exists t, tail = [t] /\ terminal t = true).
Proof.
  destruct p as [|fragments []]; cbn [events_of].
  - exists [], []. split; [reflexivity | now left].
  - exists (written_texts fragments), [Done]. split; [reflexivity|].
    right. now exists Done.
  - destruct (written_texts fragments) as [|t ts].
    + exists [], []. split; [reflexivity | now left].
    + exists (t :: ts), [Error (lit "AI service error")]. split; [reflexivity|].
      right. now eexists.
Qed.

Lemma filter_terminal_contents (texts : list jstr) (tail : list StreamEvent) :
  filter terminal (map Content texts ++ tail) = filter terminal tail.
Proof. induction texts as [|t r IH]; cbn [map app filter terminal]; auto. Qed.

Lemma after_terminal (texts : list jstr) (tail before after : list StreamEvent)
    (t : StreamEvent) :
  (tail = [] \/ exists t', tail = [t'] /\ terminal t' = true) ->
  map Content texts ++ tail = before ++ t :: after ->
  terminal t = true -> after = [].
Proof.
  intros Htail. revert before.
  induction texts as [|x r IH]; intros before E Ht; cbn [map app] in E.
  - destruct Htail as [-> | [t' [-> _]]].
    + destruct before; discriminate.
    + destruct before as [|b before].
      * now inversion E.
      * inversion E. destruct before; discriminate.
  - destruct before as [|b before].
    + inversion E; subst. discriminate.
    + inversion E; subst. now apply (IH before).
Qed.

(** C3 (invariant of the emitted events): whatever the request and whatever
    the provider does, what the handler writes is the frames of a sequence
    of events with at most one terminal event and no content event after a
    terminal one. *)
Theorem C3_terminal_invariant {N : Numbers} {C : Casing} (now : number)
    (message : option jstr) (history : list ChatMessage) (p : provider) :
  exists events,
    written (response (post_chat now message history p)) = map frame events /\
    (List.length (filter terminal events) <= 1)%nat /\
    (forall before t after,
       events = before ++ t :: after -> terminal t = true ->
       Forall (fun e => is_content e = false) after).
Proof.
  destruct (nonempty (fragment_text message)) eqn:Hm.
  - destruct message as [m|]; [|discriminate]. cbn [fragment_text] in Hm.
    exists (events_of p). split; [now apply post_chat_written|].
    destruct (events_shape p) as [texts [tail [E Htail]]]. rewrite E.
    split.
    + rewrite filter_terminal_contents.
      destruct Htail as [-> | [t [-> Ht]]]; cbn [filter List.length]; [lia|].
      rewrite Ht. cbn [List.length]. lia.
    + intros before t after Eq Ht.
      rewrite (after_terminal texts tail before after t Htail Eq Ht).
      constructor.
  - exists []. rewrite post_chat_empty by assumption.
    split; [reflexivity|]. split; [cbn; lia|].
    intros [|b before] t after Eq; discriminate.
Qed.

(** C5 (failure in the middle of a stream): when the provider throws after
    at least one content frame was written, the frames written before stay
    as they are, one error frame with the text "AI service error" follows
    them, and the response is ended. *)
Theorem C5_mid_stream_failure {N : Numbers} {C : Casing} (now : number)
    (message : jstr) (history : list ChatMessage)
    (fragments : list (option jstr)) (res : Res) :
  nonempty message = true ->
  written_texts fragments <> [] ->
  res = response (post_chat now (Some message) history (Streams fragments Fails)) ->
  written res =
    written (write_fragments fragments prepared)
    ++ [frame (Error (lit "AI service error"))]
  /\ written (write_fragments fragments prepared) =
     map frame (map Content (written_texts fragments))
  /\ filter terminal (events_of (Streams fragments Fails)) =
     [Error (lit "AI service error")]
  /\ ended res = true /\ statusCode res = 200 /\ json_body res = None.
Proof.
  intros Hm Hne ->. rewrite post_chat_response by assumption.
  unfold on_failure. rewrite write_fragments_headersSent.
  cbn [events_of].
  destruct (written_texts fragments) as [|t ts] eqn:E; [contradiction|].
  cbn [prepared setHeader fresh headersSent orb end_ write written ended
       statusCode json_body].
  destruct (write_fragments_status fragments prepared) as [H1 [H2 _]].
  rewrite H1, H2, write_fragments_written, E.
  repeat split. apply filter_terminal_contents.
Qed.

(** The second scenario of the specification: the provider throws after
    "Apple". *)
Lemma C5_scenario :
  written Scenario.failed =
  [frame (Content (lit "Apple")); frame (Error (lit "AI service error"))]
  /\ ended Scenario.failed = true.
Proof.
  pose proof (C5_mid_stream_failure (N:=Platform.terms) (C:=Platform.ascii) Scenario.clock Scenario.analyze []
                [Some (lit "Apple")] Scenario.failed eq_refl
                ltac:(discriminate) eq_refl) as [H1 [H2 [_ [H3 _]]]].
  split; [|exact H3]. rewrite H1, H2. reflexivity.
Defined.

End Contract.

Section Client.
Import JsString Json Utf8 StockData Routes Api Pipeline.

(** ** The stream client *)

(** C6, as the code has it: when the frames are content frames followed by
    an error frame whose message is not the empty string, [streamChat]
    calls [onChunk] for the non-empty contents, then [onError] once with
    the message of the frame, and nothing after it, whatever follows the
    frame, however the bytes are cut and however the stream stops. *)
Theorem C6_error_frame (texts : list jstr) (message : jstr)
    (later : list StreamEvent) (chunks : list bytes) (fin : stream_end) :
  Forall well_formed texts -> well_formed message -> Forall event_wf later ->
  nonempty message = true ->
  List.concat chunks = encode (wire (map Content texts ++ Error message :: later)) ->
  streamChat (Responded true (Some (chunks, fin))) =
  map (fun t => OnChunk (JStr t)) (filter nonempty texts)
  ++ [OnError (JStr message)].
Proof.
  intros Ht Hm Hl Hn Hc.
  rewrite (streamChat_wire (map Content texts ++ Error message :: later) chunks fin);
    [| apply event_wf_app;
       [apply Forall_map; revert Ht; apply Forall_impl; intros t Hw; exact Hw
       | constructor; [exact Hm | exact Hl]]
     | exact Hc].
  rewrite deliver_contents. cbn [deliver delivery]. rewrite Hn. reflexivity.
Qed.

Lemma C6_scenario :
  streamChat (fetch Scenario.failed (Scenario.cut Scenario.failed)) =
  [OnChunk (JStr (lit "Apple")); OnError (JStr (lit "AI service error"))].
Proof.
  refine (C6_error_frame [lit "Apple"] (lit "AI service error") []
            (Scenario.cut Scenario.failed) Closed _ _ _ _ _).
  - constructor; [apply well_formed_check; reflexivity | constructor].
  - apply well_formed_check. reflexivity.
  - constructor.
  - reflexivity.
  - vm_compute. reflexivity.
Defined.

(** An error frame with the empty message is not an error for the client:
    no [onError], and [onDone] when the stream closes. *)
Lemma C6_empty_message :
  streamChat (Responded true (Some ([encode (wire [Error []])], Closed))) = [OnDone]
  /\ ~ In (OnError (JStr []))
         (streamChat (Responded true (Some ([encode (wire [Error []])], Closed)))).
Proof.
  assert (E : streamChat (Responded true (Some ([encode (wire [Error []])], Closed)))
              = [OnDone]) by (vm_compute; reflexivity).
  split; [exact E|]. rewrite E. intros [H|[]]. discriminate H.
Qed.

Lemma when_truthy_false (v : option json) :
  truthy_opt v = false -> when_truthy v = None.
Proof.
  destruct v as [x|]; cbn [truthy_opt when_truthy]; [|reflexivity].
  now intros ->.
Qed.

Lemma when_truthy_true (v : json) :
  truthy v = true -> when_truthy (Some v) = Some v.
Proof. cbn [when_truthy]. now intros ->. Qed.

Lemma dispatch_chunks (data : json) :
  match data with
  | JObj props =>
      truthy_opt (lookup (lit "done") props) = false /\
      truthy_opt (lookup (lit "error") props) = false
  | _ => True
  end ->
  exists calls c,
    dispatch data = (calls, c) /\ c <> Return /\
    Forall (fun x => is_chunk x = true) calls.
Proof.
  destruct data as [|b|n|s|items|props]; intros H;
    try (exists [], Normal; repeat split; [discriminate | constructor]).
  - exists [], Throw. repeat split; [discriminate | constructor].
  - destruct H as [Hd He]. unfold dispatch. cbn [get].
    rewrite (when_truthy_false _ Hd), (when_truthy_false _ He).
    destruct (when_truthy (lookup (lit "content") props)) as [text|].
    + exists [OnChunk text], Normal. repeat split; [discriminate | repeat constructor].
    + exists [], Normal. repeat split; [discriminate | constructor].
Qed.

Lemma process_line_chunks (line : jstr) :
  terminal_frame line = false ->
  exists calls,
    process_line line = (calls, Normal) /\
    Forall (fun x => is_chunk x = true) calls.
Proof.
  unfold terminal_frame, process_line. intros H.
  destruct (startsWith line (lit "data: ")); cbn [negb andb] in *.
  - unfold try_catch, try_body.
    destruct (JSON_parse (slice 6 line)) as [data| |].
    + destruct (dispatch_chunks data) as [calls [c [E [Hc Hf]]]].
      { destruct data; try exact I.
        now apply orb_false_iff in H. }
      rewrite E. exists calls. split; [|exact Hf].
      destruct c; [reflexivity | contradiction | reflexivity].
    + exists []. split; [reflexivity | constructor].
    + exists []. split; [reflexivity | constructor].
  - exists []. split; [reflexivity | constructor].
Qed.

Lemma for_lines_chunks (lines : list jstr) :
  Forall (fun l => terminal_frame l = false) lines ->
  exists calls,
    for_lines lines = (calls, Normal) /\
    Forall (fun x => is_chunk x = true) calls.
Proof.
  induction 1 as [|l r Hl _ [calls' [E' F']]]; cbn [for_lines].
  - exists []. split; [reflexivity | constructor].
  - destruct (process_line_chunks l Hl) as [calls [E F]]. rewrite E, E'.
    exists (calls ++ calls'). split; [reflexivity | apply Forall_app; now split].
Qed.

(** C7 (a stream that closes without a terminal frame): when no completed
    line of the stream is a frame with a truthy [done] or [error],
    [streamChat] calls [onDone] exactly once, after everything else, and its
    other calls are [onChunk] calls. *)
Theorem C7_close_without_terminal (chunks : list bytes) :
  Forall (fun l => terminal_frame l = false)
         (complete_lines (decode_all new_decoder chunks)) ->
  exists calls,
    streamChat (Responded true (Some (chunks, Closed))) = calls ++ [OnDone] /\
    Forall (fun x => is_chunk x = true) calls.
Proof.
  intros H. rewrite streamChat_lines. unfold run_lines.
  destruct (for_lines_chunks _ H) as [calls [E F]]. rewrite E.
  exists calls. now split.
Qed.

Lemma dispatch_shape (data : json) :
  exists calls c,
    dispatch data = (calls, c) /\
    (c <> Return /\ Forall (fun x => is_chunk x = true) calls \/
     c = Return /\ exists t, calls = [t] /\ is_chunk t = false).
Proof.
  unfold dispatch.
  destruct (get data (lit "done")) as [d|];
    [|exists [], Throw; split; [reflexivity | left; split; [discriminate | constructor]]].
  destruct (get data (lit "error")) as [e|];
    [|exists [], Throw; split; [reflexivity | left; split; [discriminate | constructor]]].
  destruct (get data (lit "content")) as [c|];
    [|exists [], Throw; split; [reflexivity | left; split; [discriminate | constructor]]].
  destruct (when_truthy d).
  { exists [OnDone], Return. split; [reflexivity|]. right. split; [reflexivity|].
    now exists OnDone. }
  destruct (when_truthy e) as [err|].
  { exists [OnError err], Return. split; [reflexivity|]. right. split; [reflexivity|].
    now exists (OnError err). }
  destruct (when_truthy c) as [text|].
  - exists [OnChunk text], Normal. split; [reflexivity|]. left.
    split; [discriminate | repeat constructor].
  - exists [], Normal. split; [reflexivity|]. left. split; [discriminate | constructor].
Qed.

Lemma process_line_shape (line : jstr) :
  exists calls c,
    process_line line = (calls, c) /\
    (c = Normal /\ Forall (fun x => is_chunk x = true) calls \/
     c = Return /\ exists t, calls = [t] /\ is_chunk t = false).
Proof.
  unfold process_line. destruct (negb _).
  { exists [], Normal. split; [reflexivity | left; split; [reflexivity | constructor]]. }
  unfold try_catch, try_body.
  destruct (JSON_parse (slice 6 line)) as [data| |];
    try (exists [], Normal; split; [reflexivity | left; split; [reflexivity | constructor]]).
  destruct (dispatch_shape data) as [calls [c [E [[Hc Hf] | [Hc Ht]]]]]; rewrite E.
  - exists calls, Normal. split; [destruct c; try reflexivity; contradiction|].
    left. now split.
  - subst c. exists calls, Return. split; [reflexivity|]. now right.
Qed.

Lemma for_lines_shape (lines : list jstr) :
  exists calls c,
    for_lines lines = (calls, c) /\
    (c = Normal /\ Forall (fun x => is_chunk x = true) calls \/
     c = Return /\ exists chunks t,
       calls = chunks ++ [t] /\ Forall (fun x => is_chunk x = true) chunks /\
       is_chunk t = false).
Proof.
  induction lines as [|l r [calls' [c' [E' H']]]]; cbn [for_lines].
  - exists [], Normal. split; [reflexivity | left; split; [reflexivity | constructor]].
  - destruct (process_line_shape l) as [calls [c [E [[-> Hf] | [-> [t [-> Ht]]]]]]];
      rewrite E.
    + rewrite E'. exists (calls ++ calls'), c'. split; [reflexivity|].
      destruct H' as [[-> Hf'] | [-> [chunks [t [-> [Hc Ht]]]]]].
      * left. split; [reflexivity | apply Forall_app; now split].
      * right. split; [reflexivity|]. exists (calls ++ chunks), t.
        split; [now rewrite app_assoc|]. split; [apply Forall_app; now split | exact Ht].
    + exists [t], Return. split; [reflexivity|]. right. split; [reflexivity|].
      exists [], t. repeat split; [constructor | exact Ht].
Qed.

(** Whatever [fetch] delivers, [streamChat] makes exactly one call of
    [onDone] or [onError], and it is its last call. *)
Theorem streamChat_one_terminal (r : fetched) :
  exists chunks t,
    streamChat r = chunks ++ [t] /\
    Forall (fun x => is_chunk x = true) chunks /\ is_chunk t = false.
Proof.
  destruct r as [message | [] [[chunks fin]|]];
    try (eexists [], _; repeat split; constructor).
  rewrite streamChat_lines. unfold run_lines.
  destruct (for_lines_shape (complete_lines (decode_all new_decoder chunks)))
    as [calls [c [E [[-> Hf] | [-> [cs [t [-> [Hc Ht]]]]]]]]]; rewrite E.
  - exists calls, (final fin). repeat split; [exact Hf | destruct fin; reflexivity].
  - exists cs, t. now repeat split.
Qed.

Lemma no_terminal_check (lines : list jstr) :
  forallb (fun l => negb (terminal_frame l)) lines = true ->
  Forall (fun l => terminal_frame l = false) lines.
Proof.
  rewrite forallb_forall, Forall_forall. intros H l Hl.
  now apply negb_true_iff, H.
Qed.

Lemma C7_scenario :
  Forall (fun l => terminal_frame l = false)
         (complete_lines (decode_all new_decoder Scenario.noise)) /\
  exists calls,
    streamChat (Responded true (Some (Scenario.noise, Closed))) = calls ++ [OnDone] /\
    Forall (fun x => is_chunk x = true) calls.
Proof.
  assert (H : Forall (fun l => terminal_frame l = false)
                (complete_lines (decode_all new_decoder Scenario.noise))).
  { apply no_terminal_check. vm_compute. reflexivity. }
  split; [exact H | exact (C7_close_without_terminal Scenario.noise H)].
Defined.

Example noise_calls :
  streamChat (Responded true (Some (Scenario.noise, Closed))) =
  [OnChunk (JStr (lit "hi")); OnDone].
Proof. vm_compute. reflexivity. Qed.

Lemma process_line_skipped (line : jstr) :
  startsWith line (lit "data: ") = false \/
  JSON_parse (slice 6 line) = SyntaxError ->
  process_line line = ([], Normal).
Proof.
  unfold process_line, try_catch, try_body. intros [H|H].
  - now rewrite H.
  - rewrite H. destruct (negb _); reflexivity.
Qed.

(** C8 (malformed frames): a completed line that has the prefix [data: ]
    and a rest that is not JSON, or that has no such prefix, causes no
    exception, no call and no return: the loop goes on as if the line were
    not there, and so does the whole stream. *)
Theorem C8_malformed_line_skipped (line : jstr) :
  startsWith line (lit "data: ") = false \/
  JSON_parse (slice 6 line) = SyntaxError ->
  process_line line = ([], Normal) /\
  (forall before after,
     for_lines (before ++ line :: after) = for_lines (before ++ after)) /\
  (forall (chunks chunks' : list bytes) (fin : stream_end) before after,
     complete_lines (decode_all new_decoder chunks) = before ++ line :: after ->
     complete_lines (decode_all new_decoder chunks') = before ++ after ->
     streamChat (Responded true (Some (chunks, fin))) =
     streamChat (Responded true (Some (chunks', fin)))).
Proof.
  intros H. pose proof (process_line_skipped line H) as Hp.
  assert (Hf : forall before after,
            for_lines (before ++ line :: after) = for_lines (before ++ after)).
  { intros before after. rewrite !for_lines_app. cbn [for_lines].
    rewrite Hp. cbn [app].
    destruct (for_lines before) as [calls []]; try reflexivity.
    destruct (for_lines after); reflexivity. }
  split; [exact Hp|]. split; [exact Hf|].
  intros chunks chunks' fin before after E E'.
  rewrite !streamChat_lines, E, E'. unfold run_lines. now rewrite Hf.
Qed.

Lemma C8_scenario :
  JSON_parse (slice 6 (lit "data: {oops")) = SyntaxError /\
  process_line (lit "data: {oops") = ([], Normal) /\
  for_lines [lit "data: {oops"; frame_line (Content (lit "hi"))] =
  for_lines [frame_line (Content (lit "hi"))].
Proof.
  assert (H : JSON_parse (slice 6 (lit "data: {oops")) = SyntaxError)
    by reflexivity.
  destruct (C8_malformed_line_skipped (lit "data: {oops") (or_intror H))
    as [H1 [H2 _]].
  split; [exact H|]. split; [exact H1|].
  exact (H2 [] [frame_line (Content (lit "hi"))]).
Defined.

(** C10 (dispatch by truthiness): [done], then [error], then [content], each
    tested by truthiness.  A frame whose [done] is false or missing and
    whose [error] and [content] are empty strings causes no call and
    reading goes on; the frame [{"error":""}] neither calls [onError] nor
    ends the stream; a frame with a truthy [done] is dispatched as done
    whatever its [error] field; with a falsy [done], a truthy [error] comes
    before [content]. *)
Theorem C10_dispatch_by_truthiness :
  (forall props,
     lookup (lit "done") props = None \/
     lookup (lit "done") props = Some (JBool false) ->
     lookup (lit "error") props = Some (JStr []) ->
     lookup (lit "content") props = Some (JStr []) ->
     dispatch (JObj props) = ([], Normal)) /\
  process_line (frame_line (Error [])) = ([], Normal) /\
  (forall (later : list StreamEvent) (chunks : list bytes) (fin : stream_end),
     Forall event_wf later ->
     List.concat chunks = encode (wire (Error [] :: later)) ->
     streamChat (Responded true (Some (chunks, fin))) =
     match deliver later with
     | (calls, Normal) => calls ++ [final fin]
     | (calls, _) => calls
     end) /\
  (forall props d,
     lookup (lit "done") props = Some d -> truthy d = true ->
     dispatch (JObj props) = ([OnDone], Return)) /\
  (forall props e,
     truthy_opt (lookup (lit "done") props) = false ->
     lookup (lit "error") props = Some e -> truthy e = true ->
     dispatch (JObj props) = ([OnError e], Return)) /\
  (forall props c,
     truthy_opt (lookup (lit "done") props) = false ->
     truthy_opt (lookup (lit "error") props) = false ->
     lookup (lit "content") props = Some c -> truthy c = true ->
     dispatch (JObj props) = ([OnChunk c], Normal)).
Proof.
  split; [|split; [|split; [|split; [|split]]]].
  - intros props Hd He Hc. unfold dispatch. cbn [get].
    rewrite He, Hc. destruct Hd as [-> | ->]; reflexivity.
  - reflexivity.
  - intros later chunks fin Hl Hc.
    rewrite (streamChat_wire (Error [] :: later) chunks fin);
      [| constructor; [constructor | exact Hl] | exact Hc].
    cbn [deliver delivery nonempty app].
    destruct (deliver later) as [calls c]. reflexivity.
  - intros props d Hd Ht. unfold dispatch. cbn [get].
    now rewrite Hd, (when_truthy_true d Ht).
  - intros props e Hd He Ht. unfold dispatch. cbn [get].
    now rewrite (when_truthy_false _ Hd), He, (when_truthy_true e Ht).
  - intros props c Hd He Hc Ht. unfold dispatch. cbn [get].
    now rewrite (when_truthy_false _ Hd), (when_truthy_false _ He), Hc,
      (when_truthy_true c Ht).
Qed.

(** Frames with both [done] and [error]: done wins when it is true, the
    error is reported when [done] is false. *)
Lemma C10_scenario :
  dispatch (JObj [(lit "done", JBool true); (lit "error", JStr (lit "x"))]) =
    ([OnDone], Return) /\
  dispatch (JObj [(lit "error", JStr (lit "x")); (lit "done", JBool true)]) =
    ([OnDone], Return) /\
  dispatch (JObj [(lit "done", JBool false); (lit "error", JStr []);
                  (lit "content", JStr [])]) = ([], Normal) /\
  dispatch (JObj [(lit "done", JBool false); (lit "error", JStr (lit "x"));
                  (lit "content", JStr (lit "y"))]) =
    ([OnError (JStr (lit "x"))], Return).
Proof.
  destruct C10_dispatch_by_truthiness as [H1 [_ [_ [H4 [H5 _]]]]].
  split; [|split; [|split]].
  - apply (H4 _ (JBool true)); reflexivity.
  - apply (H4 _ (JBool true)); reflexivity.
  - apply H1; [right|..]; reflexivity.
  - apply H5; reflexivity.
Defined.

End Client.

Section Enrichment.
Import JsString Json Utf8 StockData Routes Api Pipeline.

(** ** Quotes and enrichment *)



Lemma market_index_names {N : Numbers} (now : number) :
  map i_name (getMarketIndices now) = [lit "S&P 500"; lit "NASDAQ"; lit "DOW"].
Proof. reflexivity. Qed.

Lemma stock_block_nil_iff (lines : list jstr) : stock_block lines = [] <-> lines = [].
Proof.
  destruct lines; cbn [stock_block]; split; intros H; try reflexivity; discriminate.
Qed.



(** "Compare NVDA vs AMD" mentions NVDA, AMD, and V, which both "NVDA" and
    "VS" contain; "hello" mentions nothing. *)
Example mentioned_compare :
  mentionedStocks (N:=Platform.terms) (C:=Platform.ascii) (lit "Compare NVDA vs AMD") =
    [lit "NVDA"; lit "V"; lit "AMD"] /\
  mentionedStocks (N:=Platform.terms) (C:=Platform.ascii) (lit "hello") = [].
Proof. split; vm_compute; reflexivity. Qed.

End Enrichment.

(* ================================================================== *)
(** * Storage and arrays of strings *)
(* ================================================================== *)

Section StorageFacts.
Import JsString Json AsyncStorage JsonArray.

Lemma eqb_sym_false (a b : jstr) : eqb a b = false -> eqb b a = false.
Proof. rewrite !eqb_neq. intros H E. now apply H. Qed.

Lemma getItem_removeItem (key key' : jstr) (st : storage) :
  getItem key' (removeItem key st) =
  if eqb key key' then None else getItem key' st.
Proof.
  induction st as [|[k v] rest IH]; cbn [removeItem getItem].
  - now destruct (eqb key key').
  - destruct (eqb k key) eqn:E.
    + apply eqb_eq in E. rewrite E. rewrite IH.
      destruct (eqb key key'); reflexivity.
    + cbn [getItem]. rewrite IH.
      destruct (eqb k key') eqn:E'; [|reflexivity].
      apply eqb_eq in E'. rewrite <- E'. now rewrite eqb_sym_false.
Qed.

Lemma getItem_setItem (key value : jstr) (st : storage) :
  getItem key (setItem key value st) = Some value.
Proof. unfold setItem. cbn [getItem]. now rewrite eqb_refl. Qed.

Lemma getItem_setItem_other (key key' value : jstr) (st : storage) :
  key <> key' -> getItem key' (setItem key value st) = getItem key' st.
Proof.
  intros H. unfold setItem. cbn [getItem].
  apply eqb_neq in H. rewrite H, getItem_removeItem. now rewrite H.
Qed.

Lemma QuoteJSONString_length (s : jstr) :
  (2 <= List.length (QuoteJSONString s))%nat.
Proof.
  unfold QuoteJSONString. cbn [List.length]. rewrite length_app.
  cbn [List.length]. lia.
Qed.

Lemma join_quoted_length (l : list jstr) :
  (List.length l <= List.length (join (lit ",") (map QuoteJSONString l)))%nat.
Proof.
  induction l as [|x r IH]; cbn [map join List.length]; [lia|].
  pose proof (QuoteJSONString_length x) as Hx.
  destruct (map QuoteJSONString r) as [|y ys] eqn:E.
  - destruct r; [cbn [List.length]; lia | discriminate].
  - rewrite !length_app. cbn [List.length] in *. lia.
Qed.

Lemma skip_ws_literal (c : Z) (r : jstr) :
  is_ws c = false -> skip_ws (c :: r) = c :: r.
Proof. intros H. cbn [skip_ws]. now rewrite H. Qed.

Lemma parse_value_string (f : nat) (s rest : jstr) :
  well_formed s ->
  parse_value (S f) (QuoteJSONString s ++ rest) = Ok (JStr s, rest).
Proof.
  intros Hs. unfold QuoteJSONString. cbn [app parse_value].
  rewrite skip_ws_literal by reflexivity.
  change (dquote =? 123) with false. change (dquote =? 91) with false.
  cbn iota. cbn [parse_scalar]. rewrite Z.eqb_refl.
  rewrite <- app_assoc. cbn [app].
  now rewrite parse_chars_quote_chars.
Qed.

(** The elements of an array of strings, after the opening bracket. *)
Lemma parse_elements_strings (l : list jstr) :
  forall (x : jstr) (acc : list json) (rest : jstr) (f : nat),
  (List.length l + 2 <= f)%nat ->
  Forall well_formed (x :: l) ->
  parse_elements f
    (join [44] (map QuoteJSONString (x :: l)) ++ 93 :: rest) acc
  = Ok (JArr (rev acc ++ map JStr (x :: l)), rest).
Proof.
  induction l as [|y l IH]; intros x acc rest f Hf Hw;
    inversion Hw as [|? ? Hx Hl]; subst.
  - destruct f as [|[|f]]; [cbn [List.length] in Hf; lia ..|].
    cbn [map join parse_elements].
    rewrite parse_value_string by assumption.
    rewrite skip_ws_literal by reflexivity.
    change (93 =? 44) with false. change (93 =? 93) with true.
    cbn iota. cbn [rev map]. reflexivity.
  - cbn [List.length] in Hf.
    destruct f as [|f]; [lia|].
    change (join [44] (map QuoteJSONString (x :: y :: l)))
      with (QuoteJSONString x ++ [44]
            ++ join [44] (map QuoteJSONString (y :: l))).
    rewrite <- !app_assoc. cbn [parse_elements].
    destruct f as [|f]; [lia|].
    rewrite parse_value_string by assumption.
    cbn [app]. rewrite skip_ws_literal by reflexivity.
    change (44 =? 44) with true. cbn iota.
    rewrite (IH y (JStr x :: acc) rest (S f)); [|lia|assumption].
    cbn [rev map]. now rewrite <- app_assoc.
Qed.

(** What [JSON.stringify] writes for an array of strings, [JSON.parse]
    reads back as the array of the same strings. *)
Theorem JSON_parse_stringify_strings (l : list jstr) :
  Forall well_formed l ->
  JSON_parse (stringify_strings l) = Ok (JArr (map JStr l)).
Proof.
  intros Hw. unfold JSON_parse, stringify_strings, stringify_items.
  destruct l as [|x l]; [reflexivity|].
  unfold parse_fuel.
  change (lit ",") with [44]. change (lit "[") with [91]. change (lit "]") with [93].
  remember (join [44] (map QuoteJSONString (x :: l))) as body eqn:Hb.
  assert (Hlen : (List.length (x :: l) <= List.length body)%nat)
    by (subst body; apply join_quoted_length).
  assert (Hq : exists r, body = dquote :: r).
  { subst body. destruct l; cbn [map join]; unfold QuoteJSONString at 1;
      cbn [app]; eexists; reflexivity. }
  destruct Hq as [r Hr].
  cbn [app List.length]. rewrite length_app. cbn [List.length] in *.
  replace (2 * S (List.length body + 1))%nat
    with (S (S (List.length l + 2 + (2 * List.length body - List.length l))))%nat
    by lia.
  cbn [parse_value]. rewrite skip_ws_literal by reflexivity.
  change (91 =? 123) with false. change (91 =? 91) with true. cbn iota.
  rewrite Hr. cbn [app]. rewrite skip_ws_literal by reflexivity.
  change (dquote =? 93) with false. cbn iota.
  change (dquote :: r ++ [93]) with ((dquote :: r) ++ 93 :: []).
  rewrite <- Hr, Hb.
  rewrite parse_elements_strings; [reflexivity | lia | assumption].
Qed.

End StorageFacts.

(* ================================================================== *)
(** * The portfolio: holdings and watchlist *)
(* ================================================================== *)

Section PortfolioFacts.
Import JsString Json AsyncStorage JsonArray Portfolio.
Context {N : Numbers} {J : NumberJson}.

Lemma eqb_sym (a b : jstr) : eqb a b = eqb b a.
Proof.
  destruct (eqb a b) eqn:E.
  - apply eqb_eq in E. subst. now rewrite eqb_refl.
  - symmetry. now apply eqb_sym_false.
Qed.

Lemma find_holding_filter (sym removed : jstr) (hs : list PortfolioItem) :
  find_holding sym (filter (other_symbol removed) hs) =
  if eqb sym removed then None else find_holding sym hs.
Proof.
  unfold find_holding, other_symbol.
  induction hs as [|h r IH]; cbn [filter find].
  - now destruct (eqb sym removed).
  - destruct (eqb (symbol h) removed) eqn:Er; cbn [negb].
    + rewrite IH. destruct (eqb sym removed) eqn:Es; [reflexivity|].
      destruct (eqb (symbol h) sym) eqn:Eh; [|reflexivity].
      apply eqb_eq in Er, Eh. subst. now rewrite eqb_refl in Es.
    + cbn [find]. rewrite IH.
      destruct (eqb (symbol h) sym) eqn:Eh; [|reflexivity].
      apply eqb_eq in Eh. subst sym. now rewrite Er.
Qed.

Lemma find_holding_app (sym : jstr) (a b : list PortfolioItem) :
  find_holding sym (a ++ b) =
  match find_holding sym a with
  | Some h => Some h
  | None => find_holding sym b
  end.
Proof.
  unfold find_holding. induction a as [|h r IH]; cbn [app find]; [reflexivity|].
  now destruct (eqb (symbol h) sym).
Qed.

Lemma filter_other_symbols (sym : jstr) (hs : list PortfolioItem) :
  map symbol (filter (other_symbol sym) hs) =
  filter (fun s => negb (eqb s sym)) (map symbol hs).
Proof.
  unfold other_symbol. induction hs as [|h r IH]; cbn [filter map]; [reflexivity|].
  destruct (eqb (symbol h) sym); cbn [negb map]; now rewrite IH.
Qed.

Lemma NoDup_filter {A : Type} (p : A -> bool) (l : list A) :
  NoDup l -> NoDup (filter p l).
Proof.
  induction 1 as [|x l Hx _ IH]; cbn [filter]; [constructor|].
  destruct (p x); [|exact IH].
  constructor; [|exact IH]. intros H. apply filter_In in H. tauto.
Qed.

Lemma filter_absent (sym : jstr) (l : list jstr) :
  ~ In sym l -> filter (fun s => negb (eqb s sym)) l = l.
Proof.
  induction l as [|x r IH]; cbn [filter In]; intros H; [reflexivity|].
  destruct (eqb x sym) eqn:E.
  - apply eqb_eq in E. tauto.
  - cbn [negb]. rewrite IH by tauto. reflexivity.
Qed.

Lemma filter_other_absent (sym : jstr) (hs : list PortfolioItem) :
  find_holding sym hs = None -> filter (other_symbol sym) hs = hs.
Proof.
  unfold find_holding, other_symbol.
  induction hs as [|h r IH]; cbn [filter find]; intros H; [reflexivity|].
  destruct (eqb (symbol h) sym); [discriminate|].
  cbn [negb]. now rewrite IH.
Qed.

(** [addHolding] inserts or replaces: the holding of the symbol of the item
    is the item, the holding of every other symbol is what it was, the
    symbols stay distinct, the watchlist is untouched, and the new list is
    what is stored. *)
Theorem addHolding_upsert (item : PortfolioItem) (st : state) :
  (forall sym,
     find_holding sym (holdings (addHolding item st)) =
     if eqb sym (symbol item) then Some item
     else find_holding sym (holdings st)) /\
  count_occ (list_eq_dec Z.eq_dec) (map symbol (holdings (addHolding item st)))
            (symbol item) = 1%nat /\
  (distinct_symbols (holdings st) ->
   distinct_symbols (holdings (addHolding item st))) /\
  watchlist (addHolding item st) = watchlist st /\
  getItem holdings_key (store (addHolding item st)) =
    Some (stringify_holdings (holdings (addHolding item st))).
Proof.
  unfold addHolding, set_holdings. cbn [holdings watchlist store].
  split; [|split; [|split; [|split]]].
  - intros sym. rewrite find_holding_app, find_holding_filter.
    destruct (eqb sym (symbol item)) eqn:E.
    + unfold find_holding. cbn [find]. now rewrite eqb_sym, E.
    + destruct (find_holding sym (holdings st)); [reflexivity|].
      unfold find_holding. cbn [find]. now rewrite eqb_sym, E.
  - rewrite map_app, count_occ_app, filter_other_symbols. cbn [map count_occ].
    destruct (list_eq_dec Z.eq_dec (symbol item) (symbol item)); [|contradiction].
    rewrite (proj1 (count_occ_not_In _ _ _)); [reflexivity|].
    intros H. apply filter_In in H as [_ H]. now rewrite eqb_refl in H.
  - unfold distinct_symbols. intros Hd.
    rewrite map_app, filter_other_symbols. cbn [map].
    apply NoDup_app; [now apply NoDup_filter | repeat constructor; intros [] |].
    intros s Hs [<- | []]. apply filter_In in Hs as [_ Hs].
    now rewrite eqb_refl in Hs.
  - reflexivity.
  - apply getItem_setItem.
Qed.

(** [removeHolding] deletes one symbol: no holding of the symbol is left,
    the holding of every other symbol is what it was, and when the symbol
    had no holding the list is the same list. *)
Theorem removeHolding_deletes (sym : jstr) (st : state) :
  (forall s,
     find_holding s (holdings (removeHolding sym st)) =
     if eqb s sym then None else find_holding s (holdings st)) /\
  ~ In sym (map symbol (holdings (removeHolding sym st))) /\
  (find_holding sym (holdings st) = None ->
   holdings (removeHolding sym st) = holdings st) /\
  (distinct_symbols (holdings st) ->
   distinct_symbols (holdings (removeHolding sym st))) /\
  getItem holdings_key (store (removeHolding sym st)) =
    Some (stringify_holdings (holdings (removeHolding sym st))).
Proof.
  unfold removeHolding, set_holdings. cbn [holdings store].
  split; [|split; [|split; [|split]]].
  - intros s. apply find_holding_filter.
  - rewrite filter_other_symbols. intros H. apply filter_In in H as [_ H].
    now rewrite eqb_refl in H.
  - apply filter_other_absent.
  - unfold distinct_symbols. rewrite filter_other_symbols. apply NoDup_filter.
  - apply getItem_setItem.
Qed.

(** Adding a holding of a symbol that had none and removing it again gives
    back the list of holdings. *)
Theorem removeHolding_addHolding (item : PortfolioItem) (st : state) :
  find_holding (symbol item) (holdings st) = None ->
  holdings (removeHolding (symbol item) (addHolding item st)) = holdings st.
Proof.
  intros H. unfold removeHolding, addHolding, set_holdings. cbn [holdings].
  rewrite filter_app. cbn [filter].
  change (other_symbol (symbol item) item)
    with (negb (eqb (symbol item) (symbol item))).
  rewrite eqb_refl. cbn [negb]. rewrite app_nil_r.
  rewrite (filter_other_absent _ _ H). apply (filter_other_absent _ _ H).
Qed.

Lemma existsb_eqb_In (sym : jstr) (l : list jstr) :
  existsb (eqb sym) l = true <-> In sym l.
Proof.
  rewrite existsb_exists. split.
  - intros [x [Hx E]]. apply eqb_eq in E. now subst.
  - intros H. exists sym. split; [assumption | apply eqb_refl].
Qed.

Lemma isInWatchlist_add (s sym : jstr) (st : state) :
  isInWatchlist s (addToWatchlist sym st) = eqb s sym || isInWatchlist s st.
Proof.
  unfold addToWatchlist, isInWatchlist.
  destruct (existsb (eqb sym) (watchlist st)) eqn:E.
  - destruct (eqb s sym) eqn:Es; [|reflexivity].
    apply eqb_eq in Es. subst s. now rewrite E.
  - cbn [set_watchlist watchlist]. rewrite existsb_app. cbn [existsb].
    rewrite orb_false_r, orb_comm. reflexivity.
Qed.

Lemma isInWatchlist_remove (s sym : jstr) (st : state) :
  isInWatchlist s (removeFromWatchlist sym st) =
  negb (eqb s sym) && isInWatchlist s st.
Proof.
  unfold removeFromWatchlist, isInWatchlist. cbn [set_watchlist watchlist].
  induction (watchlist st) as [|x r IH]; cbn [filter existsb].
  - now rewrite andb_false_r.
  - destruct (eqb x sym) eqn:Ex; cbn [negb existsb].
    + rewrite IH. apply eqb_eq in Ex. subst x.
      destruct (eqb s sym) eqn:Es; [reflexivity|]. now cbn.
    + rewrite IH. destruct (eqb s x) eqn:Esx; [|reflexivity].
      apply eqb_eq in Esx. subst x. now rewrite Ex.
Qed.

Lemma watchlist_remove_add (sym : jstr) (st : state) :
  isInWatchlist sym st = false ->
  watchlist (removeFromWatchlist sym (addToWatchlist sym st)) = watchlist st.
Proof.
  unfold removeFromWatchlist, addToWatchlist, isInWatchlist. intros H.
  rewrite H. cbn [set_watchlist watchlist].
  rewrite filter_app. cbn [filter]. rewrite eqb_refl. cbn [negb].
  rewrite app_nil_r. apply filter_absent.
  intros Hin. apply existsb_eqb_In in Hin. congruence.
Qed.

(** The watchlist is a set: [addToWatchlist] makes the symbol a member and
    changes no other membership, adds nothing twice, and when the symbol is
    a member already it changes neither the state nor the storage. *)
Theorem addToWatchlist_member (sym : jstr) (st : state) :
  (forall s, isInWatchlist s (addToWatchlist sym st) =
             eqb s sym || isInWatchlist s st) /\
  (NoDup (watchlist st) -> NoDup (watchlist (addToWatchlist sym st))) /\
  (isInWatchlist sym st = true -> addToWatchlist sym st = st) /\
  (isInWatchlist sym st = false ->
   watchlist (addToWatchlist sym st) = watchlist st ++ [sym]) /\
  holdings (addToWatchlist sym st) = holdings st.
Proof.
  split; [intros s; apply isInWatchlist_add|].
  unfold addToWatchlist, isInWatchlist.
  destruct (existsb (eqb sym) (watchlist st)) eqn:E.
  - split; [|split; [|split]]; try reflexivity; try discriminate. auto.
  - cbn [set_watchlist watchlist holdings].
    split; [|split; [|split]]; try reflexivity; try discriminate.
    intros Hd. apply NoDup_app; [assumption | repeat constructor; intros [] |].
    intros s Hs [<- | []]. apply existsb_eqb_In in Hs. congruence.
Qed.

(** [removeFromWatchlist] takes the symbol out and changes no other
    membership; after adding a symbol that was not a member, removing it
    gives back the watchlist. *)
Theorem removeFromWatchlist_member (sym : jstr) (st : state) :
  (forall s, isInWatchlist s (removeFromWatchlist sym st) =
             negb (eqb s sym) && isInWatchlist s st) /\
  (NoDup (watchlist st) -> NoDup (watchlist (removeFromWatchlist sym st))) /\
  (isInWatchlist sym st = false ->
   watchlist (removeFromWatchlist sym (addToWatchlist sym st)) = watchlist st).
Proof.
  split; [intros s; apply isInWatchlist_remove|].
  split; [|apply watchlist_remove_add].
  unfold removeFromWatchlist. cbn [set_watchlist watchlist]. apply NoDup_filter.
Qed.

(** The watchlist button of the stock screen flips the membership of its
    symbol and of no other; pressed twice it leaves every membership as it
    was, and the list itself when the symbol was not on it (a symbol that
    was on it moves to the end). *)
Theorem toggleWatchlist_flips (sym : jstr) (st : state) :
  (forall s, isInWatchlist s (StockScreen.toggleWatchlist sym st) =
             if eqb s sym then negb (isInWatchlist sym st)
             else isInWatchlist s st) /\
  (forall s, isInWatchlist s (StockScreen.toggleWatchlist sym
                                (StockScreen.toggleWatchlist sym st)) =
             isInWatchlist s st) /\
  (isInWatchlist sym st = false ->
   watchlist (StockScreen.toggleWatchlist sym
                (StockScreen.toggleWatchlist sym st)) = watchlist st) /\
  (isInWatchlist sym st = true ->
   watchlist (StockScreen.toggleWatchlist sym
                (StockScreen.toggleWatchlist sym st)) =
   filter (fun s => negb (eqb s sym)) (watchlist st) ++ [sym]).
Proof.
  assert (Hflip : forall (st : state) s,
             isInWatchlist s (StockScreen.toggleWatchlist sym st) =
             if eqb s sym then negb (isInWatchlist sym st)
             else isInWatchlist s st).
  { intros st0 s. unfold StockScreen.toggleWatchlist.
    destruct (isInWatchlist sym st0) eqn:E.
    - rewrite isInWatchlist_remove. destruct (eqb s sym) eqn:Es; reflexivity.
    - rewrite isInWatchlist_add. destruct (eqb s sym) eqn:Es; reflexivity. }
  split; [apply Hflip|]. split; [|split].
  - intros s. rewrite !Hflip, eqb_refl.
    destruct (eqb s sym) eqn:Es; [|reflexivity].
    apply eqb_eq in Es. subst s. apply negb_involutive.
  - intros H. unfold StockScreen.toggleWatchlist at 1.
    rewrite Hflip, eqb_refl, H. cbn [negb].
    unfold StockScreen.toggleWatchlist. rewrite H.
    now apply watchlist_remove_add.
  - intros H. unfold StockScreen.toggleWatchlist at 1.
    rewrite Hflip, eqb_refl, H. cbn [negb].
    unfold StockScreen.toggleWatchlist. rewrite H.
    unfold addToWatchlist.
    pose proof (isInWatchlist_remove sym sym st) as Hr.
    rewrite eqb_refl in Hr. cbn [negb andb] in Hr.
    unfold isInWatchlist in Hr. rewrite Hr. reflexivity.
Qed.

Lemma keys_differ : holdings_key <> watchlist_key.
Proof. discriminate. Qed.

(** Every operation keeps the stored watchlist in step with the state.
    The operations on the holdings leave the watchlist and the item stored
    for it as they are, and those on the watchlist leave the holdings and
    the item stored for them. *)
Theorem watchlist_stays_synced (st : state) :
  watchlist_synced st ->
  (forall item, watchlist_synced (addHolding item st)) /\
  (forall sym, watchlist_synced (removeHolding sym st)) /\
  (forall sym, watchlist_synced (addToWatchlist sym st)) /\
  (forall sym, watchlist_synced (removeFromWatchlist sym st)) /\
  (forall item,
     getItem watchlist_key (store (addHolding item st)) =
       getItem watchlist_key (store st) /\
     watchlist (addHolding item st) = watchlist st) /\
  (forall sym,
     getItem watchlist_key (store (removeHolding sym st)) =
       getItem watchlist_key (store st) /\
     watchlist (removeHolding sym st) = watchlist st) /\
  (forall sym,
     getItem holdings_key (store (addToWatchlist sym st)) =
       getItem holdings_key (store st) /\
     holdings (addToWatchlist sym st) = holdings st) /\
  (forall sym,
     getItem holdings_key (store (removeFromWatchlist sym st)) =
       getItem holdings_key (store st) /\
     holdings (removeFromWatchlist sym st) = holdings st).
Proof.
  intros H.
  assert (Hk : watchlist_key <> holdings_key) by discriminate.
  split; [|split; [|split; [|split; [|split; [|split; [|split]]]]]].
  - intros item. unfold watchlist_synced in *.
    unfold addHolding, set_holdings. cbn [store watchlist].
    now rewrite getItem_setItem_other by apply keys_differ.
  - intros sym. unfold watchlist_synced in *.
    unfold removeHolding, set_holdings. cbn [store watchlist].
    now rewrite getItem_setItem_other by apply keys_differ.
  - intros sym. unfold watchlist_synced in *. unfold addToWatchlist.
    destruct (existsb (eqb sym) (watchlist st)); [exact H|].
    cbn [set_watchlist store watchlist]. now rewrite getItem_setItem.
  - intros sym. unfold watchlist_synced in *. unfold removeFromWatchlist.
    cbn [set_watchlist store watchlist]. now rewrite getItem_setItem.
  - intros item. split; [|reflexivity].
    unfold addHolding, set_holdings. cbn [store].
    now rewrite getItem_setItem_other by apply keys_differ.
  - intros sym. split; [|reflexivity].
    unfold removeHolding, set_holdings. cbn [store].
    now rewrite getItem_setItem_other by apply keys_differ.
  - intros sym. unfold addToWatchlist.
    destruct (existsb (eqb sym) (watchlist st)); [split; reflexivity|].
    split; [|reflexivity]. unfold set_watchlist. cbn [store].
    now rewrite getItem_setItem_other by exact Hk.
  - intros sym. split; [|reflexivity].
    unfold removeFromWatchlist, set_watchlist. cbn [store].
    now rewrite getItem_setItem_other by exact Hk.
Qed.

Lemma stringify_strings_nonempty (l : list jstr) :
  nonempty (stringify_strings l) = true.
Proof. reflexivity. Qed.

(** What the provider reads back when it mounts again: the array of the
    strings of the watchlist, as long as the stored holdings are JSON (or
    absent); when the stored holdings are not JSON nothing is restored,
    whatever the stored watchlist. *)
Theorem restore_watchlist (st : state) :
  watchlist_synced st ->
  Forall well_formed (watchlist st) ->
  (match truthy_item (getItem holdings_key (store st)) with
   | Some text => JSON_parse text <> SyntaxError
   | None => True
   end ->
   restored_watchlist (restore (store st)) =
   match getItem watchlist_key (store st) with
   | Some _ => Some (strings_value (watchlist st))
   | None => None
   end) /\
  (forall text,
     truthy_item (getItem holdings_key (store st)) = Some text ->
     JSON_parse text = SyntaxError ->
     restore (store st) =
     {| restored_holdings := None; restored_watchlist := None |}).
Proof.
  intros Hs Hw. unfold watchlist_synced in Hs. split.
  - intros Hh. unfold restore.
    assert (Hparse : match truthy_item (getItem watchlist_key (store st)) with
                     | Some text =>
                         match JSON_parse text with
                         | Ok v => Some v
                         | _ => None
                         end
                     | None => None
                     end =
                     match getItem watchlist_key (store st) with
                     | Some _ => Some (strings_value (watchlist st))
                     | None => None
                     end).
    { destruct (getItem watchlist_key (store st)) as [text|]; [|reflexivity].
      subst text. cbn [truthy_item]. rewrite stringify_strings_nonempty.
      now rewrite JSON_parse_stringify_strings. }
    rewrite Hparse.
    destruct (truthy_item (getItem holdings_key (store st))) as [text|];
      [|reflexivity].
    pose proof (JSON_parse_total text) as Ht.
    destruct (JSON_parse text); [reflexivity | contradiction | contradiction].
  - intros text Ht Hp. unfold restore. now rewrite Ht, Hp.
Qed.

End PortfolioFacts.

Section PortfolioScenarios.
Import JsString Json AsyncStorage JsonArray Portfolio Scenario2.
#[local] Existing Instance Platform.terms.
#[local] Existing Instance Platform2.terms_json.

Lemma removeHolding_addHolding_witness :
  holdings (removeHolding (lit "AAPL") (addHolding apple mounted)) = [].
Proof.
  apply (removeHolding_addHolding (N:=Platform.terms) (J:=Platform2.terms_json)
           apple mounted).
  reflexivity.
Defined.

Lemma watchlist_stays_synced_witness :
  watchlist_synced (addToWatchlist (lit "AAPL") mounted).
Proof.
  apply (proj1 (proj2 (proj2 (watchlist_stays_synced (N:=Platform.terms)
                                (J:=Platform2.terms_json) mounted eq_refl)))).
Defined.

Lemma restore_watchlist_witness :
  restored_watchlist
    (restore (store (addToWatchlist (lit "AAPL") (addHolding apple mounted)))) =
  Some (strings_value [lit "AAPL"]).
Proof.
  refine (proj1 (restore_watchlist (N:=Platform.terms)
                   (addToWatchlist (lit "AAPL") (addHolding apple mounted)) _ _) _).
  - reflexivity.
  - constructor; [apply well_formed_check; reflexivity | constructor].
  - vm_compute. discriminate.
Defined.

End PortfolioScenarios.

(* ================================================================== *)
(** * The theme *)
(* ================================================================== *)

Section ThemeFacts.
Import JsString AsyncStorage Theme.

(** What [toggleTheme] and [setTheme] store is what a provider that mounts
    on the same storage takes as its mode; toggling twice gives back the
    mode. *)
Theorem theme_round_trip (s : state) :
  (forall m, mode (restore (initial (store (setTheme m s)))) = m) /\
  mode (restore (initial (store (toggleTheme s)))) = mode (toggleTheme s) /\
  mode (toggleTheme (toggleTheme s)) = mode s /\
  mode (toggleTheme s) <> mode s /\
  getItem theme_key (store (toggleTheme (toggleTheme s))) = Some (mode_text (mode s)).
Proof.
  split; [|split; [|split; [|split]]].
  - intros m. unfold restore, initial, setTheme. cbn [store mode].
    rewrite getItem_setItem. destruct m; reflexivity.
  - unfold restore, initial, toggleTheme. cbn [store mode].
    rewrite getItem_setItem. destruct (mode s); reflexivity.
  - unfold toggleTheme. cbn [mode]. destruct (mode s); reflexivity.
  - unfold toggleTheme. cbn [mode]. destruct (mode s); discriminate.
  - unfold toggleTheme. cbn [mode store]. rewrite getItem_setItem.
    destruct (mode s); reflexivity.
Qed.

(** A stored text that is neither [light] nor [dark], or no stored text,
    leaves the mode as it is: a provider that mounts on such a storage is
    dark. *)
Theorem theme_restore_other (s : state) :
  match getItem theme_key (store s) with
  | Some saved => saved <> lit "light" /\ saved <> lit "dark"
  | None => True
  end ->
  restore s = s /\ isDark (restore (initial (store s))) = true.
Proof.
  intros H. unfold restore, initial. cbn [store mode].
  destruct (getItem theme_key (store s)) as [saved|]; [|split; reflexivity].
  destruct H as [Hl Hd]. apply eqb_neq in Hl, Hd. rewrite Hl, Hd.
  split; reflexivity.
Qed.

Lemma theme_restore_other_witness :
  restore Scenario2.sepia = Scenario2.sepia /\
  isDark (restore (initial (store Scenario2.sepia))) = true.
Proof.
  apply (theme_restore_other Scenario2.sepia).
  split; discriminate.
Defined.

End ThemeFacts.

(* ================================================================== *)
(** * More on the stream client and the chat handler *)
(* ================================================================== *)

Section StreamFacts.
Import JsString Json Utf8 StockData Routes Api Pipeline.

Lemma decode_all_app (a b : list bytes) :
  forall d : decoder,
  exists d', decode_all d (a ++ b) = decode_all d a ++ decode_all d' b.
Proof.
  induction a as [|v r IH]; intros d; cbn [app decode_all].
  - now exists d.
  - destruct (decode d v) as [d1 t]. destruct (IH d1) as [d' E].
    exists d'. now rewrite E, app_assoc.
Qed.

Lemma process_line_terminal (line : jstr) :
  terminal_frame line = true ->
  exists calls, process_line line = (calls, Return).
Proof.
  unfold terminal_frame, process_line. intros H.
  apply andb_true_iff in H as [Hs H]. rewrite Hs. cbn [negb].
  unfold try_catch, try_body.
  destruct (JSON_parse (slice 6 line)) as [data| |]; try discriminate.
  destruct data as [|b|n|s|items|props]; try discriminate.
  unfold dispatch. cbn [get].
  destruct (lookup (lit "done") props) as [d|]; cbn [truthy_opt when_truthy] in *.
  - destruct (truthy d); [now eexists|]. cbn [orb] in H.
    destruct (lookup (lit "error") props) as [e|]; cbn [truthy_opt when_truthy] in *;
      [|discriminate].
    rewrite H. now eexists.
  - cbn [orb] in H.
    destruct (lookup (lit "error") props) as [e|]; cbn [truthy_opt when_truthy] in *;
      [|discriminate].
    rewrite H. now eexists.
Qed.

Lemma for_lines_terminal (lines : list jstr) :
  Exists (fun l => terminal_frame l = true) lines ->
  exists calls, for_lines lines = (calls, Return).
Proof.
  induction 1 as [l r Hl | l r _ [calls' E']]; cbn [for_lines].
  - destruct (process_line_terminal l Hl) as [calls E]. rewrite E. now eexists.
  - destruct (process_line_shape l) as [calls [c [E [[-> _] | [-> _]]]]]; rewrite E.
    + rewrite E'. now eexists.
    + now eexists.
Qed.

(** Where the reader cuts the bytes does not matter: two sequences of
    chunks with the same bytes cause the same calls. *)
Theorem streamChat_rechunk (chunks chunks' : list bytes) (fin : stream_end) :
  List.concat chunks = List.concat chunks' ->
  streamChat (Responded true (Some (chunks, fin))) =
  streamChat (Responded true (Some (chunks', fin))).
Proof.
  intros H. rewrite !streamChat_lines, !decode_all_concat. now rewrite H.
Qed.

Lemma streamChat_rechunk_witness :
  streamChat (Responded true (Some (Scenario.cut Scenario.completed, Closed))) =
  streamChat (Responded true
                (Some ([encode (body_text Scenario.completed)], Closed))).
Proof.
  apply (streamChat_rechunk (Scenario.cut Scenario.completed)
           [encode (body_text Scenario.completed)] Closed).
  vm_compute. reflexivity.
Defined.

(** Once a completed line is a frame with a truthy [done] or [error],
    [streamChat] has returned: the chunks that follow, and the way the
    stream stops, change nothing. *)
Theorem streamChat_stops_at_terminal (chunks more : list bytes)
    (fin fin' : stream_end) :
  Exists (fun l => terminal_frame l = true)
         (complete_lines (decode_all new_decoder chunks)) ->
  streamChat (Responded true (Some (chunks ++ more, fin))) =
  streamChat (Responded true (Some (chunks, fin'))).
Proof.
  intros H. rewrite !streamChat_lines.
  destruct (decode_all_app chunks more new_decoder) as [d' ->].
  rewrite complete_lines_app, run_lines_app.
  destruct (for_lines_terminal _ H) as [calls E].
  unfold run_lines. now rewrite E.
Qed.

Lemma terminal_check (lines : list jstr) :
  existsb terminal_frame lines = true ->
  Exists (fun l => terminal_frame l = true) lines.
Proof.
  intros H. apply existsb_exists in H as [l [Hl Ht]].
  apply Exists_exists. now exists l.
Qed.

Lemma streamChat_stops_at_terminal_witness :
  streamChat (Responded true
                (Some (Scenario.cut Scenario.failed ++ Scenario.noise, Broken [])))
  = streamChat (Responded true (Some (Scenario.cut Scenario.failed, Closed))).
Proof.
  apply (streamChat_stops_at_terminal (Scenario.cut Scenario.failed)
           Scenario.noise (Broken []) Closed).
  apply terminal_check. vm_compute. reflexivity.
Defined.

(** A stream that breaks before a terminal frame: the calls are those of
    the same stream when it closes, with [onError] in the place of
    [onDone]; the text is the message of the failure, or [Network error]
    when that is empty. *)
Theorem streamChat_broken (chunks : list bytes) (message : jstr) :
  Forall (fun l => terminal_frame l = false)
         (complete_lines (decode_all new_decoder chunks)) ->
  exists calls,
    streamChat (Responded true (Some (chunks, Broken message))) =
      calls ++ [OnError (JStr (if nonempty message then message
                               else lit "Network error"))] /\
    streamChat (Responded true (Some (chunks, Closed))) = calls ++ [OnDone] /\
    Forall (fun x => is_chunk x = true) calls.
Proof.
  intros H. rewrite !streamChat_lines. unfold run_lines.
  destruct (for_lines_chunks _ H) as [calls [E F]]. rewrite E.
  exists calls. repeat split. exact F.
Qed.

Lemma streamChat_broken_witness :
  exists calls,
    streamChat (Responded true (Some (Scenario.noise, Broken []))) =
      calls ++ [OnError (JStr (lit "Network error"))] /\
    streamChat (Responded true (Some (Scenario.noise, Closed))) = calls ++ [OnDone] /\
    Forall (fun x => is_chunk x = true) calls.
Proof.
  apply (streamChat_broken Scenario.noise []).
  apply no_terminal_check. vm_compute. reflexivity.
Defined.

Lemma json_reply_client (code : Z) (text : jstr) (res : Res) (chunks : list bytes) :
  code = 400 \/ code = 500 ->
  streamChat (fetch (status_json code text res) chunks) =
  [OnError (JStr (lit "Failed to connect to AI"))].
Proof. intros [-> | ->]; reflexivity. Qed.

Lemma on_failure_prepared :
  on_failure prepared = status_json 500 (lit "Failed to process chat") prepared.
Proof. reflexivity. Qed.

Lemma on_failure_no_content (fragments : list (option jstr)) :
  written_texts fragments = [] ->
  write_fragments fragments prepared = prepared.
Proof.
  unfold written_texts. generalize prepared.
  induction fragments as [|f r IH]; intros res; cbn [write_fragments map filter];
    [reflexivity|].
  destruct (nonempty (fragment_text f)); [discriminate|]. apply IH.
Qed.

(** A request that reaches the handler, with a provider whose call is
    rejected or whose stream delivers its chunks and then finishes or
    throws, is answered and the response is ended, in one of two ways: a
    JSON body with status 400 or 500 and no frame, which [streamChat]
    reports as [Failed to connect to AI] whatever the body says; or status
    200 with content frames and one terminal frame after them.  (A
    provider that never settles is not among the behaviours of
    [provider]: the handler has no timeout, and such a request stays
    open.) *)
Theorem post_chat_ends {N : Numbers} {C : Casing} (now : number)
    (message : option jstr) (history : list ChatMessage) (p : provider) :
  ended (response (post_chat now message history p)) = true /\
  match json_body (response (post_chat now message history p)) with
  | Some _ =>
      written (response (post_chat now message history p)) = [] /\
      (statusCode (response (post_chat now message history p)) = 400 \/
       statusCode (response (post_chat now message history p)) = 500) /\
      forall chunks,
        streamChat (fetch (response (post_chat now message history p)) chunks) =
        [OnError (JStr (lit "Failed to connect to AI"))]
  | None =>
      statusCode (response (post_chat now message history p)) = 200 /\
      exists texts t,
        written (response (post_chat now message history p)) =
          map frame (map Content texts ++ [t]) /\
        terminal t = true
  end.
Proof.
  destruct (nonempty (fragment_text message)) eqn:Hm.
  - destruct message as [m|]; [|discriminate]. cbn [fragment_text] in Hm.
    pose proof (post_chat_written now m history p Hm) as Hw.
    rewrite post_chat_response in * by assumption.
    destruct p as [|fragments []].
    + rewrite on_failure_prepared. cbn [status_json ended json_body written statusCode].
      split; [reflexivity|]. split; [reflexivity|]. split; [now right|].
      intros chunks. reflexivity.
    + cbn [end_ write ended json_body statusCode] in *.
      destruct (write_fragments_status fragments prepared) as [H1 [H2 _]].
      rewrite H1, H2. cbn [prepared setHeader fresh json_body statusCode].
      repeat split. exists (written_texts fragments), Done.
      split; [exact Hw | reflexivity].
    + unfold on_failure in *. rewrite write_fragments_headersSent in *.
      cbn [prepared setHeader fresh headersSent orb] in *.
      cbn [events_of] in Hw.
      destruct (written_texts fragments) as [|t ts] eqn:E.
      * cbn [status_json ended json_body written statusCode].
        split; [reflexivity|]. split; [|split; [now right|]].
        -- rewrite write_fragments_written, E. reflexivity.
        -- intros chunks. reflexivity.
      * cbn [end_ write ended json_body statusCode] in *.
        destruct (write_fragments_status fragments prepared) as [H1 [H2 _]].
        rewrite H1, H2. cbn [prepared setHeader fresh json_body statusCode].
        repeat split. exists (t :: ts), (Error (lit "AI service error")).
        split; [exact Hw | reflexivity].
  - rewrite post_chat_empty by assumption.
    cbn [response status_json ended json_body written statusCode fresh].
    split; [reflexivity|]. split; [reflexivity|]. split; [now left|].
    intros chunks. reflexivity.
Qed.

Lemma failure_response {N : Numbers} {C : Casing} (now : number)
    (m : jstr) (history : list ChatMessage) (p : provider) :
  nonempty m = true ->
  events_of p = [] ->
  response (post_chat now (Some m) history p) =
  status_json 500 (lit "Failed to process chat") prepared.
Proof.
  intros Hm He. rewrite post_chat_response by assumption.
  destruct p as [|fragments []]; cbn [events_of] in He.
  - reflexivity.
  - now destruct (map Content (written_texts fragments)).
  - destruct (written_texts fragments) as [|t ts] eqn:E; [|discriminate].
    rewrite on_failure_no_content by assumption. reflexivity.
Qed.

(** A provider that fails before any content is written (the call is
    rejected, or the stream throws before its first non-empty fragment):
    the answer is status 500 with the JSON body of [Failed to process
    chat] and no frame.  Its content type is the [text/event-stream] set
    before the provider was called, with the character set [res.send]
    adds: [res.json] does not make it [application/json], as it does for
    the answer to a request without a message.  The caller is told [Failed
    to connect to AI]. *)
Theorem failure_before_content {N : Numbers} {C : Casing} (now : number)
    (m : jstr) (history : list ChatMessage) (p : provider) :
  nonempty m = true ->
  events_of p = [] ->
  statusCode (response (post_chat now (Some m) history p)) = 500 /\
  json_body (response (post_chat now (Some m) history p)) =
    Some (stringify_string_property (lit "error") (lit "Failed to process chat")) /\
  written (response (post_chat now (Some m) history p)) = [] /\
  ended (response (post_chat now (Some m) history p)) = true /\
  get_header (lit "Content-Type")
    (headers (response (post_chat now (Some m) history p))) =
    Some (lit "text/event-stream; charset=utf-8") /\
  get_header (lit "Content-Type")
    (headers (response (post_chat now None history p))) =
    Some (lit "application/json; charset=utf-8") /\
  forall chunks : list bytes,
    streamChat (fetch (response (post_chat now (Some m) history p)) chunks) =
    [OnError (JStr (lit "Failed to connect to AI"))].
Proof.
  intros Hm He. rewrite failure_response by assumption.
  repeat split.
Qed.

Lemma failure_before_content_witness :
  get_header (lit "Content-Type")
    (headers (response (post_chat (N:=Platform.terms) (C:=Platform.ascii)
                Scenario.clock (Some Scenario.analyze) []
                (Streams [None; Some []] Fails)))) =
  Some (lit "text/event-stream; charset=utf-8").
Proof.
  apply (failure_before_content (N:=Platform.terms) (C:=Platform.ascii)
           Scenario.clock Scenario.analyze [] (Streams [None; Some []] Fails)
           eq_refl eq_refl).
Defined.

End StreamFacts.

(* ================================================================== *)
(** * The chat screen *)
(* ================================================================== *)

Section ChatFacts.
Import JsString Json Utf8 Text StockData Routes Api Pipeline ChatScreen.

Lemma update_fresh (i : jstr) (f : jstr -> jstr) (l : list DisplayMessage) :
  ~ In i (map id l) -> update i f l = l.
Proof.
  unfold update. induction l as [|m r IH]; cbn [map In]; intros H; [reflexivity|].
  destruct (eqb (id m) i) eqn:E.
  - apply eqb_eq in E. tauto.
  - rewrite IH by tauto. reflexivity.
Qed.

(** The two messages [sendMessage] appends: only the second one has the id
    of the assistant, so an update changes its content and nothing else. *)
Lemma update_appended (old : list DisplayMessage) (text userId assistantId answer : jstr)
    (f : jstr -> jstr) :
  ~ In assistantId (map id old) -> userId <> assistantId ->
  update assistantId f
    (old ++ [{| id := userId; role := user; content := text |};
             {| id := assistantId; role := assistant; content := answer |}]) =
  old ++ [{| id := userId; role := user; content := text |};
          {| id := assistantId; role := assistant; content := f answer |}].
Proof.
  intros Hf Hu. unfold update. rewrite map_app.
  fold (update assistantId f old). rewrite update_fresh by assumption.
  cbn [map id role content]. apply eqb_neq in Hu. rewrite Hu, eqb_refl.
  reflexivity.
Qed.

Lemma fold_chunks {P : Plus} (old : list DisplayMessage) (text userId assistantId : jstr)
    (calls : list callback) :
  ~ In assistantId (map id old) -> userId <> assistantId ->
  Forall (fun x => is_chunk x = true) calls ->
  forall (answer i : jstr) (b : bool),
  fold_left (call assistantId) calls
    {| messages := old ++ [{| id := userId; role := user; content := text |};
                           {| id := assistantId; role := assistant; content := answer |}];
       input := i; isStreaming := b |} =
  {| messages := old ++ [{| id := userId; role := user; content := text |};
                         {| id := assistantId; role := assistant;
                            content := appended answer calls |}];
     input := i; isStreaming := b |}.
Proof.
  intros Hf Hu. induction 1 as [|c r Hc _ IH]; intros answer i b; [reflexivity|].
  destruct c as [chunk| |e]; try discriminate.
  cbn [fold_left call messages input isStreaming appended].
  rewrite update_appended by assumption. apply IH.
Qed.

Lemma appended_strings {P : Plus} (texts : list jstr) (answer : jstr) :
  appended answer (map (fun t => OnChunk (JStr t)) texts) =
  answer ++ List.concat texts.
Proof.
  revert answer. induction texts as [|t r IH]; intros answer;
    cbn [map appended List.concat].
  - now rewrite app_nil_r.
  - now rewrite IH, string_plus_text, app_assoc.
Qed.

Lemma sendMessage_calls {P : Plus} (text userId assistantId : jstr) (reply : fetched)
    (s : state) (calls : list callback) (t : callback) :
  nonempty (trim text) = true -> isStreaming s = false ->
  fresh_id assistantId s -> userId <> assistantId ->
  streamChat reply = calls ++ [t] ->
  Forall (fun x => is_chunk x = true) calls -> is_chunk t = false ->
  fst (sendMessage text userId assistantId reply s) =
  {| messages :=
       messages s ++ [{| id := userId; role := user; content := trim text |};
                      {| id := assistantId; role := assistant;
                         content := settled (appended [] calls) t |}];
     input := []; isStreaming := false |}.
Proof.
  intros Hn Hs Hf Hu E Hc Ht. unfold sendMessage. rewrite Hn, Hs. cbn [negb orb fst].
  rewrite E, fold_left_app, fold_chunks by assumption.
  destruct t as [chunk| |e]; try discriminate; cbn [fold_left call messages input settled].
  - reflexivity.
  - now rewrite update_appended by assumption.
Qed.

Lemma streamChat_shape (r : fetched) :
  exists calls t,
    streamChat r = calls ++ [t] /\
    Forall (fun x => is_chunk x = true) calls /\ is_chunk t = false.
Proof.
  destruct r as [message | [] [[chunks fin]|]];
    try (eexists [], _; repeat split; constructor).
  rewrite streamChat_lines. unfold run_lines.
  destruct (for_lines_shape (complete_lines (decode_all new_decoder chunks)))
    as [calls [c [E [[-> Hf] | [-> [cs [t [-> [Hc Ht]]]]]]]]]; rewrite E.
  - exists calls, (final fin). repeat split; [exact Hf | destruct fin; reflexivity].
  - exists cs, t. now repeat split.
Qed.

Lemma status_not_400 {N : Numbers} {C : Casing} (now : number) (m : jstr)
    (history : list ChatMessage) (p : provider) :
  nonempty m = true ->
  statusCode (response (post_chat now (Some m) history p)) <> 400.
Proof.
  intros Hm. rewrite post_chat_response by assumption.
  destruct p as [|fragments []].
  - discriminate.
  - cbn [end_ write statusCode].
    destruct (write_fragments_status fragments prepared) as [H1 _].
    rewrite H1. discriminate.
  - unfold on_failure.
    destruct (headersSent (write_fragments fragments prepared)).
    + cbn [end_ write statusCode].
      destruct (write_fragments_status fragments prepared) as [H1 _].
      rewrite H1. discriminate.
    + discriminate.
Qed.

Lemma history_copy (history : list ChatMessage) :
  map (fun h => {| Routes.role := Routes.role h; Routes.content := Routes.content h |})
      history = history.
Proof.
  induction history as [|[r c] l IH]; cbn [map]; [reflexivity|].
  now rewrite IH.
Qed.

(** [sendMessage] makes a request exactly when the text has a character
    that is not white space and no answer is being streamed; otherwise the
    state stays as it is.  The request carries the trimmed text and the
    messages shown so far; the handler never answers it with status 400,
    and gives the provider the system message, those messages, and the
    trimmed text as the last message. *)
Theorem sendMessage_request {P : Plus} {N : Numbers} {C : Casing} (now : number)
    (text userId assistantId : jstr) (reply : fetched) (s : state)
    (p : provider) :
  match snd (sendMessage text userId assistantId reply s) with
  | Some r =>
      nonempty (trim text) = true /\ isStreaming s = false /\
      message r = trim text /\ history r = transcript s /\
      statusCode (response (post_chat now (Some (message r)) (history r) p)) <> 400 /\
      exists system,
        Routes.role system = lit "system" /\
        upstream (post_chat now (Some (message r)) (history r) p) =
        Some (system :: transcript s
                ++ [{| Routes.role := lit "user"; Routes.content := trim text |}])
  | None =>
      fst (sendMessage text userId assistantId reply s) = s /\
      (nonempty (trim text) = false \/ isStreaming s = true)
  end.
Proof.
  unfold sendMessage.
  destruct (nonempty (trim text)) eqn:Hn; cbn [negb orb].
  - destruct (isStreaming s) eqn:Hs; cbn [snd fst].
    + split; [reflexivity | now right].
    + cbn [message history]. rewrite removelast_last. fold (transcript s).
      repeat split.
      * now apply status_not_400.
      * rewrite post_chat_upstream by assumption. unfold build_messages.
        rewrite history_copy. eexists. split; [|reflexivity]. reflexivity.
  - cbn [snd fst]. split; [reflexivity | now left].
Qed.

(** When [fetch] settles and the body has an end ([fetch] is rejected,
    the status is not OK, there is no body, or the stream delivers its
    chunks and then closes or breaks: the values of [fetched]),
    [sendMessage] leaves the screen settled: not streaming, the input
    empty, the earlier messages as they were, and after them the message
    of the user and one answer.  (A stream that stalls is not a value of
    [fetched]: [streamChat] has no timeout, and the screen then stays
    streaming.) *)
Theorem sendMessage_settles {P : Plus} (text userId assistantId : jstr) (reply : fetched)
    (s : state) :
  nonempty (trim text) = true -> isStreaming s = false ->
  fresh_id assistantId s -> userId <> assistantId ->
  exists answer,
    fst (sendMessage text userId assistantId reply s) =
    {| messages :=
         messages s ++ [{| id := userId; role := user; content := trim text |};
                        {| id := assistantId; role := assistant; content := answer |}];
       input := []; isStreaming := false |}.
Proof.
  intros Hn Hs Hf Hu.
  destruct (streamChat_shape reply) as [calls [t [E [Hc Ht]]]].
  eexists. now apply (sendMessage_calls text userId assistantId reply s calls t).
Qed.

Lemma concat_nonempty (texts : list jstr) :
  List.concat (filter nonempty texts) = List.concat texts.
Proof.
  induction texts as [|t r IH]; cbn [filter List.concat]; [reflexivity|].
  destruct t as [|c t']; cbn [nonempty List.concat app]; now rewrite IH.
Qed.

Lemma reply_status {N : Numbers} {C : Casing} (now : number) (m : jstr)
    (history : list ChatMessage) (p : provider) :
  nonempty m = true ->
  events_of p <> [] ->
  statusCode (response (post_chat now (Some m) history p)) = 200 /\
  json_body (response (post_chat now (Some m) history p)) = None.
Proof.
  intros Hm He. rewrite post_chat_response by assumption.
  destruct p as [|fragments []]; cbn [events_of] in He.
  - contradiction.
  - cbn [end_ write statusCode json_body].
    destruct (write_fragments_status fragments prepared) as [H1 [H2 _]].
    now rewrite H1, H2.
  - unfold on_failure. rewrite write_fragments_headersSent.
    cbn [prepared setHeader fresh headersSent orb].
    destruct (written_texts fragments) as [|t ts]; [contradiction|].
    cbn [end_ write statusCode json_body].
    destruct (write_fragments_status fragments prepared) as [H1 [H2 _]].
    now rewrite H1, H2.
Qed.

(** The calls of [streamChat] for the response of the handler, however the
    reader cuts it. *)
Lemma reply_calls {N : Numbers} {C : Casing} (now : number) (m : jstr)
    (history : list ChatMessage) (p : provider) (chunks : list bytes) :
  nonempty m = true ->
  Forall event_wf (events_of p) ->
  carries (response (post_chat now (Some m) history p)) chunks ->
  streamChat (fetch (response (post_chat now (Some m) history p)) chunks) =
  match p with
  | Streams fragments Completes =>
      map (fun t => OnChunk (JStr t)) (written_texts fragments) ++ [OnDone]
  | Streams fragments Fails =>
      match written_texts fragments with
      | [] => [OnError (JStr (lit "Failed to connect to AI"))]
      | texts =>
          map (fun t => OnChunk (JStr t)) texts
          ++ [OnError (JStr (lit "AI service error"))]
      end
  | Rejects => [OnError (JStr (lit "Failed to connect to AI"))]
  end.
Proof.
  intros Hm Hwf Hc.
  destruct (list_eq_dec (fun a b : StreamEvent => ltac:(decide equality; apply (list_eq_dec Z.eq_dec)))
              (events_of p) []) as [He | He].
  - pose proof (failure_response now m history p Hm He) as Hr.
    rewrite Hr. destruct p as [|fragments []]; cbn [events_of] in He.
    + reflexivity.
    + now destruct (map Content (written_texts fragments)).
    + destruct (written_texts fragments); [reflexivity | discriminate].
  - destruct (reply_status now m history p Hm He) as [Hs Hj].
    pose proof (post_chat_written now m history p Hm) as Hw.
    unfold carries, body_text in Hc. rewrite Hj, Hw in Hc.
    unfold fetch, ok. rewrite Hs.
    change ((200 <=? 200) && (200 <=? 299)) with true.
    rewrite (streamChat_wire (events_of p) chunks Closed Hwf Hc).
    destruct p as [|fragments []]; cbn [events_of] in *.
    + contradiction.
    + rewrite deliver_contents. cbn [deliver delivery].
      now rewrite filter_all by apply written_texts_nonempty.
    + pose proof (written_texts_nonempty fragments) as Hne.
      destruct (written_texts fragments) as [|t ts]; [contradiction|].
      rewrite deliver_contents. cbn [deliver delivery nonempty lit].
      now rewrite filter_all by assumption.
Qed.

Lemma sendMessage_settles_witness :
  exists answer,
    fst (sendMessage (P:=Platform2.strings_only) Scenario2.typed (lit "u1") (lit "a1")
           (Rejected []) Scenario2.opened) =
    {| messages := [{| id := lit "u1"; role := user; content := Scenario.analyze |};
                    {| id := lit "a1"; role := assistant; content := answer |}];
       input := []; isStreaming := false |}.
Proof.
  apply (sendMessage_settles (P:=Platform2.strings_only) Scenario2.typed (lit "u1") (lit "a1") (Rejected [])
           Scenario2.opened).
  - reflexivity.
  - reflexivity.
  - intros [].
  - discriminate.
Defined.

(** From the provider to the screen: when the provider completes, the
    answer shown is the fragments one after the other, however the reader
    cuts the response, and the screen is no longer streaming. *)
Theorem sendMessage_answer {P : Plus} {N : Numbers} {C : Casing} (now : number)
    (text userId assistantId : jstr) (s : state)
    (fragments : list (option jstr)) (chunks : list bytes) :
  nonempty (trim text) = true -> isStreaming s = false ->
  fresh_id assistantId s -> userId <> assistantId ->
  Forall (fun f => well_formed (fragment_text f)) fragments ->
  carries (response (post_chat now (Some (trim text)) (transcript s)
                       (Streams fragments Completes))) chunks ->
  fst (sendMessage text userId assistantId
         (fetch (response (post_chat now (Some (trim text)) (transcript s)
                             (Streams fragments Completes))) chunks) s) =
  {| messages :=
       messages s ++ [{| id := userId; role := user; content := trim text |};
                      {| id := assistantId; role := assistant;
                         content := List.concat (map fragment_text fragments) |}];
     input := []; isStreaming := false |}.
Proof.
  intros Hn Hs Hf Hu Hwf Hc.
  rewrite (sendMessage_calls text userId assistantId _ s
             (map (fun t => OnChunk (JStr t)) (written_texts fragments)) OnDone);
    try assumption; try reflexivity.
  - cbn [settled]. rewrite appended_strings. cbn [app].
    unfold written_texts. now rewrite concat_nonempty.
  - rewrite (reply_calls now (trim text) (transcript s) (Streams fragments Completes));
      try assumption; [reflexivity|].
    cbn [events_of]. apply event_wf_app; [now apply written_texts_wf|].
    repeat constructor.
  - apply Forall_map, Forall_forall. intros t _. reflexivity.
Qed.

Lemma sendMessage_answer_witness :
  fst (sendMessage (P:=Platform2.strings_only) Scenario2.typed (lit "u1") (lit "a1")
         (fetch Scenario.completed (Scenario.cut Scenario.completed))
         Scenario2.opened) =
  {| messages := [{| id := lit "u1"; role := user; content := Scenario.analyze |};
                  {| id := lit "a1"; role := assistant;
                     content := lit "Apple is strong." |}];
     input := []; isStreaming := false |}.
Proof.
  refine (sendMessage_answer (P:=Platform2.strings_only) (N:=Platform.terms)
            (C:=Platform.ascii) Scenario.clock Scenario2.typed (lit "u1") (lit "a1")
            Scenario2.opened Scenario.fragments (Scenario.cut Scenario.completed)
            _ _ _ _ _ _).
  - reflexivity.
  - reflexivity.
  - intros [].
  - discriminate.
  - apply fragments_check. reflexivity.
  - vm_compute. reflexivity.
Defined.

(** When the provider does not complete (the call is rejected, or the
    stream throws, before or after content was written), the answer shown
    is the apology: content that had arrived is replaced by it. *)
Theorem sendMessage_apology {P : Plus} {N : Numbers} {C : Casing} (now : number)
    (text userId assistantId : jstr) (s : state) (p : provider)
    (chunks : list bytes) :
  nonempty (trim text) = true -> isStreaming s = false ->
  fresh_id assistantId s -> userId <> assistantId ->
  (forall fragments, p <> Streams fragments Completes) ->
  Forall event_wf (events_of p) ->
  carries (response (post_chat now (Some (trim text)) (transcript s) p)) chunks ->
  fst (sendMessage text userId assistantId
         (fetch (response (post_chat now (Some (trim text)) (transcript s) p))
            chunks) s) =
  {| messages :=
       messages s ++ [{| id := userId; role := user; content := trim text |};
                      {| id := assistantId; role := assistant;
                         content := apology |}];
     input := []; isStreaming := false |}.
Proof.
  intros Hn Hs Hf Hu Hp Hwf Hc.
  pose proof (reply_calls now (trim text) (transcript s) p chunks Hn Hwf Hc) as E.
  destruct p as [|fragments []].
  - now rewrite (sendMessage_calls text userId assistantId _ s [] _ Hn Hs Hf Hu E).
  - now destruct (Hp fragments).
  - destruct (written_texts fragments) as [|t ts].
    + now rewrite (sendMessage_calls text userId assistantId _ s [] _ Hn Hs Hf Hu E).
    + rewrite (sendMessage_calls text userId assistantId _ s _ _ Hn Hs Hf Hu E);
        [reflexivity | | reflexivity].
      apply Forall_map, Forall_forall. intros x _. reflexivity.
Qed.

Lemma sendMessage_apology_witness :
  fst (sendMessage (P:=Platform2.strings_only) Scenario2.typed (lit "u1") (lit "a1")
         (fetch Scenario.failed (Scenario.cut Scenario.failed))
         Scenario2.opened) =
  {| messages := [{| id := lit "u1"; role := user; content := Scenario.analyze |};
                  {| id := lit "a1"; role := assistant; content := apology |}];
     input := []; isStreaming := false |}.
Proof.
  refine (sendMessage_apology (P:=Platform2.strings_only) (N:=Platform.terms)
            (C:=Platform.ascii) Scenario.clock Scenario2.typed (lit "u1") (lit "a1")
            Scenario2.opened (Streams [Some (lit "Apple")] Fails)
            (Scenario.cut Scenario.failed) _ _ _ _ _ _ _).
  - reflexivity.
  - reflexivity.
  - intros [].
  - discriminate.
  - discriminate.
  - change (Forall event_wf [Content (lit "Apple"); Error (lit "AI service error")]).
    constructor; [apply well_formed_check; reflexivity|].
    constructor; [apply well_formed_check; reflexivity | constructor].
  - vm_compute. reflexivity.
Defined.

End ChatFacts.

(* ================================================================== *)
(** * The lists of quotes *)
(* ================================================================== *)

Section ListFacts.
Import JsString StockData StockLists.
Context {N : Numbers} {C : Casing} {L : Lowering} {O : Ordering}.

Lemma map_quotes_known (now : number) (symbols : list jstr) :
  Forall (fun s => In s getAllSymbols) symbols ->
  exists qs,
    map_quotes now symbols = Some (map Some qs) /\
    map q_symbol qs = symbols /\
    Forall (fun q => quote_of now (q_symbol q) = Some q) qs.
Proof.
  induction 1 as [|s r Hs _ [qs [E [Hq Hf]]]]; cbn [map_quotes].
  - exists []. repeat split. constructor.
  - destruct (getStockQuote_symbol now s Hs) as [q [Eq Hsym]].
    rewrite Eq, E. exists (q :: qs). cbn [map]. rewrite Hq, Hsym.
    repeat split. constructor; [|exact Hf].
    unfold quote_of. now rewrite Hsym, Eq.
Qed.

Lemma all_quotes_Some (qs : list StockQuote) : all_quotes (map Some qs) = Some qs.
Proof.
  induction qs as [|q r IH]; cbn [map all_quotes]; [reflexivity|].
  now rewrite IH.
Qed.

Lemma matched_NoDup (q : jstr) (table : list (jstr * stock)) :
  NoDup (map fst table) -> NoDup (map fst (filter (matches q) table)).
Proof.
  induction table as [|e r IH]; cbn [map filter]; intros H; [constructor|].
  inversion H as [|y ys Hx Hr]; subst.
  destruct (matches q e); [|now apply IH].
  cbn [map]. constructor; [|now apply IH].
  intros Hin. apply Hx. apply in_map_iff in Hin as [z [Ez Hz]].
  apply filter_In in Hz as [Hz _]. apply in_map_iff. now exists z.
Qed.

Lemma NoDup_firstn {A : Type} (n : nat) (l : list A) :
  NoDup l -> NoDup (firstn n l).
Proof.
  intros H. rewrite <- (firstn_skipn n l) in H.
  now apply NoDup_app_remove_r in H.
Qed.

Lemma In_firstn {A : Type} (n : nat) (l : list A) (x : A) :
  In x (firstn n l) -> In x l.
Proof.
  intros H. rewrite <- (firstn_skipn n l). apply in_or_app. now left.
Qed.

Lemma matched_symbols (q : jstr) :
  Forall (fun s => In s getAllSymbols) (map fst (filter (matches q) STOCKS)).
Proof.
  apply Forall_forall. intros s H. apply in_map_iff in H as [e [<- He]].
  apply filter_In in He as [He _]. unfold getAllSymbols. now apply in_map.
Qed.


Lemma includes_empty (s : jstr) : includes s [] = true.
Proof. destruct s; reflexivity. Qed.

Lemma filter_true {A : Type} (p : A -> bool) (l : list A) :
  (forall x, p x = true) -> filter p l = l.
Proof.
  intros H. induction l as [|x r IH]; cbn [filter]; [reflexivity|].
  now rewrite H, IH.
Qed.

(** The empty query (the route passes it when [q] is missing) matches
    every entry: the result is the quotes of the first ten symbols of the
    table. *)
Theorem searchStocks_empty_query (now : number) (query : jstr) :
  toLowerCase query = [] ->
  exists qs,
    searchStocks now query = Some (map Some qs) /\
    map q_symbol qs = firstn 10 getAllSymbols /\
    List.length qs = 10%nat /\
    Forall (fun q => quote_of now (q_symbol q) = Some q) qs.
Proof.
  intros Hq. unfold searchStocks. rewrite Hq.
  rewrite filter_true by (intros e; unfold matches; now rewrite includes_empty).
  fold getAllSymbols.
  destruct (map_quotes_known now getAllSymbols) as [qs [E [Hs Hf]]].
  { apply Forall_forall. auto. }
  rewrite E. exists (firstn 10 qs). split; [now rewrite firstn_map|].
  split; [now rewrite <- firstn_map, Hs|].
  split.
  - rewrite firstn_length_le; [reflexivity|].
    rewrite <- (length_map q_symbol), Hs, symbols_count. lia.
  - apply Forall_forall. intros q Hin. apply In_firstn in Hin.
    rewrite Forall_forall in Hf. now apply Hf.
Qed.


Lemma insert_Permutation (x : StockQuote) (l : list StockQuote) :
  Permutation (x :: l) (insert x l).
Proof.
  induction l as [|y r IH]; cbn [insert]; [reflexivity|].
  destruct (ngt (compare x y) (num 0)); [|reflexivity].
  rewrite perm_swap. now constructor.
Qed.

Lemma sort_Permutation (l : list StockQuote) : Permutation l (sort l).
Proof.
  unfold sort. induction l as [|x r IH]; cbn [fold_right]; [constructor|].
  rewrite <- insert_Permutation. now constructor.
Qed.

(** [getTopMovers] never throws: its result is six quotes of six different
    symbols of the table, the first six of an arrangement of the quotes of
    all the symbols. *)
Theorem getTopMovers_quotes (now : number) :
  exists movers others all,
    getTopMovers now = Some movers /\
    List.length movers = 6%nat /\
    map q_symbol all = getAllSymbols /\
    Permutation (movers ++ others) all /\
    NoDup (map q_symbol movers) /\
    Forall (fun q => quote_of now (q_symbol q) = Some q) movers.
Proof.
  unfold getTopMovers.
  destruct (map_quotes_known now getAllSymbols) as [qs [E [Hs Hq]]].
  { apply Forall_forall. auto. }
  rewrite E, all_quotes_Some.
  pose proof (sort_Permutation qs) as Hp.
  assert (Hlen : List.length (sort qs) = 25%nat).
  { rewrite <- (Permutation_length Hp), <- (length_map q_symbol), Hs.
    exact symbols_count. }
  exists (firstn 6 (sort qs)), (skipn 6 (sort qs)), qs.
  split; [reflexivity|].
  split; [rewrite firstn_length_le; [reflexivity | rewrite Hlen; lia]|].
  split; [exact Hs|].
  split; [rewrite firstn_skipn; now symmetry|].
  split.
  - rewrite <- firstn_map. apply NoDup_firstn.
    apply (Permutation_NoDup (l := map q_symbol qs)).
    + now apply Permutation_map.
    + rewrite Hs. exact symbols_NoDup.
  - apply Forall_forall. intros q Hin. apply In_firstn in Hin.
    rewrite Forall_forall in Hq. apply Hq.
    apply (Permutation_in q (Permutation_sym Hp) Hin).
Qed.

Lemma table_quotes_known (now : number) (qs : list StockQuote)
    (symbols : list jstr) :
  map q_symbol qs = symbols ->
  Forall (fun q => quote_of now (q_symbol q) = Some q) qs ->
  flat_map (fun s => match quote_of now s with
                     | Some q => [q]
                     | None => []
                     end) symbols = qs.
Proof.
  intros <-. induction 1 as [|q r Hq _ IH]; [reflexivity|].
  cbn [map flat_map]. now rewrite Hq, IH.
Qed.

(** The quotes [getTopMovers] sorts are those of the table, one for each
    symbol. *)
Lemma map_quotes_table (now : number) :
  map_quotes now getAllSymbols = Some (map Some (table_quotes now)) /\
  map q_symbol (table_quotes now) = getAllSymbols /\
  Forall (fun q => quote_of now (q_symbol q) = Some q) (table_quotes now).
Proof.
  destruct (map_quotes_known now getAllSymbols) as [qs [E [Hs Hf]]].
  { apply Forall_forall. auto. }
  unfold table_quotes. rewrite (table_quotes_known now qs getAllSymbols Hs Hf).
  now repeat split.
Qed.

Lemma insert_sorted (Q : list StockQuote) (x : StockQuote) (l : list StockQuote) :
  (forall a b, In a Q -> In b Q ->
     ngt (compare a b) (num 0) = true -> not_after b a) ->
  (forall a b c, In a Q -> In b Q -> In c Q ->
     not_after a b -> not_after b c -> not_after a c) ->
  incl (x :: l) Q ->
  StronglySorted not_after l -> StronglySorted not_after (insert x l).
Proof.
  intros Hasym Htrans Hin Hs. revert Hin.
  induction Hs as [|y r Hr IH Hy]; cbn [insert]; intros Hin.
  - repeat constructor.
  - assert (Hx : In x Q) by (apply Hin; now left).
    assert (Hyq : In y Q) by (apply Hin; right; now left).
    assert (Hrq : incl r Q) by (intros z Hz; apply Hin; right; now right).
    destruct (ngt (compare x y) (num 0)) eqn:E.
    + constructor.
      * apply IH. intros z [<- | Hz]; [exact Hx | now apply Hrq].
      * apply (Permutation_Forall (insert_Permutation x r)).
        constructor; [now apply Hasym | exact Hy].
    + constructor; [now constructor|].
      constructor; [exact E|].
      rewrite Forall_forall in Hy |- *. intros z Hz.
      apply (Htrans x y z); try assumption; [now apply Hrq | now apply Hy].
Qed.

Lemma sort_sorted (Q l : list StockQuote) :
  (forall a b, In a Q -> In b Q ->
     ngt (compare a b) (num 0) = true -> not_after b a) ->
  (forall a b c, In a Q -> In b Q -> In c Q ->
     not_after a b -> not_after b c -> not_after a c) ->
  incl l Q ->
  StronglySorted not_after (sort l).
Proof.
  intros Hasym Htrans. unfold sort.
  induction l as [|x r IH]; cbn [fold_right]; intros Hin; [constructor|].
  apply (insert_sorted Q); try assumption.
  - intros z [<- | Hz]; [apply Hin; now left|].
    apply Hin. right.
    apply (Permutation_in z (Permutation_sym (sort_Permutation r)) Hz).
  - apply IH. intros z Hz. apply Hin. now right.
Qed.


End ListFacts.

Section ListScenarios.
Import JsString StockData StockLists Platform Platform2.

Lemma searchStocks_empty_query_witness :
  exists qs,
    searchStocks (N:=terms) (C:=Platform.ascii) (L:=ascii_lower) Scenario.clock []
      = Some (map Some qs) /\
    map q_symbol qs = firstn 10 getAllSymbols /\
    List.length qs = 10%nat /\
    Forall (fun q => quote_of (N:=terms) (C:=Platform.ascii) Scenario.clock
                       (q_symbol q) = Some q) qs.
Proof.
  apply (searchStocks_empty_query (N:=terms) (C:=Platform.ascii) (L:=ascii_lower)
           Scenario.clock []).
  reflexivity.
Defined.

Lemma terms_order_asym (a b : StockQuote (N:=terms)) :
  ngt (compare (O:=terms_order) a b) (num 0) = true ->
  not_after (O:=terms_order) b a.
Proof.
  unfold not_after, compare. cbn [ngt terms_order nsub terms num eval].
  intros H. apply Z.ltb_lt in H. apply Z.ltb_ge. lia.
Qed.

Lemma terms_order_trans (a b c : StockQuote (N:=terms)) :
  not_after (O:=terms_order) a b -> not_after (O:=terms_order) b c ->
  not_after (O:=terms_order) a c.
Proof.
  unfold not_after, compare. cbn [ngt terms_order nsub terms num eval].
  intros H1 H2. apply Z.ltb_ge in H1, H2. apply Z.ltb_ge. lia.
Qed.


End ListScenarios.

(* ================================================================== *)
(** * The dialog of the portfolio screen *)
(* ================================================================== *)

Section DialogFacts.
Import JsString Text Portfolio PortfolioScreen.

Lemma trimStart_Forall (P : Z -> Prop) (s : jstr) :
  Forall P s -> Forall P (trimStart s).
Proof.
  induction 1 as [|c r Hc Hr IH]; cbn [trimStart]; [constructor|].
  destruct (is_space c); [exact IH | now constructor].
Qed.

Lemma trimStart_head (s r : jstr) (c : Z) :
  trimStart s = c :: r -> is_space c = false.
Proof.
  induction s as [|x s IH]; cbn [trimStart]; [discriminate|].
  destruct (is_space x) eqn:E; [exact IH|].
  intros H. inversion H; subst. exact E.
Qed.

Lemma trimStart_suffix (s : jstr) : exists w, s = w ++ trimStart s.
Proof.
  induction s as [|x s [w IH]]; cbn [trimStart]; [now exists []|].
  destruct (is_space x).
  - exists (x :: w). cbn [app]. now rewrite <- IH.
  - now exists [].
Qed.

Lemma trimEnd_prefix (s : jstr) : exists w, s = trimEnd s ++ w.
Proof.
  unfold trimEnd. destruct (trimStart_suffix (rev s)) as [w E].
  exists (rev w). rewrite <- rev_app_distr, <- E. now rewrite rev_involutive.
Qed.

Lemma trim_Forall (P : Z -> Prop) (s : jstr) : Forall P s -> Forall P (trim s).
Proof.
  intros H. unfold trim, trimEnd.
  apply Forall_rev, trimStart_Forall, Forall_rev. now apply trimStart_Forall.
Qed.

Lemma trim_head (s r : jstr) (c : Z) : trim s = c :: r -> is_space c = false.
Proof.
  unfold trim. intros H.
  destruct (trimEnd_prefix (trimStart s)) as [w E]. rewrite H in E.
  cbn [app] in E. now apply trimStart_head in E.
Qed.

Lemma trim_last (s r : jstr) (c : Z) : trim s = r ++ [c] -> is_space c = false.
Proof.
  unfold trim, trimEnd. intros H.
  apply (f_equal (@rev Z)) in H. rewrite rev_involutive, rev_app_distr in H.
  cbn [rev app] in H. now apply trimStart_head in H.
Qed.

Context {N : Numbers} {J : NumberJson} {C : Casing} {R : Parsing}.

Lemma addHolding_find (item : PortfolioItem) (st : state) :
  find_holding (symbol item) (holdings (addHolding item st)) = Some item /\
  count_occ (list_eq_dec Z.eq_dec) (map symbol (holdings (addHolding item st)))
            (symbol item) = 1%nat.
Proof.
  unfold addHolding, set_holdings. cbn [holdings]. split.
  - rewrite find_holding_app, find_holding_filter, eqb_refl.
    unfold find_holding. cbn [find]. now rewrite eqb_refl.
  - rewrite map_app, count_occ_app, filter_other_symbols. cbn [map count_occ].
    destruct (list_eq_dec Z.eq_dec (symbol item) (symbol item)); [|contradiction].
    rewrite (proj1 (count_occ_not_In _ _ _)); [reflexivity|].
    intros H. apply filter_In in H as [_ H]. now rewrite eqb_refl in H.
Qed.

(** [handleAdd] either shows the alert and changes nothing, or closes and
    clears the dialog and stores one holding: its symbol is the text of the
    field in capitals and trimmed, which is not empty, has no small letter
    and no white space at either end; it is the only holding of that
    symbol; its name is the name of the quote, or the symbol when the
    request for the quote failed. *)
Theorem handleAdd_holding (quote_name : option jstr) (today : jstr) (f : form)
    (st : state) :
  match handleAdd quote_name today f st with
  | (f', st', true) => f' = f /\ st' = st
  | (f', st', false) =>
      f' = {| showAdd := false; addSymbol := []; addQty := []; addPrice := [] |} /\
      tidy (entered_symbol f) /\
      (exists item,
         find_holding (entered_symbol f) (holdings st') = Some item /\
         symbol item = entered_symbol f /\
         name item = match quote_name with
                     | Some n => n
                     | None => entered_symbol f
                     end /\
         addedAt item = today) /\
      count_occ (list_eq_dec Z.eq_dec) (map symbol (holdings st'))
                (entered_symbol f) = 1%nat /\
      watchlist st' = watchlist st
  end.
Proof.
  unfold handleAdd. destruct (invalid f) eqn:E; [now split|].
  unfold invalid in E. repeat (apply orb_false_iff in E as [E _]).
  apply negb_false_iff in E.
  split; [reflexivity|]. split.
  { split; [exact E|]. split; [|split].
    - unfold entered_symbol. apply trim_Forall, toUpperCase_no_lower.
    - intros c r. apply trim_head.
    - intros c r. apply trim_last. }
  match goal with
  | |- context [addHolding ?i st] => destruct (addHolding_find i st) as [Hf Hc]
  end.
  cbn [symbol] in Hf, Hc. split; [|split; [exact Hc | reflexivity]].
  eexists. split; [exact Hf|]. repeat split.
Qed.

End DialogFacts.

Section DialogScenarios.
Import JsString Text Portfolio PortfolioScreen Platform Platform2.

(** The dialog filled with [ aapl ], 2 and 198.5 stores a holding of
    [AAPL]. *)
Lemma handleAdd_holding_witness :
  entered_symbol (C:=Platform.ascii) Scenario2.filled = lit "AAPL" /\
  tidy (entered_symbol (C:=Platform.ascii) Scenario2.filled).
Proof.
  split; [reflexivity|].
  exact (proj1 (proj2 (handleAdd_holding (N:=compared) (J:=compared_json)
                         (C:=Platform.ascii) (R:=digits_parsing)
                         None (lit "2024-01-01T00:00:00.000Z") Scenario2.filled
                         Scenario2.mounted))).
Defined.

End DialogScenarios.

(* ================================================================== *)
(** * The login and signup forms *)
(* ================================================================== *)

Section FormFacts.
Import JsString Text AuthScreens.

Lemma trimStart_blank (s : jstr) : blank_text s = true -> trimStart s = [].
Proof.
  unfold blank_text. induction s as [|c r IH]; cbn [forallb trimStart]; [reflexivity|].
  intros H. apply andb_true_iff in H as [Hc Hr]. rewrite Hc. now apply IH.
Qed.

Lemma trim_blank (s : jstr) : blank_text s = true -> trim s = [].
Proof.
  intros H. unfold trim, trimEnd. now rewrite (trimStart_blank s H).
Qed.

(** [handleSignup] calls [signup] exactly when the name and the email have
    a character that is not white space, the password and the
    confirmation are not empty, the password has six code units or more
    and is the confirmation; the call gets the name and the email trimmed
    and the password as typed, and what is shown and where the router goes
    follow its answer.  Otherwise no call is made and the message of the
    first check that fails is shown: a field to fill in, the length of the
    password, the confirmation. *)
Theorem handleSignup_guard (name email password confirm : jstr)
    (signup : jstr -> jstr -> jstr -> answer) :
  (nonempty (trim name) && nonempty (trim email)
   && nonempty password && nonempty confirm = false ->
   handleSignup name email password confirm signup =
   {| shown := lit "Please fill in all fields"; called := None;
      entered := false |}) /\
  (nonempty (trim name) && nonempty (trim email)
   && nonempty password && nonempty confirm = true ->
   (List.length password < 6)%nat ->
   handleSignup name email password confirm signup =
   {| shown := lit "Password must be at least 6 characters"; called := None;
      entered := false |}) /\
  (nonempty (trim name) && nonempty (trim email)
   && nonempty password && nonempty confirm = true ->
   (6 <= List.length password)%nat -> password <> confirm ->
   handleSignup name email password confirm signup =
   {| shown := lit "Passwords do not match"; called := None;
      entered := false |}) /\
  (nonempty (trim name) && nonempty (trim email)
   && nonempty password && nonempty confirm = true ->
   (6 <= List.length password)%nat -> password = confirm ->
   handleSignup name email password confirm signup =
   {| shown := if success (signup (trim name) (trim email) password) then []
               else error_or (lit "Signup failed")
                      (error (signup (trim name) (trim email) password));
      called := Some [trim name; trim email; password];
      entered := success (signup (trim name) (trim email) password) |}) /\
  match called (handleSignup name email password confirm signup) with
  | Some args =>
      args = [trim name; trim email; password] /\
      nonempty (trim name) = true /\ nonempty (trim email) = true /\
      (6 <= List.length password)%nat /\ password = confirm /\
      entered (handleSignup name email password confirm signup) =
        success (signup (trim name) (trim email) password)
  | None =>
      entered (handleSignup name email password confirm signup) = false /\
      In (shown (handleSignup name email password confirm signup))
         [lit "Please fill in all fields";
          lit "Password must be at least 6 characters";
          lit "Passwords do not match"]
  end.
Proof.
  split; [|split; [|split; [|split]]].
  - intros Hf. unfold handleSignup.
    destruct (nonempty (trim name)); [|reflexivity].
    destruct (nonempty (trim email)); [|reflexivity].
    destruct (nonempty password); [|reflexivity].
    destruct (nonempty confirm); [discriminate | reflexivity].
  - intros Hr Hl. unfold handleSignup.
    apply andb_true_iff in Hr as [Hr Hc]. apply andb_true_iff in Hr as [Hr Hp].
    apply andb_true_iff in Hr as [Hn He]. rewrite Hn, He, Hp, Hc. cbn [negb orb].
    apply Nat.ltb_lt in Hl. now rewrite Hl.
  - intros Hr Hl Hd. unfold handleSignup.
    apply andb_true_iff in Hr as [Hr Hc]. apply andb_true_iff in Hr as [Hr Hp].
    apply andb_true_iff in Hr as [Hn He]. rewrite Hn, He, Hp, Hc. cbn [negb orb].
    apply Nat.ltb_ge in Hl. rewrite Hl.
    apply eqb_neq in Hd. now rewrite Hd.
  - intros Hr Hl <-. unfold handleSignup.
    apply andb_true_iff in Hr as [Hr Hc]. apply andb_true_iff in Hr as [Hr Hp].
    apply andb_true_iff in Hr as [Hn He]. rewrite Hn, He, Hp. cbn [negb orb].
    apply Nat.ltb_ge in Hl. rewrite Hl, eqb_refl. cbn [negb].
    unfold settle. now destruct (success _).
  - unfold handleSignup.
    destruct (nonempty (trim name)); cbn [negb orb];
      [|split; [reflexivity | left; reflexivity]].
    destruct (nonempty (trim email)); cbn [negb orb];
      [|split; [reflexivity | left; reflexivity]].
    destruct (nonempty password); cbn [negb orb];
      [|split; [reflexivity | left; reflexivity]].
    destruct (nonempty confirm); cbn [negb orb];
      [|split; [reflexivity | left; reflexivity]].
    destruct (List.length password <? 6)%nat eqn:El;
      [split; [reflexivity | right; left; reflexivity]|].
    apply Nat.ltb_ge in El.
    destruct (eqb password confirm) eqn:Ec; cbn [negb];
      [|split; [reflexivity | right; right; left; reflexivity]].
    apply eqb_eq in Ec. unfold settle.
    destruct (success (signup (trim name) (trim email) password));
      cbn [called entered]; repeat split; assumption.
Qed.

(** A password of white space only, six code units or more, passes the
    signup form and is given to [signup] as it is; the login form refuses
    the same password before it calls [login], whatever the auth context
    would answer: the account cannot be entered through the form. *)
Theorem blank_password_refused (name email password : jstr)
    (signup : jstr -> jstr -> jstr -> answer) (login : jstr -> jstr -> answer) :
  nonempty (trim name) = true -> nonempty (trim email) = true ->
  blank_text password = true -> (6 <= List.length password)%nat ->
  called (handleSignup name email password password signup) =
    Some [trim name; trim email; password] /\
  handleLogin email password login =
    {| shown := lit "Please fill in all fields"; called := None;
       entered := false |}.
Proof.
  intros Hn He Hb Hl. split.
  - unfold handleSignup. rewrite Hn, He.
    assert (Hp : nonempty password = true).
    { destruct password; [cbn in Hl; lia | reflexivity]. }
    rewrite Hp. cbn [negb orb].
    apply Nat.ltb_ge in Hl. rewrite Hl, eqb_refl. cbn [negb].
    unfold settle. now destruct (success _).
  - unfold handleLogin. rewrite He, (trim_blank password Hb). reflexivity.
Qed.

Lemma blank_password_refused_witness :
  called (handleSignup (lit "Ann") (lit "ann@example.com") Scenario2.spaces
            Scenario2.spaces (fun _ _ _ => Scenario2.accepting)) =
    Some [lit "Ann"; lit "ann@example.com"; Scenario2.spaces] /\
  handleLogin (lit "ann@example.com") Scenario2.spaces
    (fun _ _ => Scenario2.accepting) =
    {| shown := lit "Please fill in all fields"; called := None;
       entered := false |}.
Proof.
  apply (blank_password_refused (lit "Ann") (lit "ann@example.com")
           Scenario2.spaces (fun _ _ _ => Scenario2.accepting)
           (fun _ _ => Scenario2.accepting)).
  - reflexivity.
  - reflexivity.
  - reflexivity.
  - cbn. lia.
Defined.

End FormFacts.

(* ================================================================== *)
(** * Objects: creation, enumeration, lookup *)
(* ================================================================== *)

Section ObjectFacts.
Import JsString Json JsObject.

Lemma lookup_snoc (key k : jstr) (v : json) (l : list (jstr * json)) :
  lookup key (l ++ [(k, v)]) = if eqb k key then Some v else lookup key l.
Proof.
  induction l as [|[k' v'] r IH]; cbn [app lookup].
  - now destruct (eqb k key).
  - rewrite IH. destruct (eqb k key); [reflexivity|].
    reflexivity.
Qed.

Lemma lookup_None (key : jstr) (l : list (jstr * json)) :
  ~ In key (map fst l) -> lookup key l = None.
Proof.
  induction l as [|[k v] r IH]; cbn [map fst In lookup]; intros H; [reflexivity|].
  rewrite IH by tauto.
  destruct (eqb k key) eqn:E; [|reflexivity].
  apply eqb_eq in E. tauto.
Qed.

(** On an object, whose keys are different, a key has the value it is
    listed with. *)
Lemma lookup_In (key : jstr) (l : list (jstr * json)) :
  NoDup (map fst l) -> forall v, lookup key l = Some v <-> In (key, v) l.
Proof.
  induction l as [|[k x] r IH]; cbn [map fst lookup In]; intros Hd v.
  - split; [discriminate | tauto].
  - inversion Hd as [|? ? Hk Hr]; subst. specialize (IH Hr).
    destruct (lookup key r) as [y|] eqn:E.
    + split.
      * intros H. right. apply IH. exact H.
      * intros [H | H].
        -- inversion H; subst. exfalso. apply Hk.
           assert (Hin : In (key, y) r) by (apply IH; reflexivity).
           apply in_map_iff. now exists (key, y).
        -- now apply IH.
    + destruct (eqb k key) eqn:Ek.
      * apply eqb_eq in Ek. subst k. split.
        -- intros H. inversion H; subst. now left.
        -- intros [H | H]; [now inversion H|].
           apply IH in H. discriminate.
      * split; [discriminate|].
        intros [H | H].
        -- inversion H; subst. now rewrite eqb_refl in Ek.
        -- apply IH in H. discriminate.
Qed.

Lemma lookup_Permutation (key : jstr) (a b : list (jstr * json)) :
  NoDup (map fst a) -> Permutation a b -> lookup key a = lookup key b.
Proof.
  intros Hd Hp.
  assert (Hd' : NoDup (map fst b)).
  { apply (Permutation_NoDup (l := map fst a)); [now apply Permutation_map | exact Hd]. }
  destruct (lookup key a) as [v|] eqn:Ea.
  - symmetry. apply (lookup_In key b Hd' v).
    apply (Permutation_in _ Hp). now apply (lookup_In key a Hd v).
  - destruct (lookup key b) as [w|] eqn:Eb; [|reflexivity].
    apply (lookup_In key b Hd' w) in Eb.
    apply (Permutation_in _ (Permutation_sym Hp)) in Eb.
    apply (lookup_In key a Hd w) in Eb. congruence.
Qed.

Lemma put_keys (k : jstr) (v : json) (o : list (jstr * json)) :
  map fst (put k v o) =
  if existsb (fun k' => eqb k' k) (map fst o) then map fst o
  else map fst o ++ [k].
Proof.
  induction o as [|[k' v'] r IH]; cbn [put map fst existsb app]; [reflexivity|].
  destruct (eqb k' k); cbn [orb map fst]; [reflexivity|].
  rewrite IH. now destruct (existsb _ (map fst r)).
Qed.

Lemma put_NoDup (k : jstr) (v : json) (o : list (jstr * json)) :
  NoDup (map fst o) -> NoDup (map fst (put k v o)).
Proof.
  intros Hd. rewrite put_keys.
  destruct (existsb (fun k' => eqb k' k) (map fst o)) eqn:E; [exact Hd|].
  apply NoDup_app; [exact Hd | repeat constructor; intros [] |].
  intros x Hx [<- | []].
  assert (Ht : existsb (fun k' => eqb k' k) (map fst o) = true).
  { apply existsb_exists. exists k. split; [exact Hx | apply eqb_refl]. }
  congruence.
Qed.

Lemma lookup_put (key k : jstr) (v : json) (o : list (jstr * json)) :
  NoDup (map fst o) ->
  lookup key (put k v o) = if eqb k key then Some v else lookup key o.
Proof.
  induction o as [|[k' v'] r IH]; cbn [put map fst lookup]; intros Hd.
  - now destruct (eqb k key).
  - inversion Hd as [|? ? Hk Hr]; subst.
    destruct (eqb k' k) eqn:E.
    + apply eqb_eq in E. subst k'. cbn [lookup].
      destruct (eqb k key) eqn:Ek.
      * apply eqb_eq in Ek. subst key. now rewrite (lookup_None k r Hk).
      * reflexivity.
    + cbn [lookup]. rewrite (IH Hr).
      destruct (eqb k key); reflexivity.
Qed.

Lemma put_In (k : jstr) (v : json) (o : list (jstr * json)) (e : jstr * json) :
  In e (put k v o) -> e = (k, v) \/ In e o.
Proof.
  induction o as [|[k' v'] r IH]; cbn [put In].
  - intros [<- | []]. now left.
  - destruct (eqb k' k) eqn:E; cbn [In].
    + apply eqb_eq in E. subst k'. intros [<- | H]; [now left | now right; right].
    + intros [<- | H]; [now right; left|].
      destruct (IH H) as [-> | Hin]; [now left | now right; right].
Qed.

Lemma created_snoc (l : list (jstr * json)) (e : jstr * json) :
  created (l ++ [e]) = put (fst e) (snd e) (created l).
Proof. unfold created. now rewrite fold_left_app. Qed.

Lemma created_NoDup (l : list (jstr * json)) : NoDup (map fst (created l)).
Proof.
  induction l as [|e l IH] using rev_ind; [constructor|].
  rewrite created_snoc. now apply put_NoDup.
Qed.

Lemma created_In (l : list (jstr * json)) (e : jstr * json) :
  In e (created l) -> In e l.
Proof.
  revert e. induction l as [|x l IH] using rev_ind; intros e; [intros []|].
  rewrite created_snoc. intros H. apply put_In in H as [-> | H].
  - apply in_or_app. right. destruct x. now left.
  - apply in_or_app. left. now apply IH.
Qed.

Lemma lookup_created (key : jstr) (l : list (jstr * json)) :
  lookup key (created l) = lookup key l.
Proof.
  induction l as [|[k v] l IH] using rev_ind; [reflexivity|].
  rewrite created_snoc, lookup_snoc. cbn [fst snd].
  rewrite lookup_put by apply created_NoDup. now rewrite IH.
Qed.

Lemma insert_index_Permutation (i : Z) (e : jstr * json)
    (l : list (Z * (jstr * json))) :
  Permutation ((i, e) :: l) (insert_index i e l).
Proof.
  induction l as [|[j e'] r IH]; cbn [insert_index]; [reflexivity|].
  destruct (j <? i); [|reflexivity].
  rewrite perm_swap. now constructor.
Qed.

Lemma indexed_Permutation (o : list (jstr * json)) :
  Permutation (map snd (indexed o)) (filter is_index o).
Proof.
  induction o as [|e r IH]; cbn [indexed fold_right filter]; [constructor|].
  fold (indexed r). unfold is_index at 1.
  destruct (index_value (fst e)) as [i|]; [|exact IH].
  rewrite <- (Permutation_map snd (insert_index_Permutation i e (indexed r))).
  cbn [map snd]. now constructor.
Qed.

Lemma filter_split {A : Type} (p : A -> bool) (l : list A) :
  Permutation (filter p l ++ filter (fun x => negb (p x)) l) l.
Proof.
  induction l as [|x r IH]; cbn [filter app]; [constructor|].
  destruct (p x); cbn [negb app].
  - now constructor.
  - rewrite <- Permutation_middle. now constructor.
Qed.

Lemma own_entries_Permutation (o : list (jstr * json)) :
  Permutation (own_entries o) o.
Proof.
  unfold own_entries. rewrite indexed_Permutation. apply filter_split.
Qed.

(** What a key has in the object made from a list of members: the value
    of its last member, wherever the enumeration puts it. *)
Lemma lookup_own_entries (key : jstr) (l : list (jstr * json)) :
  lookup key (own_entries (created l)) = lookup key l.
Proof.
  rewrite <- (lookup_created key l). symmetry.
  apply lookup_Permutation; [apply created_NoDup|].
  symmetry. apply own_entries_Permutation.
Qed.

Lemma own_entries_In (l : list (jstr * json)) (e : jstr * json) :
  In e (own_entries (created l)) -> In e l.
Proof.
  intros H. apply created_In.
  apply (Permutation_in _ (own_entries_Permutation (created l)) H).
Qed.

End ObjectFacts.

(* ================================================================== *)
(** * Objects of strings, written and read back *)
(* ================================================================== *)

Section ObjectText.
Import JsString Json JsObject.
Context {T : JsonNumbers}.

(** One member of an object of strings, as it is written. *)
Lemma parse_member (f : nat) (k s tail : jstr) :
  well_formed k -> well_formed s ->
  exists r,
    QuoteJSONString k ++ 58 :: QuoteJSONString s ++ tail = dquote :: r /\
    parse_chars r = Some (k, 58 :: QuoteJSONString s ++ tail) /\
    parse_value (S f) (QuoteJSONString s ++ tail) = Ok (JStr s, tail).
Proof.
  intros Hk Hs. unfold QuoteJSONString at 1. cbn [app]. rewrite <- app_assoc.
  cbn [app]. eexists. split; [reflexivity|]. split.
  - now apply parse_chars_quote_chars.
  - now apply parse_value_string.
Qed.

Lemma parse_members_strings (l : list (jstr * jstr)) :
  forall (k s : jstr) (acc : list (jstr * json)) (rest : jstr) (f : nat),
  (List.length l + 2 <= f)%nat ->
  well_formed k -> well_formed s ->
  Forall (fun e => well_formed (fst e) /\ well_formed (snd e)) l ->
  parse_members f
    (join [44] (map (fun e => QuoteJSONString (fst e) ++ 58 :: QuoteJSONString (snd e))
                    ((k, s) :: l)) ++ 125 :: rest) acc
  = Ok (JObj (rev acc ++ map (fun e => (fst e, JStr (snd e))) ((k, s) :: l)), rest).
Proof.
  induction l as [|[k' s'] l IH]; intros k s acc rest f Hf Hk Hs Hl.
  - destruct f as [|[|f]]; [cbn [List.length] in Hf; lia ..|].
    cbn [map join fst snd]. rewrite <- app_assoc. cbn [app].
    destruct (parse_member f k s (125 :: rest) Hk Hs) as [r [Er [Ec Ev]]].
    cbn [parse_members]. rewrite Er.
    rewrite skip_ws_literal by reflexivity. rewrite Z.eqb_refl, Ec.
    rewrite skip_ws_literal by reflexivity.
    change (58 =? 58) with true. cbn iota. rewrite Ev.
    rewrite skip_ws_literal by reflexivity.
    change (125 =? 44) with false. change (125 =? 125) with true. cbn iota.
    cbn [rev]. reflexivity.
  - inversion Hl as [|? ? [Hk' Hs'] Hl']; subst. cbn [fst snd] in Hk', Hs'.
    cbn [List.length] in Hf. destruct f as [|f]; [lia|].
    change (join [44]
              (map (fun e => QuoteJSONString (fst e) ++ 58 :: QuoteJSONString (snd e))
                   ((k, s) :: (k', s') :: l)))
      with ((QuoteJSONString k ++ 58 :: QuoteJSONString s) ++ [44]
            ++ join [44]
                 (map (fun e => QuoteJSONString (fst e) ++ 58 :: QuoteJSONString (snd e))
                      ((k', s') :: l))).
    rewrite <- !app_assoc. cbn [app].
    cbn [parse_members]. destruct f as [|f]; [lia|].
    match goal with
    | |- context [skip_ws (QuoteJSONString k ++ 58 :: QuoteJSONString s ++ ?tail)] =>
        destruct (parse_member f k s tail Hk Hs) as [r [Er [Ec Ev]]]
    end.
    rewrite Er.
    rewrite skip_ws_literal by reflexivity. rewrite Z.eqb_refl, Ec.
    rewrite skip_ws_literal by reflexivity.
    change (58 =? 58) with true. cbn iota. rewrite Ev.
    rewrite skip_ws_literal by reflexivity.
    change (44 =? 44) with true. cbn iota.
    rewrite (IH k' s' ((k, JStr s) :: acc) rest (S f)); try assumption; [|lia].
    cbn [rev map fst snd]. now rewrite <- app_assoc.
Qed.

Lemma print_strings_object (fields : list (jstr * jstr)) :
  print (strings_object fields) =
  123 :: join [44] (map (fun e => QuoteJSONString (fst e) ++ 58 :: QuoteJSONString (snd e))
                        fields) ++ [125].
Proof.
  unfold strings_object. cbn [print]. rewrite map_map.
  change (lit "{") with [123]. change (lit "}") with [125].
  change (lit ",") with [44]. cbn [app]. f_equal. f_equal. f_equal.
  apply map_ext. intros [k s]. reflexivity.
Qed.

Lemma strings_object_map (fields : list (jstr * jstr)) :
  strings_object fields = JObj (map (fun e => (fst e, JStr (snd e))) fields).
Proof.
  unfold strings_object. f_equal. apply map_ext. now intros [k s].
Qed.

(** An object of strings is read back from its text. *)
Lemma parse_value_strings_object (fields : list (jstr * jstr)) (rest : jstr)
    (f : nat) :
  (List.length fields + 2 <= f)%nat ->
  Forall (fun e => well_formed (fst e) /\ well_formed (snd e)) fields ->
  parse_value f (print (strings_object fields) ++ rest)
  = Ok (strings_object fields, rest).
Proof.
  intros Hf Hw. rewrite print_strings_object, strings_object_map.
  destruct f as [|f]; [lia|].
  destruct fields as [|[k s] l].
  - cbn [map join app parse_value]. rewrite skip_ws_literal by reflexivity.
    change (123 =? 123) with true. cbn iota.
    rewrite skip_ws_literal by reflexivity.
    change (125 =? 125) with true. reflexivity.
  - inversion Hw as [|? ? [Hk Hs] Hl]; subst. cbn [fst snd] in Hk, Hs.
    cbn [List.length] in Hf. cbn [app]. rewrite <- app_assoc. cbn [app].
    assert (Hq : exists r,
               join [44] (map (fun e => QuoteJSONString (fst e) ++ 58 :: QuoteJSONString (snd e))
                              ((k, s) :: l)) = dquote :: r).
    { destruct l; cbn [map join fst]; unfold QuoteJSONString at 1; cbn [app];
        eexists; reflexivity. }
    destruct Hq as [r Hr].
    cbn [parse_value]. rewrite skip_ws_literal by reflexivity.
    change (123 =? 123) with true. cbn iota.
    rewrite Hr. cbn [app]. rewrite skip_ws_literal by reflexivity.
    change (dquote =? 125) with false. cbn iota.
    change (dquote :: r ++ 125 :: rest) with ((dquote :: r) ++ 125 :: rest).
    rewrite <- Hr.
    rewrite (parse_members_strings l k s [] rest f); try assumption; [|lia].
    reflexivity.
Qed.

Lemma join_count (sep : jstr) (parts : list jstr) :
  Forall (fun p => (1 <= List.length p)%nat) parts ->
  (List.length parts <= List.length (join sep parts))%nat.
Proof.
  induction 1 as [|p r Hp Hr IH]; [cbn; lia|].
  destruct r as [|q r']; [cbn [join List.length]; lia|].
  change (join sep (p :: q :: r')) with (p ++ sep ++ join sep (q :: r')).
  rewrite !length_app. cbn [List.length] in IH |- *. lia.
Qed.

Lemma member_length (fields : list (jstr * jstr)) :
  Nat.le (List.length fields)
    (List.length (join [44] (map (fun e => QuoteJSONString (fst e) ++ 58 :: QuoteJSONString (snd e))
                                 fields))).
Proof.
  rewrite <- (length_map (fun e => QuoteJSONString (fst e) ++ 58 :: QuoteJSONString (snd e))
                fields) at 1.
  apply join_count, Forall_map, Forall_forall. intros [k s] _. cbn [fst snd].
  pose proof (QuoteJSONString_length k). rewrite length_app. lia.
Qed.

(** [JSON.parse(JSON.stringify(o))] for an object literal of strings. *)
Lemma JSON_parse_strings_object (fields : list (jstr * jstr)) :
  Forall (fun e => well_formed (fst e) /\ well_formed (snd e)) fields ->
  JSON_parse (print (strings_object fields)) = Ok (strings_object fields).
Proof.
  intros Hw. unfold JSON_parse.
  rewrite <- (app_nil_r (print (strings_object fields))) at 2.
  rewrite parse_value_strings_object; [reflexivity | | assumption].
  unfold parse_fuel. rewrite print_strings_object.
  pose proof (member_length fields) as Hl.
  cbn [List.length]. rewrite length_app. cbn [List.length]. lia.
Qed.

(** The members of a table: each value an object of strings with at most
    [m] members. *)
Lemma parse_members_table (m : nat) (l : list (jstr * list (jstr * jstr))) :
  forall (k : jstr) (fs : list (jstr * jstr)) (acc : list (jstr * json))
         (rest : jstr) (f : nat),
  (List.length l + m + 3 <= f)%nat ->
  Forall (fun e => well_formed (fst e) /\ (List.length (snd e) <= m)%nat /\
            Forall (fun x => well_formed (fst x) /\ well_formed (snd x)) (snd e))
         ((k, fs) :: l) ->
  parse_members f
    (join [44] (map (fun e => QuoteJSONString (fst e) ++ 58 :: print (strings_object (snd e)))
                    ((k, fs) :: l)) ++ 125 :: rest) acc
  = Ok (JObj (rev acc ++ map (fun e => (fst e, strings_object (snd e))) ((k, fs) :: l)),
        rest).
Proof.
  induction l as [|[k' fs'] l IH]; intros k fs acc rest f Hf Hw;
    inversion Hw as [|? ? [Hk [Hm Hfs]] Hl]; subst; cbn [fst snd] in Hk, Hm, Hfs.
  - cbn [List.length] in Hf. destruct f as [|f]; [lia|].
    cbn [map join fst snd]. rewrite <- app_assoc. cbn [app].
    unfold QuoteJSONString at 1. cbn [app]. rewrite <- app_assoc. cbn [app].
    cbn [parse_members]. rewrite skip_ws_literal by reflexivity.
    rewrite Z.eqb_refl, parse_chars_quote_chars by assumption.
    rewrite skip_ws_literal by reflexivity.
    change (58 =? 58) with true. cbn iota.
    rewrite parse_value_strings_object; [|lia|assumption].
    rewrite skip_ws_literal by reflexivity.
    change (125 =? 44) with false. change (125 =? 125) with true. cbn iota.
    cbn [rev]. reflexivity.
  - cbn [List.length] in Hf. destruct f as [|f]; [lia|].
    change (join [44]
              (map (fun e => QuoteJSONString (fst e) ++ 58 :: print (strings_object (snd e)))
                   ((k, fs) :: (k', fs') :: l)))
      with ((QuoteJSONString k ++ 58 :: print (strings_object fs)) ++ [44]
            ++ join [44]
                 (map (fun e => QuoteJSONString (fst e) ++ 58 :: print (strings_object (snd e)))
                      ((k', fs') :: l))).
    rewrite <- !app_assoc. cbn [app].
    unfold QuoteJSONString at 1. cbn [app]. rewrite <- app_assoc. cbn [app].
    cbn [parse_members]. rewrite skip_ws_literal by reflexivity.
    rewrite Z.eqb_refl, parse_chars_quote_chars by assumption.
    rewrite skip_ws_literal by reflexivity.
    change (58 =? 58) with true. cbn iota.
    rewrite parse_value_strings_object; [|lia|assumption].
    rewrite skip_ws_literal by reflexivity.
    change (44 =? 44) with true. cbn iota.
    rewrite (IH k' fs' ((k, strings_object fs) :: acc) rest f); [|lia|assumption].
    cbn [rev map fst snd]. now rewrite <- app_assoc.
Qed.

Lemma table_length (l : list (jstr * list (jstr * jstr))) :
  Nat.le (List.length l)
    (List.length (join [44] (map (fun e => QuoteJSONString (fst e) ++ 58 :: print (strings_object (snd e)))
                                 l))).
Proof.
  rewrite <- (length_map (fun e => QuoteJSONString (fst e) ++ 58 :: print (strings_object (snd e)))
                l) at 1.
  apply join_count, Forall_map, Forall_forall. intros [k s] _. cbn [fst snd].
  pose proof (QuoteJSONString_length k). rewrite length_app. lia.
Qed.

Lemma print_table (l : list (jstr * list (jstr * jstr))) :
  print (JObj (map (fun e => (fst e, strings_object (snd e))) l)) =
  123 :: join [44] (map (fun e => QuoteJSONString (fst e) ++ 58 :: print (strings_object (snd e)))
                        l) ++ [125].
Proof.
  cbn [print]. rewrite map_map.
  erewrite map_ext; [reflexivity | intros [k fs]; reflexivity].
Qed.

(** [JSON.parse(JSON.stringify(table))] for a table whose values are
    objects of at most four strings. *)
Lemma JSON_parse_table (l : list (jstr * list (jstr * jstr))) :
  Forall (fun e => well_formed (fst e) /\ (List.length (snd e) <= 4)%nat /\
            Forall (fun x => well_formed (fst x) /\ well_formed (snd x)) (snd e)) l ->
  JSON_parse (print (JObj (map (fun e => (fst e, strings_object (snd e))) l)))
  = Ok (JObj (map (fun e => (fst e, strings_object (snd e))) l)).
Proof.
  intros Hw. unfold JSON_parse. rewrite print_table.
  destruct l as [|[k fs] l]; [reflexivity|].
  unfold parse_fuel.
  pose proof (table_length ((k, fs) :: l)) as Hlen.
  remember (join [44] (map (fun e => QuoteJSONString (fst e) ++ 58 :: print (strings_object (snd e)))
                           ((k, fs) :: l))) as body eqn:Hb.
  assert (Hq : exists r, body = dquote :: r).
  { subst body. destruct l; cbn [map join fst]; unfold QuoteJSONString at 1;
      cbn [app]; eexists; reflexivity. }
  destruct Hq as [r Hr].
  assert (Hbl : (5 <= List.length body)%nat).
  { subst body. clear. destruct l as [|e l]; cbn [map join fst snd].
    - pose proof (QuoteJSONString_length k). rewrite length_app.
      cbn [List.length]. rewrite print_strings_object. cbn [List.length].
      rewrite length_app. cbn [List.length]. lia.
    - pose proof (QuoteJSONString_length k). rewrite !length_app.
      cbn [List.length]. rewrite print_strings_object. cbn [List.length].
      rewrite !length_app. cbn [List.length]. lia. }
  cbn [List.length] in Hlen. cbn [List.length]. rewrite length_app. cbn [List.length].
  replace (2 * S (List.length body + 1))%nat
    with (S (List.length l + 4 + 3 + (2 * List.length body - List.length l - 4)))%nat
    by lia.
  cbn [parse_value]. rewrite skip_ws_literal by reflexivity.
  change (123 =? 123) with true. cbn iota.
  rewrite Hr. cbn [app]. rewrite skip_ws_literal by reflexivity.
  change (dquote =? 125) with false. cbn iota.
  change (dquote :: r ++ [125]) with ((dquote :: r) ++ 125 :: []).
  rewrite <- Hr, Hb.
  rewrite (parse_members_table 4 l k fs [] []); [reflexivity | lia | assumption].
Qed.

End ObjectText.

(* ================================================================== *)
(** * The accounts *)
(* ================================================================== *)

Section AuthFacts.
Import JsString Json AsyncStorage JsObject AuthScreens Auth.
Context {T : JsonNumbers} {L : Lowering} {H : Hashing}.

(** A member of an object literal: its key is a literal, its value given
    to be well formed. *)
Ltac field_wf :=
  constructor;
  [split; cbn [fst snd]; [apply well_formed_check; reflexivity | assumption]|].

Lemma record_fields (id name email hash : jstr) :
  record_of id name email hash =
  strings_object [(lit "id", id); (lit "name", name); (lit "email", email);
                  (lit "passwordHash", hash)].
Proof. reflexivity. Qed.

Lemma is_table_entries (props : list (jstr * json)) :
  is_table props ->
  exists l,
    props = map (fun e => (fst e, strings_object (snd e))) l /\
    Forall (fun e => well_formed (fst e) /\ (List.length (snd e) <= 4)%nat /\
              Forall (fun x => well_formed (fst x) /\ well_formed (snd x)) (snd e)) l.
Proof.
  induction 1 as [|[k v] r [Hk [id [name [email [hash [Hv [H1 [H2 [H3 H4]]]]]]]]] _ [l [El Hl]]].
  - exists []. split; [reflexivity | constructor].
  - cbn [fst snd] in Hk, Hv. subst v r.
    exists ((k, [(lit "id", id); (lit "name", name); (lit "email", email);
                 (lit "passwordHash", hash)]) :: l).
    split; [reflexivity|]. constructor; [|exact Hl].
    cbn [fst snd]. split; [exact Hk|]. split; [cbn; lia|].
    do 4 field_wf. constructor.
Qed.

(** A table is read back from its text. *)
Lemma JSON_parse_kept (props : list (jstr * json)) :
  is_table props -> JSON_parse (print (JObj props)) = Ok (JObj props).
Proof.
  intros Ht. destruct (is_table_entries props Ht) as [l [-> Hl]].
  now apply JSON_parse_table.
Qed.

Lemma normalize_records (props : list (jstr * json)) :
  is_table props -> map (fun '(k, x) => (k, normalize x)) props = props.
Proof.
  induction 1 as [|[k v] r [_ [id [name [email [hash [Hv _]]]]]] _ IH]; [reflexivity|].
  cbn [snd] in Hv. subst v. cbn [map]. rewrite IH. reflexivity.
Qed.

Lemma is_table_own_entries (props : list (jstr * json)) :
  is_table props -> is_table (own_entries (created props)).
Proof.
  unfold is_table. rewrite !Forall_forall. intros Ht e He.
  apply Ht. now apply own_entries_In.
Qed.

(** What [JSON.stringify] writes for a table, and what is read back. *)
Lemma stringify_table (props : list (jstr * json)) :
  is_table props ->
  JSON_stringify (JObj props) = print (JObj (own_entries (created props))) /\
  is_table (own_entries (created props)).
Proof.
  intros Ht. unfold JSON_stringify. cbn [normalize].
  rewrite normalize_records by assumption.
  split; [reflexivity | now apply is_table_own_entries].
Qed.

Lemma print_object_nonempty (props : list (jstr * json)) :
  nonempty (print (JObj props)) = true.
Proof. reflexivity. Qed.

Lemma registered_kept (st : storage) :
  kept st -> exists props, registered st = Ok (JObj props) /\ is_table props.
Proof.
  unfold kept, registered. destruct (getItem users_key st) as [text|].
  - intros [props [-> Ht]]. exists props. cbn [present].
    rewrite print_object_nonempty. split; [now apply JSON_parse_kept | exact Ht].
  - intros _. exists []. split; [reflexivity | constructor].
Qed.

Lemma removeItem_twice (key : jstr) (st : storage) :
  removeItem key (removeItem key st) = removeItem key st.
Proof.
  induction st as [|[k v] r IH]; cbn [removeItem]; [reflexivity|].
  destruct (eqb k key) eqn:E; [exact IH|].
  cbn [removeItem]. now rewrite E, IH.
Qed.

Lemma setItem_twice (key value : jstr) (st : storage) :
  setItem key value (setItem key value st) = setItem key value st.
Proof.
  unfold setItem. cbn [removeItem]. now rewrite eqb_refl, removeItem_twice.
Qed.

Lemma user_fields (id name email : jstr) :
  user_of id name email =
  strings_object [(lit "id", id); (lit "email", email); (lit "name", name)].
Proof. reflexivity. Qed.

Lemma stringify_user (id name email : jstr) :
  JSON_stringify (user_of id name email) = print (user_of id name email).
Proof. reflexivity. Qed.

Lemma JSON_parse_user (id name email : jstr) :
  well_formed id -> well_formed name -> well_formed email ->
  JSON_parse (print (user_of id name email)) = Ok (user_of id name email).
Proof.
  intros H1 H2 H3. rewrite user_fields. apply JSON_parse_strings_object.
  do 3 field_wf. constructor.
Qed.

Lemma keys_apart : users_key <> user_key.
Proof. discriminate. Qed.

(** The state [signup] leaves when it succeeds. *)
Lemma signup_succeeded (id name email password : jstr) (s s1 : state)
    (props : list (jstr * json)) :
  registered (store s) = Ok (JObj props) ->
  signup id name email password s = Some (s1, succeeded) ->
  taken (users_get props (toLowerCase email)) = false /\
  s1 = enter (user_of id name (toLowerCase email))
         {| user := user s; isLoading := isLoading s;
            store := setItem users_key
                       (JSON_stringify
                          (JObj (props ++ [(toLowerCase email,
                                            record_of id name (toLowerCase email)
                                              (hashPassword password))])))
                       (store s) |}.
Proof.
  intros Hr. unfold signup. rewrite Hr.
  destruct (taken (users_get props (toLowerCase email))); [discriminate|].
  intros E. inversion E. split; reflexivity.
Qed.

(** [login] for an email that has a record in the stored table. *)
Lemma login_record (email password id name email0 hash : jstr) (s : state)
    (props : list (jstr * json)) :
  registered (store s) = Ok (JObj props) ->
  lookup (toLowerCase email) props = Some (record_of id name email0 hash) ->
  login email password s =
  if eqb (hashPassword password) hash
  then Some (enter (user_of id name email0) s, succeeded)
  else Some (s, failure (lit "Invalid password")).
Proof.
  intros Hr Hl. unfold login, users_get. rewrite Hr, Hl. reflexivity.
Qed.

Lemma signup_record (id' name' email password id name email0 hash : jstr)
    (s : state) (props : list (jstr * json)) :
  registered (store s) = Ok (JObj props) ->
  lookup (toLowerCase email) props = Some (record_of id name email0 hash) ->
  signup id' name' email password s =
  Some (s, failure (lit "Email already registered")).
Proof.
  intros Hr Hl. unfold signup, users_get. rewrite Hr, Hl. reflexivity.
Qed.

Lemma registered_enter (u : json) (s : state) :
  registered (store (enter u s)) = registered (store s).
Proof.
  unfold registered, enter. cbn [store].
  rewrite getItem_setItem_other; [reflexivity|]. intros E. now apply keys_apart.
Qed.

Lemma registered_logout (s : state) :
  registered (store (logout s)) = registered (store s).
Proof.
  unfold registered, logout. cbn [store]. rewrite getItem_removeItem.
  reflexivity.
Qed.

(** An account that [signup] has made can be entered: the session is the
    new user and survives a restart; [login] with the same password and
    an email that differs only by the case of its letters succeeds and
    leaves the state as it is; another password (one with another digest)
    is refused; the email cannot be registered again; after [logout] a
    restart finds nobody, and [login] still succeeds.  The stored users
    stay a table of records. *)
Theorem signup_then_login (id name email password : jstr) (s s1 : state) :
  kept (store s) ->
  well_formed id -> well_formed name -> well_formed (toLowerCase email) ->
  well_formed (hashPassword password) ->
  signup id name email password s = Some (s1, succeeded) ->
  kept (store s1) /\
  user s1 = user_of id name (toLowerCase email) /\
  isAuthenticated s1 = true /\
  user (restore (initial (store s1))) = user_of id name (toLowerCase email) /\
  (forall email',
     toLowerCase email' = toLowerCase email ->
     login email' password s1 = Some (s1, succeeded)) /\
  (forall password',
     hashPassword password' <> hashPassword password ->
     login email password' s1 = Some (s1, failure (lit "Invalid password"))) /\
  (forall id' name' email' password',
     toLowerCase email' = toLowerCase email ->
     signup id' name' email' password' s1 =
     Some (s1, failure (lit "Email already registered"))) /\
  user (restore (initial (store (logout s1)))) = JNull /\
  login email password (logout s1) =
    Some (enter (user_of id name (toLowerCase email)) (logout s1), succeeded).
Proof.
  intros Hk Hid Hname Hkey Hhash Hs.
  destruct (registered_kept (store s) Hk) as [props [Hr Ht]].
  destruct (signup_succeeded id name email password s s1 props Hr Hs) as [_ E1].
  set (key := toLowerCase email) in *.
  set (record := record_of id name key (hashPassword password)) in *.
  set (u := user_of id name key) in *.
  assert (Ht' : is_table (props ++ [(key, record)])).
  { apply Forall_app. split; [exact Ht|]. constructor; [|constructor].
    cbn [fst snd]. split; [exact Hkey|].
    exists id, name, key, (hashPassword password). now repeat split. }
  destruct (stringify_table _ Ht') as [Etext Ht1].
  set (props1 := own_entries (created (props ++ [(key, record)]))) in *.
  assert (Hstore : getItem users_key (store s1) = Some (print (JObj props1))).
  { rewrite E1. unfold enter. cbn [store].
    rewrite getItem_setItem_other by (intros E; now apply keys_apart).
    now rewrite getItem_setItem, Etext. }
  assert (Hr1 : registered (store s1) = Ok (JObj props1)).
  { unfold registered. rewrite Hstore. cbn [present].
    rewrite print_object_nonempty. now apply JSON_parse_kept. }
  assert (Hl1 : lookup key props1 = Some record).
  { unfold props1. rewrite lookup_own_entries, lookup_snoc. now rewrite eqb_refl. }
  assert (Huser : getItem user_key (store s1) = Some (print u)).
  { rewrite E1. unfold enter. cbn [store]. now rewrite getItem_setItem. }
  assert (Hfix : enter u s1 = s1).
  { rewrite E1. unfold enter. cbn [store user isLoading].
    now rewrite setItem_twice. }
  assert (Hu : user s1 = u) by (rewrite E1; reflexivity).
  split.
  { unfold kept. rewrite Hstore. now exists props1. }
  split; [exact Hu|].
  split; [unfold isAuthenticated; rewrite Hu; reflexivity|].
  split.
  { unfold restore, initial. cbn [store user]. rewrite Huser. cbn [present].
    replace (nonempty (print u)) with true by reflexivity.
    unfold u. now rewrite JSON_parse_user. }
  split.
  { intros email' He.
    rewrite (login_record email' password id name key (hashPassword password) s1 props1 Hr1)
      by (rewrite He; exact Hl1).
    rewrite eqb_refl. fold u. now rewrite Hfix. }
  split.
  { intros password' Hp.
    rewrite (login_record email password' id name key (hashPassword password) s1 props1 Hr1 Hl1).
    apply eqb_neq in Hp. now rewrite Hp. }
  split.
  { intros id' name' email' password' He.
    apply (signup_record id' name' email' password' id name key
             (hashPassword password) s1 props1 Hr1).
    rewrite He. exact Hl1. }
  split.
  { unfold restore, initial, logout. cbn [store user].
    rewrite getItem_removeItem, eqb_refl. reflexivity. }
  rewrite (login_record email password id name key (hashPassword password)
             (logout s1) props1);
    [now rewrite eqb_refl | now rewrite registered_logout | exact Hl1].
Qed.

(** A key that [Object.prototype] defines and the stored users do not
    have counts as taken: [signup] answers that the email is registered
    although no account has it, and [login] answers that the password is
    wrong where for any other unknown email it answers that the account is
    not found. *)
Theorem prototype_keys_taken (id name email password : jstr) (s : state)
    (props : list (jstr * json)) :
  registered (store s) = Ok (JObj props) ->
  lookup (toLowerCase email) props = None ->
  (existsb (eqb (toLowerCase email)) StockData.Object_prototype_keys = true ->
   signup id name email password s =
     Some (s, failure (lit "Email already registered")) /\
   login email password s = Some (s, failure (lit "Invalid password"))) /\
  (existsb (eqb (toLowerCase email)) StockData.Object_prototype_keys = false ->
   (exists s1, signup id name email password s = Some (s1, succeeded)) /\
   login email password s = Some (s, failure (lit "Account not found"))).
Proof.
  intros Hr Hl. split; intros Hp.
  - unfold signup, login, users_get. rewrite Hr, Hl, Hp. split; reflexivity.
  - unfold signup, login, users_get. rewrite Hr, Hl, Hp. cbn [taken].
    split; [eexists; reflexivity | reflexivity].
Qed.

End AuthFacts.

Section AuthScenarios.
Import JsString Json AsyncStorage JsObject AuthScreens Auth.
#[local] Existing Instance Platform2.ascii_lower.
#[local] Existing Instance Platform3.zeros.
#[local] Existing Instance Platform3.verbatim.

(** Ann signs up as [Ann@Example.com] and logs in as [ANN@EXAMPLE.COM]. *)
Lemma signup_then_login_witness :
  login (lit "ANN@EXAMPLE.COM") (lit "secret1") Scenario3.joined =
  Some (Scenario3.joined, succeeded).
Proof.
  refine (proj1 (proj2 (proj2 (proj2 (proj2
            (signup_then_login (lit "u-1") (lit "Ann") (lit "Ann@Example.com")
               (lit "secret1") Scenario3.installed Scenario3.joined
               _ _ _ _ _ _))))) (lit "ANN@EXAMPLE.COM") _).
  - exact I.
  - apply well_formed_check. reflexivity.
  - apply well_formed_check. reflexivity.
  - apply well_formed_check. reflexivity.
  - apply well_formed_check. reflexivity.
  - reflexivity.
  - reflexivity.
Defined.

(** On a fresh installation nobody can sign up as [Constructor]. *)
Lemma prototype_keys_taken_witness :
  signup (lit "u-2") (lit "Bob") (lit "Constructor") (lit "secret2")
    Scenario3.installed =
    Some (Scenario3.installed, failure (lit "Email already registered")) /\
  login (lit "Constructor") (lit "secret2") Scenario3.installed =
    Some (Scenario3.installed, failure (lit "Invalid password")).
Proof.
  apply (proj1 (prototype_keys_taken (lit "u-2") (lit "Bob") (lit "Constructor")
                  (lit "secret2") Scenario3.installed [] eq_refl eq_refl)).
  reflexivity.
Defined.

End AuthScenarios.
